(** * clawstr-cli: the trust-graph cache and its commands

    A shallow embedding of the social-graph core of the CLI:
    - [lib/social/db.ts] (the schema), [lib/social/contacts.ts],
      [lib/social/mutes.ts], [lib/social/graph.ts] (the three relations and
      the trust-distance resolver and filter),
    - [lib/relays.ts] ([publishEvent], [queryEvents]), [lib/nip19.ts],
    - [commands/social.ts] (follow, unfollow, mute, unmute, [graphSyncCommand],
      [graphFilterCommand]).

    The tables of Contacts and Mutes are the lists of their rows in the
    order of the rowids, the graph cache is a finite map keyed by its
    primary key, the commands are functions on the database value, and what
    the commands receive from outside (relay answers, the JSON parser, the
    clock, the decoder of the nostr library) is an explicit argument. *)

From Stdlib Require Import ZArith String Ascii List Lia Sorting.Sorted.
From stdpp Require Import gmap strings list fin_maps sorting.

Set Warnings "-register-all,-clear-no-such-hyp".

Local Open Scope string_scope.

(** ** Data model *)

(** A public key is a JavaScript string, which is what the code handles;
    nothing in the store layer checks that it is 64 hex characters. *)

(** Row of [contacts] without its key.  [relay] and [petname] are nullable
    columns. *)
Record ContactRow := mkContactRow {
  relay : option string;
  petname : option string;
  added_at : Z
}.

(** Row of [graph_cache] without its key [(source_pubkey, target_pubkey)]. *)
Record EdgeRow := mkEdgeRow {
  distance : Z;
  updated_at : Z
}.

(** The schema of [lib/social/db.ts]:
    - [contacts (pubkey TEXT PRIMARY KEY, relay TEXT, petname TEXT,
       added_at INTEGER NOT NULL)],
    - [mutes (pubkey TEXT PRIMARY KEY, added_at INTEGER NOT NULL)],
    - [graph_cache (source_pubkey TEXT NOT NULL, target_pubkey TEXT NOT NULL,
       distance INTEGER NOT NULL, updated_at INTEGER NOT NULL,
       PRIMARY KEY (source_pubkey, target_pubkey))].

    The key of [contacts] and of [mutes] is not declared [NOT NULL], and
    SQLite then admits rows whose key is [NULL], any number of them: [NULL]
    is distinct from every value, itself included.  Such a table is the list
    of its rows in the order of their rowids, which is the order in which
    the engine scans them; a row is its key ([None] for [NULL]) and its
    other columns, and the value of a mute is its [added_at] stamp.

    The keys of [graph_cache] are [NOT NULL] and the table is read through
    aggregates only: it is a finite map keyed by its primary key, and
    [INSERT OR REPLACE] on it is map insertion. *)
Abbreviation Table R := (list (option string * R)).

Record SocialDb := mkSocialDb {
  contacts : Table ContactRow;
  mutes : Table Z;
  graph_cache : gmap (string * string) EdgeRow
}.

Definition emptyDb : SocialDb := mkSocialDb [] [] ∅.

Definition set_contacts (db : SocialDb) (c : Table ContactRow) : SocialDb :=
  mkSocialDb c (mutes db) (graph_cache db).
Definition set_mutes (db : SocialDb) (m : Table Z) : SocialDb :=
  mkSocialDb (contacts db) m (graph_cache db).
Definition set_graph_cache (db : SocialDb) (g : gmap (string * string) EdgeRow) : SocialDb :=
  mkSocialDb (contacts db) (mutes db) g.

(** JavaScript's [x || null] on an optional string: [undefined] and the
    empty string both become [null]. *)
Definition or_null (x : option string) : option string :=
  match x with
  | Some s => if decide (s = EmptyString) then None else Some s
  | None => None
  end.

(** ** The SQL statements on a table keyed by [pubkey] *)

(** [pubkey = ?] with a string bound to the parameter: a [NULL] key equals
    nothing. *)
Definition key_is {R} (pubkey : string) (row : option string * R) : bool :=
  bool_decide (row.1 = Some pubkey).

(** [SELECT 1 FROM t WHERE pubkey = ?], then [!!result]. *)
Definition has_key {R} (pubkey : string) (t : Table R) : bool :=
  existsb (key_is pubkey) t.

(** [DELETE FROM t WHERE pubkey = ?] *)
Definition delete_key {R} (pubkey : string) (t : Table R) : Table R :=
  List.filter (fun row => negb (key_is pubkey row)) t.

(** [INSERT OR REPLACE INTO t VALUES (?, ...)].  A row with the same key is
    deleted and the new row gets a fresh rowid, the largest of the table:
    it is the last row.  A [NULL] key conflicts with no row. *)
Definition insert_or_replace {R} (key : option string) (r : R) (t : Table R)
    : Table R :=
  match key with
  | Some pubkey => delete_key pubkey t ++ [(key, r)]
  | None => t ++ [(None, r)]
  end.

(** [ORDER BY added_at DESC] on the scan of a table: a row is put before
    the first row whose stamp is not larger, so the rows with the same
    stamp stay in the order of the scan. *)
Fixpoint insert_desc {R} (stamp : R -> Z) (x : option string * R)
    (l : Table R) : Table R :=
  match l with
  | [] => [x]
  | y :: l' =>
      if (stamp y.2 <=? stamp x.2)%Z then x :: l
      else y :: insert_desc stamp x l'
  end.

Definition order_by_desc {R} (stamp : R -> Z) (t : Table R) : Table R :=
  foldr (insert_desc stamp) [] t.

(** ** lib/social/contacts.ts *)

(** The argument of [bulkInsertContacts], declared as
    [{ pubkey: string; relay?: string; petname?: string }].  The sync
    command fills [pubkey] with [t[1]] of a tag, which is [undefined] for a
    tag without a value and reaches the statement as [NULL]: the field is
    optional here. *)
Record ContactInput := mkContactInput {
  ci_pubkey : option string;
  ci_relay : option string;
  ci_petname : option string
}.

(** Every writing operation takes the clock reading [now]
    ([strftime('%s','now')], whole seconds) as an argument; the statements
    of one call read the same second. *)
Definition addContact (db : SocialDb) (pubkey : string)
    (relay petname : option string) (now : Z) : SocialDb :=
  set_contacts db
    (insert_or_replace (Some pubkey)
       (mkContactRow (or_null relay) (or_null petname) now) (contacts db)).

(** [result.changes > 0]: some row was deleted. *)
Definition removeContact (db : SocialDb) (pubkey : string) : bool * SocialDb :=
  (has_key pubkey (contacts db),
   set_contacts db (delete_key pubkey (contacts db))).

Definition isContact (db : SocialDb) (pubkey : string) : bool :=
  has_key pubkey (contacts db).

(** The rows as [stmt.all()] returns them: [pubkey] is [null] for a row
    with a [NULL] key. *)
Definition getContacts (db : SocialDb) : Table ContactRow :=
  order_by_desc added_at (contacts db).

Definition getContactCount (db : SocialDb) : nat := length (contacts db).

Definition clearContacts (db : SocialDb) : SocialDb := set_contacts db [].

(** The body of the transaction: one [INSERT OR REPLACE] per element, in
    order. *)
Definition insert_contact (now : Z) (t : Table ContactRow)
    (c : ContactInput) : Table ContactRow :=
  insert_or_replace (ci_pubkey c)
    (mkContactRow (or_null (ci_relay c)) (or_null (ci_petname c)) now) t.

Definition bulkInsertContacts (db : SocialDb) (cs : list ContactInput)
    (now : Z) : SocialDb :=
  set_contacts db (foldl (insert_contact now) (contacts db) cs).

(** ** lib/social/mutes.ts *)

Definition addMute (db : SocialDb) (pubkey : string) (now : Z) : SocialDb :=
  set_mutes db (insert_or_replace (Some pubkey) now (mutes db)).

Definition removeMute (db : SocialDb) (pubkey : string) : bool * SocialDb :=
  (has_key pubkey (mutes db),
   set_mutes db (delete_key pubkey (mutes db))).

Definition isMuted (db : SocialDb) (pubkey : string) : bool :=
  has_key pubkey (mutes db).

Definition getMutes (db : SocialDb) : Table Z :=
  order_by_desc (fun added_at : Z => added_at) (mutes db).

Definition getMuteCount (db : SocialDb) : nat := length (mutes db).

Definition clearMutes (db : SocialDb) : SocialDb := set_mutes db [].

(** Declared on [string[]]; the sync command passes [t[1]] of each tag,
    [undefined] for a tag without a value: the elements are optional. *)
Definition bulkInsertMutes (db : SocialDb) (pubkeys : list (option string))
    (now : Z) : SocialDb :=
  set_mutes db (foldl (fun t pk => insert_or_replace pk now t) (mutes db) pubkeys).

(** ** lib/social/graph.ts *)

Definition insert_edge (source : string) (dist now : Z)
    (g : gmap (string * string) EdgeRow) (target : string)
    : gmap (string * string) EdgeRow :=
  <[(source, target) := mkEdgeRow dist now]> g.

(** [distance] is a whole number here.  The columns of [graph_cache] are
    [NOT NULL]: what the sync command does with a target that is
    [undefined] is in [cacheFollows] below. *)
Definition updateGraphCache (db : SocialDb) (sourcePubkey : string)
    (follows : list string) (dist : Z) (now : Z) : SocialDb :=
  set_graph_cache db
    (foldl (insert_edge sourcePubkey dist now) (graph_cache db) follows).

(** The rows selected by
    [WHERE source_pubkey IN (SELECT pubkey FROM contacts) AND target_pubkey = ?]:
    a [NULL] among the keys of [contacts] matches no source. *)
Definition selected (db : SocialDb) (target : string)
    (row : (string * string) * EdgeRow) : bool :=
  has_key row.1.1 (contacts db) && bool_decide (row.1.2 = target).

(** SQL [MIN] over a column: [NULL] on no rows. *)
Fixpoint sql_min (l : list Z) : option Z :=
  match l with
  | [] => None
  | x :: l' =>
      match sql_min l' with
      | None => Some x
      | Some m => Some (Z.min x m)
      end
  end.

(** SQL [MAX] over a column: [NULL] on no rows. *)
Fixpoint sql_max (l : list Z) : option Z :=
  match l with
  | [] => None
  | x :: l' =>
      match sql_max l' with
      | None => Some x
      | Some m => Some (Z.max x m)
      end
  end.

(** A whole number that SQLite has computed reaches JavaScript as a
    [number], an IEEE 754 double: itself up to [2^53] in absolute value,
    beyond that the nearest number with a significand of 53 bits, a tie
    going to the even significand. *)
Definition as_double (z : Z) : Z :=
  let a := Z.abs z in
  if (a <=? 2 ^ 53)%Z then z
  else
    let e := (Z.log2 a - 52)%Z in
    let q := Z.shiftr a e in
    let r := (a - Z.shiftl q e)%Z in
    let half := Z.shiftl 1 (e - 1) in
    let q' := if (r <? half)%Z then q
              else if (half <? r)%Z then (q + 1)%Z
              else if Z.even q then q else (q + 1)%Z in
    (Z.sgn z * Z.shiftl q' e)%Z.

(** [SELECT MIN(distance) + 1 as distance]: arithmetic on [NULL] stays
    [NULL]; the sum is read by JavaScript. *)
Definition min_distance_plus_1 (db : SocialDb) (target : string) : option Z :=
  (fun m => as_double (m + 1)) <$>
    sql_min (map (fun row => distance (snd row))
               (List.filter (selected db target) (map_to_list (graph_cache db)))).

(** [number | null] is [option Z]; [None] is the "unknown" result.
    [contactPubkeys] is the set of the keys of the listed rows, [null] for
    a row with a [NULL] key; [targetPubkey] is a string. *)
Definition getTrustDistance (db : SocialDb) (targetPubkey myPubkey : string)
    : option Z :=
  if decide (targetPubkey = myPubkey) then Some 0%Z
  else if bool_decide (Some targetPubkey ∈ map fst (getContacts db)) then Some 1%Z
  else min_distance_plus_1 db targetPubkey.

(** A JavaScript number as the CLI produces it with [parseInt]: an integer
    or [NaN].  Every comparison with [NaN] is false. *)
Inductive JsNumber := NaN | Num (z : Z).

Definition js_le (d : Z) (m : JsNumber) : bool :=
  match m with
  | NaN => false
  | Num z => (d <=? z)%Z
  end.

Definition js_gt (m : JsNumber) (z : Z) : bool :=
  match m with
  | NaN => false
  | Num d => (z <? d)%Z
  end.

Definition filterByTrustDistance (db : SocialDb) (pubkeys : list string)
    (myPubkey : string) (maxDistance : JsNumber) : list string :=
  List.filter
    (fun pubkey =>
       if isMuted db pubkey then false
       else match getTrustDistance db pubkey myPubkey with
            | None => false
            | Some d => js_le d maxDistance
            end)
    pubkeys.

Definition clearGraphCache (db : SocialDb) : SocialDb := set_graph_cache db ∅.

Record GraphStats := mkGraphStats {
  totalNodes : nat;
  totalEdges : nat;
  maxDistance : Z
}.

(** [COUNT(DISTINCT target_pubkey)], [COUNT( * )] and [MAX(distance)], the
    last one [?? 0].  [MAX] returns one of the stored distances, and a
    stored distance was written from a JavaScript number: it is read back
    as itself. *)
Definition getGraphStats (db : SocialDb) : GraphStats :=
  let rows := map_to_list (graph_cache db) in
  mkGraphStats
    (size (list_to_set (map (fun row => row.1.2) rows) : gset string))
    (size (graph_cache db))
    (default 0%Z (sql_max (map (fun row => distance (snd row)) rows))).

(** ** Records and relay queries *)

(** The fields of a signed event that the commands read.  The events the
    pool returns are verified ones: their tags are arrays of strings. *)
Record Event := mkEvent {
  ev_pubkey : string;
  ev_kind : Z;
  ev_tags : list (list string)
}.

(** The query filters the sync command builds.  The authors of the third
    query are the keys of the listed Contacts, [null] ([None]) for a row
    with a [NULL] key. *)
Record Filter := mkFilter {
  kinds : list Z;
  authors : list (option string);
  limit : option Z
}.

(** [pool.querySync(DEFAULT_RELAYS, f)] of the nostr library: what the
    relays answer to one filter is an argument of the commands.  [None] is a
    rejected promise. *)
Definition Relays := Filter -> option (list Event).

(** [queryEvents] of [lib/relays.ts] on the list of its filters (a single
    filter is wrapped in a list): one query per filter, in turn, the answers
    concatenated, nothing removed. *)
Fixpoint queryEvents (relays : Relays) (filters : list Filter) : option (list Event) :=
  match filters with
  | [] => Some []
  | f :: rest =>
      match relays f with
      | None => None
      | Some events =>
          match queryEvents relays rest with
          | None => None
          | Some allEvents => Some (events ++ allEvents)%list
          end
      end
  end.

(** [tags.filter((t) => t[0] === 'p')] *)
Definition p_tags (tags : list (list string)) : list (list string) :=
  List.filter (fun t => bool_decide (t !! 0%nat = Some "p")) tags.

(** ** Commands as store transformers that may raise *)

(** A command body runs against the store and either yields a value or
    raises.  An exception leaves the store as the statements committed so
    far made it; [None] is the exception reaching the command's [catch]
    ([process.exit(1)]). *)
Definition Cmd (A : Type) : Type := SocialDb -> option A * SocialDb.

Definition ret {A} (a : A) : Cmd A := fun db => (Some a, db).
Definition raise {A} : Cmd A := fun db => (None, db).
Definition bind {A B} (c : Cmd A) (k : A -> Cmd B) : Cmd B :=
  fun db =>
    match c db with
    | (Some a, db') => k a db'
    | (None, db') => (None, db')
    end.
Definition exec (f : SocialDb -> SocialDb) : Cmd unit := fun db => (Some tt, f db).
Definition get {A} (f : SocialDb -> A) : Cmd A := fun db => (Some (f db), db).
Definition of_option {A} (o : option A) : Cmd A :=
  match o with
  | Some a => ret a
  | None => raise
  end.

Notation "'let!' x <~ c ;; k" := (bind c (fun x => k))
  (at level 10, x name, c at level 89, k at level 200).
Notation "'seq!' c ;; k" := (bind c (fun _ => k))
  (at level 10, c at level 89, k at level 200).

(** A loop over a list inside [Cmd]: stops at the first exception. *)
Fixpoint for_each {A} (body : A -> Cmd unit) (l : list A) : Cmd unit :=
  match l with
  | [] => ret tt
  | a :: l' => seq! body a ;; for_each body l'
  end.

(** ** commands/social.ts: graphSyncCommand *)

(** One element of
    [pTags.map((t) => ({ pubkey: t[1], relay: t[2], petname: t[3] }))]:
    each field is [undefined] when the tag is too short. *)
Definition contact_of_tag (t : list string) : ContactInput :=
  mkContactInput (t !! 1%nat) (t !! 2%nat) (t !! 3%nat).

(** [t[1]] of a reference tag: [None] when the tag has no value. *)
Definition tag_pubkey (t : list string) : option string := t !! 1%nat.

(** The three queries of the command. *)
Definition contact_list_filter (self : string) : Filter :=
  mkFilter [3%Z] [Some self] (Some 1%Z).
Definition mute_list_filter (self : string) : Filter :=
  mkFilter [10000%Z] [Some self] (Some 1%Z).
Definition follows_filter (contactPubkeys : list (option string)) : Filter :=
  mkFilter [3%Z] contactPubkeys None.

(** Step 1: the agent's own contact list (kind 3).  A tag without a value
    gives a row with a [NULL] key; no statement of this step raises. *)
Definition syncContacts (relays : Relays) (self : string) (now : Z) : Cmd unit :=
  let! contactEvents <~ of_option (queryEvents relays [contact_list_filter self]) ;;
  match contactEvents with
  | latestContacts :: _ =>
      let pTags := p_tags (ev_tags latestContacts) in
      seq! exec clearContacts ;;
      let contacts := map contact_of_tag pTags in
      exec (fun db => bulkInsertContacts db contacts now)
  | [] => ret tt
  end.

(** Step 2: the agent's own mute list (kind 10000). *)
Definition syncMutes (relays : Relays) (self : string) (now : Z) : Cmd unit :=
  let! muteEvents <~ of_option (queryEvents relays [mute_list_filter self]) ;;
  match muteEvents with
  | latestMutes :: _ =>
      let pTags := p_tags (ev_tags latestMutes) in
      seq! exec clearMutes ;;
      let mutePubkeys := map tag_pubkey pTags in
      exec (fun db => bulkInsertMutes db mutePubkeys now)
  | [] => ret tt
  end.

(** The body of [for (const event of followsEvents)].  [target_pubkey] is
    [NOT NULL]: on a tag without a value the insert raises, the transaction
    of [updateGraphCache] for this event is rolled back, and the exception
    ends the command. *)
Definition cacheFollows (now : Z) (event : Event) : Cmd unit :=
  let! follows <~ of_option (mapM tag_pubkey (p_tags (ev_tags event))) ;;
  exec (fun db => updateGraphCache db (ev_pubkey event) follows 1%Z now).

(** Step 3: the follow lists of the current contacts, when [depth > 1]. *)
Definition buildGraphCache (relays : Relays) (depth : JsNumber) (now : Z) : Cmd unit :=
  if js_gt depth 1%Z then
    seq! exec clearGraphCache ;;
    let! cs <~ get getContacts ;;
    let contactPubkeys := map fst cs in
    if (0 <? length contactPubkeys)%nat then
      let! followsEvents <~ of_option (queryEvents relays [follows_filter contactPubkeys]) ;;
      for_each (cacheFollows now) followsEvents
    else ret tt
  else ret tt.

(** [keyPair] is [None] when no identity is stored: the command exits
    before it touches the store.  [depth] is [options.depth ?? 2].  The
    lines the command prints are not modelled. *)
Definition graphSyncCommand (keyPair : option string) (depth : option JsNumber)
    (relays : Relays) (now : Z) : Cmd unit :=
  match keyPair with
  | None => raise
  | Some self =>
      let depth := default (Num 2%Z) depth in
      seq! syncContacts relays self now ;;
      seq! syncMutes relays self now ;;
      buildGraphCache relays depth now
  end.

(** ** commands/social.ts: graphFilterCommand *)

(** The characters of a line are code units below 256.  [String.trim]
    strips white space and line terminators: TAB, LF, VT, FF, CR, SP and
    NBSP in that range. *)
Definition is_ws (c : ascii) : bool :=
  let n := nat_of_ascii c in
  bool_decide (n = 9 \/ n = 10 \/ n = 11 \/ n = 12 \/ n = 13 \/ n = 32 \/ n = 160)%nat.

Fixpoint trim_start (s : string) : string :=
  match s with
  | EmptyString => EmptyString
  | String c s' => if is_ws c then trim_start s' else s
  end.

Fixpoint trim_end (s : string) : string :=
  match s with
  | EmptyString => EmptyString
  | String c s' =>
      match trim_end s' with
      | EmptyString => if is_ws c then EmptyString else String c EmptyString
      | r => String c r
      end
  end.

Definition trim (s : string) : string := trim_end (trim_start s).

Definition LF : ascii := ascii_of_nat 10.

(** [s.split('\n')]: never the empty list; [''.split('\n')] is [['']]. *)
Fixpoint split_lines (s : string) : list string :=
  match s with
  | EmptyString => [EmptyString]
  | String c s' =>
      if decide (c = LF) then EmptyString :: split_lines s'
      else match split_lines s' with
           | l :: ls => String c l :: ls
           | [] => [String c EmptyString]
           end
  end.

(** [Boolean(line)] on a string. *)
Definition nonempty (s : string) : bool := negb (bool_decide (s = EmptyString)).

(** [input.trim().split('\n').filter(Boolean)] *)
Definition input_lines (input : string) : list string :=
  List.filter nonempty (split_lines (trim input)).

(** What [JSON.parse] returns, and [JUndefined] for a property that is not
    there.  A number is an IEEE 754 double, given by its 64 bits; an object
    lists its own properties, each name once. *)
Inductive JsValue :=
  | JUndefined
  | JNull
  | JBool (b : bool)
  | JNum (bits : N)
  | JStr (s : string)
  | JArr (items : list JsValue)
  | JObj (props : list (string * JsValue)).

Fixpoint obj_get (props : list (string * JsValue)) (name : string) : JsValue :=
  match props with
  | [] => JUndefined
  | (k, v) :: rest => if decide (k = name) then v else obj_get rest name
  end.

(** [event.pubkey]: a [TypeError] ([None]) on [null] and [undefined],
    [undefined] on a primitive or an array, the property on an object. *)
Definition get_pubkey (event : JsValue) : option JsValue :=
  match event with
  | JUndefined | JNull => None
  | JObj props => Some (obj_get props "pubkey")
  | _ => Some JUndefined
  end.

(** The numbers that are falsy: [+0] and [-0] (all bits but the sign are
    0) and [NaN] (exponent all ones, fraction not 0). *)
Definition falsy_number (bits : N) : bool :=
  let m := N.land bits (2 ^ 63 - 1) in
  ((m =? 0) || (2047 * 2 ^ 52 <? m))%N.

(** JavaScript truthiness, as [!authorPubkey] tests it. *)
Definition truthy (v : JsValue) : bool :=
  match v with
  | JUndefined | JNull => false
  | JBool b => b
  | JNum bits => negb (falsy_number bits)
  | JStr s => nonempty s
  | JArr _ | JObj _ => true
  end.

(** The fate of one line: printed on stdout and counted in [passed], or
    counted in [filtered]. *)
Inductive Verdict := Passed | Filtered.

(** The body of the [try] for one line; [JSON_parse] is the built-in parser
    ([None] when it raises).  An exception anywhere in the body is caught
    and the line passes.

    A truthy author that is not a string (a number, [true], an array, an
    object) goes to the store driver as a bind parameter.  The driver is not
    among the sources: whether it raises or binds the value, and what the
    checks then answer, is the parameter [driver_nontext]. *)
Definition filter_line (JSON_parse : string -> option JsValue)
    (driver_nontext : JsValue -> Verdict)
    (db : SocialDb) (myPubkey : string) (maxDistance : JsNumber)
    (line : string) : Verdict :=
  match JSON_parse line with
  | None => Passed
  | Some event =>
      match get_pubkey event with
      | None => Passed
      | Some authorPubkey =>
          if negb (truthy authorPubkey) then Passed
          else
            match authorPubkey with
            | JStr pk =>
                if isMuted db pk then Filtered
                else
                  let validPubkeys :=
                    filterByTrustDistance db [pk] myPubkey maxDistance in
                  if (0 <? length validPubkeys)%nat then Passed else Filtered
            | other => driver_nontext other
            end
      end
  end.

(** What the command leaves behind: the lines printed on stdout, in order,
    and the two counters of the summary printed on stderr. *)
Record FilterRun := mkFilterRun {
  stdout : list string;
  passed : nat;
  filtered : nat
}.

Definition filter_step (judge : string -> Verdict) (r : FilterRun)
    (line : string) : FilterRun :=
  match judge line with
  | Passed => mkFilterRun (stdout r ++ [line]) (S (passed r)) (filtered r)
  | Filtered => mkFilterRun (stdout r) (passed r) (S (filtered r))
  end.

(** [None]: no identity, the command exits before it reads its input.
    [maxDistance] is [options.maxDistance ?? 2]. *)
Definition graphFilterCommand (JSON_parse : string -> option JsValue)
    (driver_nontext : JsValue -> Verdict)
    (keyPair : option string) (maxDistance : option JsNumber)
    (db : SocialDb) (input : string) : option FilterRun :=
  match keyPair with
  | None => None
  | Some self =>
      let maxDistance := default (Num 2%Z) maxDistance in
      let lines := input_lines input in
      Some (foldl (filter_step (filter_line JSON_parse driver_nontext db self maxDistance))
              (mkFilterRun [] 0 0) lines)
  end.

(** ** lib/relays.ts: publishEvent *)

(** How one promise of [pool.publish(relays, event)] settles. *)
Inductive Settled := Fulfilled | Rejected.

(** [settled.forEach((result, i) => ...)] from index [i] on: a fulfilled
    entry pushes [relays[i]], which is [undefined] ([None]) past the end. *)
Fixpoint collect_fulfilled (relays : list string) (i : nat)
    (settled : list Settled) : list (option string) :=
  match settled with
  | [] => []
  | Fulfilled :: rest => relays !! i :: collect_fulfilled relays (S i) rest
  | Rejected :: rest => collect_fulfilled relays (S i) rest
  end.

(** [pool_publish] is the relay pool of the nostr library: the way each of
    the promises it returns settles.  [relays] defaults to
    [DEFAULT_RELAYS]. *)
Definition publishEvent (DEFAULT_RELAYS : list string)
    (pool_publish : list string -> Event -> list Settled)
    (event : Event) (relays : option (list string)) : list (option string) :=
  let relays := default DEFAULT_RELAYS relays in
  let settled := pool_publish relays event in
  collect_fulfilled relays 0 settled.

(** ** lib/nip19.ts: what the commands use of it *)

(** The result of [nip19.decode] of the nostr library, by type, with the
    data the helpers read. *)
Inductive DecodeResult :=
  | D_npub (data : string)
  | D_nsec
  | D_note (data : string)
  | D_nevent (id : string)
  | D_nprofile (pubkey : string)
  | D_naddr.

(** [nip19_decode] below is the library's decoder, an argument: [None] when
    it throws. *)
Definition isNip19 (nip19_decode : string -> option DecodeResult) (value : string) : bool :=
  match nip19_decode value with
  | Some _ => true
  | None => false
  end.

(** [None] is a thrown error: the decoder's, or "Cannot extract pubkey". *)
Definition extractPubkey (nip19_decode : string -> option DecodeResult)
    (value : string) : option string :=
  match nip19_decode value with
  | Some (D_npub data) => Some data
  | Some (D_nprofile pubkey) => Some pubkey
  | _ => None
  end.

Definition extractEventId (nip19_decode : string -> option DecodeResult)
    (value : string) : option string :=
  match nip19_decode value with
  | Some (D_note data) => Some data
  | Some (D_nevent id) => Some id
  | _ => None
  end.

(** ** commands/social.ts: follow, unfollow, mute, unmute *)

(** A character of the class [[0-9a-f]] under the [i] flag. *)
Definition is_hex_digit (c : ascii) : bool :=
  let n := nat_of_ascii c in
  ((48 <=? n) && (n <=? 57) || (97 <=? n) && (n <=? 102) || (65 <=? n) && (n <=? 70))%nat.

Fixpoint all_chars (f : ascii -> bool) (s : string) : bool :=
  match s with
  | EmptyString => true
  | String c s' => f c && all_chars f s'
  end.

(** [/^[0-9a-f]{64}$/i.test(ref)] *)
Definition is_hex64 (ref : string) : bool :=
  (String.length ref =? 64)%nat && all_chars is_hex_digit ref.

(** [toLowerCase] on a code unit below 256: the letters A-Z and the
    Latin-1 capitals (all of 192-222 but the multiplication sign). *)
Definition lower_char (c : ascii) : ascii :=
  let n := nat_of_ascii c in
  if ((65 <=? n) && (n <=? 90) || (192 <=? n) && (n <=? 222) && negb (n =? 215))%nat
  then ascii_of_nat (n + 32) else c.

Fixpoint toLowerCase (s : string) : string :=
  match s with
  | EmptyString => EmptyString
  | String c s' => String (lower_char c) (toLowerCase s')
  end.

(** [None] is the thrown "Invalid pubkey format", or what [extractPubkey]
    throws. *)
Definition resolvePubkey (nip19_decode : string -> option DecodeResult)
    (ref : string) : option string :=
  if isNip19 nip19_decode ref then extractPubkey nip19_decode ref
  else if is_hex64 ref then Some (toLowerCase ref)
  else None.

(** The tag a listed contact becomes in the published list:
    [['p', c.pubkey]], then [c.relay] if truthy, then [c.petname] if
    truthy.  [c.pubkey] is [null] ([None]) for a row with a [NULL] key. *)
Definition contact_tag (c : option string * ContactRow) : list (option string) :=
  [Some "p"; c.1]
  ++ match or_null (relay c.2) with Some r => [Some r] | None => [] end
  ++ match or_null (petname c.2) with Some n => [Some n] | None => [] end.

Definition mute_tag (m : option string * Z) : list (option string) :=
  [Some "p"; m.1].

(** What a command hands to [createSignedEvent(kind, '', tags)]. *)
Record SignRequest := mkSignRequest {
  sr_kind : Z;
  sr_tags : list (list (option string))
}.

(** How a command ends: [process.exit(1)] at one of its guards, or its
    normal end, with the list it handed to the signer when it published.
    Signing and sending sit in a [try] whose [catch] only prints a warning;
    the lines printed are not modelled. *)
Inductive CommandEnd :=
  | Exit1
  | Finished (signed : option SignRequest).

(** [options.publish !== false] *)
Definition publish_wanted (publish : option bool) : bool :=
  match publish with
  | Some false => false
  | _ => true
  end.

Definition contact_list_request (db : SocialDb) : SignRequest :=
  mkSignRequest 3 (map contact_tag (getContacts db)).

Definition mute_list_request (db : SocialDb) : SignRequest :=
  mkSignRequest 10000 (map mute_tag (getMutes db)).

Definition followCommand (nip19_decode : string -> option DecodeResult)
    (keyPair : option string) (pubkeyRef : string)
    (relay petname : option string) (publish : option bool)
    (now : Z) (db : SocialDb) : CommandEnd * SocialDb :=
  if decide (pubkeyRef = EmptyString) then (Exit1, db)
  else match keyPair with
  | None => (Exit1, db)
  | Some publicKey =>
      match resolvePubkey nip19_decode pubkeyRef with
      | None => (Exit1, db)
      | Some targetPubkey =>
          if decide (targetPubkey = publicKey) then (Exit1, db)
          else
            let db := addContact db targetPubkey relay petname now in
            if publish_wanted publish
            then (Finished (Some (contact_list_request db)), db)
            else (Finished None, db)
      end
  end.

Definition unfollowCommand (nip19_decode : string -> option DecodeResult)
    (keyPair : option string) (pubkeyRef : string) (publish : option bool)
    (db : SocialDb) : CommandEnd * SocialDb :=
  if decide (pubkeyRef = EmptyString) then (Exit1, db)
  else match keyPair with
  | None => (Exit1, db)
  | Some publicKey =>
      match resolvePubkey nip19_decode pubkeyRef with
      | None => (Exit1, db)
      | Some targetPubkey =>
          let '(removed, db) := removeContact db targetPubkey in
          if negb removed then (Finished None, db)
          else if publish_wanted publish
          then (Finished (Some (contact_list_request db)), db)
          else (Finished None, db)
      end
  end.

Definition muteCommand (nip19_decode : string -> option DecodeResult)
    (keyPair : option string) (pubkeyRef : string) (publish : option bool)
    (now : Z) (db : SocialDb) : CommandEnd * SocialDb :=
  if decide (pubkeyRef = EmptyString) then (Exit1, db)
  else match keyPair with
  | None => (Exit1, db)
  | Some publicKey =>
      match resolvePubkey nip19_decode pubkeyRef with
      | None => (Exit1, db)
      | Some targetPubkey =>
          let db := addMute db targetPubkey now in
          if publish_wanted publish
          then (Finished (Some (mute_list_request db)), db)
          else (Finished None, db)
      end
  end.

Definition unmuteCommand (nip19_decode : string -> option DecodeResult)
    (keyPair : option string) (pubkeyRef : string) (publish : option bool)
    (db : SocialDb) : CommandEnd * SocialDb :=
  if decide (pubkeyRef = EmptyString) then (Exit1, db)
  else match keyPair with
  | None => (Exit1, db)
  | Some publicKey =>
      match resolvePubkey nip19_decode pubkeyRef with
      | None => (Exit1, db)
      | Some targetPubkey =>
          let '(removed, db) := removeMute db targetPubkey in
          if negb removed then (Finished None, db)
          else if publish_wanted publish
          then (Finished (Some (mute_list_request db)), db)
          else (Finished None, db)
      end
  end.

(** * Definitions used to state the properties *)

(** ** Tables *)

(** The keys of a table that are not [NULL], in the order of the rows. *)
Definition keys {R} (t : Table R) : list string := omap fst t.

(** The rows of a table whose key is [NULL]. *)
Definition null_rows {R} (t : Table R) : Table R :=
  filter (fun row => row.1 = None) t.

(** The constraint that [PRIMARY KEY] puts on a table: no two rows have
    the same key, [NULL] keys apart. *)
Definition unique_keys {R} (t : Table R) : Prop := NoDup (keys t).

(** The row with the given key: the first one of the scan. *)
Fixpoint row_with_key {R} (pk : string) (t : Table R) : option R :=
  match t with
  | [] => None
  | row :: t' => if key_is pk row then Some row.2 else row_with_key pk t'
  end.

(** The relation has a row with this pubkey. *)
Definition is_contact (db : SocialDb) (pk : string) : Prop :=
  Some pk ∈ (contacts db).*1.

Definition is_muted (db : SocialDb) (pk : string) : Prop :=
  Some pk ∈ (mutes db).*1.

(** The order of a listing: the stamps do not grow. *)
Definition added_desc (a b : option string * ContactRow) : Prop :=
  (added_at b.2 <= added_at a.2)%Z.

Definition mute_added_desc (a b : option string * Z) : Prop := (b.2 <= a.2)%Z.

(** ** The resolver and the filter, in the words of the specification *)

(** A cached edge into [target] whose source is currently a Contact, with
    its distance. *)
Definition contact_edge (db : SocialDb) (target : string) (d : Z) : Prop :=
  exists source row,
    is_contact db source /\
    graph_cache db !! (source, target) = Some row /\
    distance row = d.

(** [m] is [min(edge.distance)] over those edges. *)
Definition min_contact_edge (db : SocialDb) (target : string) (m : Z) : Prop :=
  contact_edge db target m /\
  forall d, contact_edge db target d -> (m <= d)%Z.

(** The four cases of the resolver, first match winning.  The third is
    [min(edge.distance) + 1] as JavaScript reads it. *)
Inductive distance_spec (db : SocialDb) (target self : string) : option Z -> Prop :=
  | dist_self :
      target = self ->
      distance_spec db target self (Some 0%Z)
  | dist_contact :
      target <> self ->
      is_contact db target ->
      distance_spec db target self (Some 1%Z)
  | dist_cached m :
      target <> self ->
      ~ is_contact db target ->
      min_contact_edge db target m ->
      distance_spec db target self (Some (as_double (m + 1)))
  | dist_unknown :
      target <> self ->
      ~ is_contact db target ->
      (forall d, ~ contact_edge db target d) ->
      distance_spec db target self None.

(** [distance <= maxDistance] on a resolved distance. *)
Definition within (maxDistance : JsNumber) (d : option Z) : Prop :=
  match d, maxDistance with
  | Some d, Num m => (d <= m)%Z
  | _, _ => False
  end.

(** An author the Trust Filter keeps: not muted, distance known and at most
    [maxDistance]. *)
Definition trusted (db : SocialDb) (self : string) (maxDistance : JsNumber)
    (author : string) : Prop :=
  ~ is_muted db author /\
  within maxDistance (getTrustDistance db author self).

Global Instance within_dec m d : Decision (within m d).
Proof. destruct d, m; simpl; apply _. Defined.

Global Instance trusted_dec db self m a : Decision (trusted db self m a).
Proof. unfold trusted, is_muted. apply _. Defined.

(** ** Bulk upsert *)

(** The row an input element is stored as. *)
Definition row_of (now : Z) (c : ContactInput) : ContactRow :=
  mkContactRow (or_null (ci_relay c)) (or_null (ci_petname c)) now.

(** The last element of the input with the given pubkey. *)
Definition last_with_key (pk : string) (cs : list ContactInput) : option ContactInput :=
  last (filter (fun c => ci_pubkey c = Some pk) cs).

(** ** Commands *)

(** [inv_cmd I c Q]: started in a store satisfying [I], the command [c]
    leaves a store satisfying [I], whether it returns or raises, and a
    returned value satisfies [Q]. *)
Definition inv_cmd {A} (I : SocialDb -> Prop) (c : Cmd A) (Q : A -> Prop) : Prop :=
  forall db, I db -> I (c db).2 /\ forall a, (c db).1 = Some a -> Q a.

(** No cached edge leads from a pubkey to itself. *)
Definition no_self_loop (db : SocialDb) : Prop :=
  forall s t row, graph_cache db !! (s, t) = Some row -> s <> t.

(** The reference tags of a record: its tags whose first element is
    ['p']. *)
Definition reference_tags (ev : Event) : list (list string) :=
  filter (fun t => t !! 0%nat = Some "p") (ev_tags ev).

(** The pubkeys a record references: the values of its reference tags. *)
Definition references (ev : Event) (pk : string) : Prop :=
  exists t, t ∈ ev_tags ev /\ t !! 0%nat = Some "p" /\ t !! 1%nat = Some pk.

(** The Contact row that a reference tag [['p', pubkey, relay?, petname?]]
    is stored as. *)
Definition row_of_tag (now : Z) (t : list string) : ContactRow :=
  mkContactRow (or_null (t !! 2%nat)) (or_null (t !! 3%nat)) now.

(** The last reference tag of a record for the given pubkey. *)
Definition last_reference (ev : Event) (pk : string) : option (list string) :=
  last (filter (fun t => t !! 1%nat = Some pk) (reference_tags ev)).

(** The reference tags of a record that have no value. *)
Definition valueless_references (ev : Event) : list (list string) :=
  filter (fun t => t !! 1%nat = None) (reference_tags ev).

(** ** The stream filter *)

Global Instance Verdict_eq_dec : EqDecision Verdict.
Proof. solve_decision. Defined.

Global Instance JsValue_is_string_dec (v : JsValue) : Decision (exists pk, v = JStr pk).
Proof.
  destruct v; first [by left; eexists | right; intros [? ?]; discriminate].
Defined.





(** [lines.join('\n')], the inverse of [split_lines]. *)
Fixpoint join_lines (ls : list string) : string :=
  match ls with
  | [] => EmptyString
  | [l] => l
  | l :: ls' => l +:+ String LF (join_lines ls')
  end.





(** ** The publish fan-out *)

Global Instance Settled_eq_dec : EqDecision Settled.
Proof. solve_decision. Defined.

(** The endpoints whose send was acknowledged, in input order. *)
Definition acknowledged (relays : list string) (settled : list Settled) : list string :=
  (filter (fun p => p.2 = Fulfilled) (zip relays settled)).*1.

(** ** The sync command and the cache *)

(** Every cached edge has distance 1, the distance the sync writes. *)
Definition unit_edges (db : SocialDb) : Prop :=
  forall k row, graph_cache db !! k = Some row -> distance row = 1%Z.

(** The targets of the cached edges. *)
Definition cached_targets (db : SocialDb) : gset string :=
  list_to_set (map (fun row => row.1.2) (map_to_list (graph_cache db))).

(** Every cached edge has distance 1 and comes from a record the relays
    returned to a query for follow lists: its source is the author of the
    record, its target a pubkey the record references. *)
Definition cached_from (relays : Relays) (db : SocialDb) : Prop :=
  forall s t row, graph_cache db !! (s, t) = Some row ->
    distance row = 1%Z /\
    exists contactPubkeys evs ev,
      relays (follows_filter contactPubkeys) = Some evs /\
      ev ∈ evs /\ ev_pubkey ev = s /\ references ev t.

(** ** Publishing and reading back *)

(** A digit of lower-case hexadecimal. *)
Definition is_lower_hex (c : ascii) : bool :=
  let n := nat_of_ascii c in
  ((48 <=? n) && (n <=? 57) || (97 <=? n) && (n <=? 102))%nat.

(** What a Contact row reads back as, once published as a tag and synced:
    the tag has no empty slot, so a petname without a relay lands in the
    relay position. *)
Definition read_back (row : ContactRow) (now : Z) : ContactRow :=
  match or_null (relay row) with
  | Some r => mkContactRow (Some r) (or_null (petname row)) now
  | None => mkContactRow (or_null (petname row)) None now
  end.

(** The tag of a Contact with a pubkey, as the strings a relay hands
    back. *)
Definition published_tag (pk : string) (row : ContactRow) : list string :=
  ["p"; pk]
  ++ match or_null (relay row) with Some r => [r] | None => [] end
  ++ match or_null (petname row) with Some n => [n] | None => [] end.

(** A list of tags handed to the signer, as the record a relay returns for
    it carries them: strings throughout. *)
Definition as_signed (tags : list (list string)) : list (list (option string)) :=
  map (map Some) tags.

(** What stops the four commands before they touch the store. *)
Definition refused (nip19_decode : string -> option DecodeResult)
    (keyPair : option string) (pubkeyRef : string) : Prop :=
  pubkeyRef = EmptyString \/ keyPair = None \/
  resolvePubkey nip19_decode pubkeyRef = None.

(** ** Sample data *)

(** The fixture graph of the specification: [M] follows [A] and [B]; [A]
    follows [C] and [D], [B] follows [D] and [E], both cached at distance 1;
    [Spammer] is muted. *)
Definition fixture : SocialDb :=
  let db := addContact emptyDb "A" None None 1 in
  let db := addContact db "B" (Some "wss://b") (Some EmptyString) 2 in
  let db := updateGraphCache db "A" ["C"; "D"] 1 3 in
  let db := updateGraphCache db "B" ["D"; "E"] 1 3 in
  addMute db "Spammer" 4.

Definition everyone : list string :=
  ["M"; "A"; "B"; "C"; "D"; "E"; "Stranger"; "Spammer"].

(** A store after a sync: the three Contacts carry the same stamp. *)
Definition synced : SocialDb :=
  bulkInsertContacts emptyDb
    [mkContactInput (Some "Zoe") None None;
     mkContactInput (Some "Adam") (Some "wss://a") None;
     mkContactInput (Some "Mia") None (Some "mia")] 5.

(** A store with a cached edge at distance [2^53]. *)
Definition far_edge : SocialDb :=
  updateGraphCache (addContact emptyDb "C" None None 0) "C" ["T"] (2 ^ 53) 0.

(** Relay answers.  The query with a limit and kind 3 is the one for the
    agent's own contact list, the other query with a limit the one for its
    mute list, the query without a limit the one for the follow lists of
    the contacts. *)

(** [A], the one contact, lists itself among the pubkeys it follows. *)
Definition self_follow_relays : Relays :=
  fun f =>
    match limit f, kinds f with
    | Some _, [3%Z] => Some [mkEvent "me" 3 [["p"; "A"]]]
    | Some _, _ => Some []
    | None, _ => Some [mkEvent "A" 3 [["p"; "A"]; ["p"; "X"]]]
    end.

(** [A], the one contact, follows [X] and [Y]. *)
Definition plain_relays : Relays :=
  fun f =>
    match limit f, kinds f with
    | Some _, [3%Z] => Some [mkEvent "me" 3 [["p"; "A"]]]
    | Some _, _ => Some []
    | None, _ => Some [mkEvent "A" 3 [["p"; "X"]; ["e"; "A"]; ["p"; "Y"]]]
    end.

(** The sync scenario of the specification: a first sync with a record
    referencing [A] and [B], a second with a record referencing only [A].
    The records carry other tags too, and the first names [A] twice. *)
Definition record_AB : Event :=
  mkEvent "me" 3 [["p"; "A"; "wss://old"]; ["e"; "X"]; ["p"; "B"];
                  ["p"; "A"; "wss://a"; EmptyString]; ["t"; "B"]].

Definition record_A : Event :=
  mkEvent "me" 3 [["e"; "B"]; ["p"; "A"]; ["client"]].

(** A contact list with a reference tag that has no value. *)
Definition record_A_valueless : Event :=
  mkEvent "me" 3 [["p"; "A"]; ["p"]].

Definition relays_with (contactList : Event) : Relays :=
  fun f =>
    match limit f, kinds f with
    | Some _, [3%Z] => Some [contactList]
    | _, _ => Some []
    end.

(** A mute list naming [Troll] twice, with a tag that is no reference and
    a reference without a value; the contact list names [A]. *)
Definition record_mutes : Event :=
  mkEvent "M" 10000 [["p"; "Troll"]; ["e"; "x"]; ["p"]; ["p"; "Troll"]].

Definition mute_relays : Relays :=
  fun f =>
    match limit f, kinds f with
    | Some _, [3%Z] => Some [mkEvent "M" 3 [["p"; "A"]]]
    | Some _, _ => Some [record_mutes]
    | None, _ => Some []
    end.

(** A pool on which the endpoint [wss://b] fails. *)
Definition flaky_pool (relays : list string) (_ : Event) : list Settled :=
  map (fun r => if decide (r = "wss://b") then Rejected else Fulfilled) relays.

Definition nl : string := String LF EmptyString.

(** A stand-in for [JSON.parse], enough for the sample input: [@pk] reads
    as a record whose author is [pk], [#] as a record whose author is the
    number 7. *)
Definition toy_parse (line : string) : option JsValue :=
  if decide (line = "null") then Some JNull
  else if decide (line = "{}") then Some (JObj [])
  else if decide (line = "7") then Some (JNum 4619567317775286272)
  else if decide (line = "#") then Some (JObj [("pubkey", JNum 4619567317775286272)])
  else match line with
       | String "@" pk => Some (JObj [("id", JStr "x"); ("pubkey", JStr pk)])
       | _ => None
       end.

(** A driver that refuses every value that is not a string: the bind
    raises, and the line passes. *)
Definition refusing_driver (_ : JsValue) : Verdict := Passed.

Definition toy_input : string :=
  " " +:+ nl +:+ "@A" +:+ nl +:+ nl +:+ "oops" +:+ nl +:+ "@Spammer" +:+ nl +:+
  "null" +:+ nl +:+ "@Stranger" +:+ nl +:+ "{}" +:+ nl +:+ "@" +:+ nl +:+ "@E" +:+ nl +:+ nl.


(** A decoder that knows one npub and one note. *)
Definition toy_decode (value : string) : option DecodeResult :=
  if decide (value = "npub1alice") then Some (D_npub "A")
  else if decide (value = "note1x") then Some (D_note "x")
  else None.

Definition hex_B : string :=
  "BBBBBBBBBBBBBBBBBBBBBBBBBBBBBBBBbbbbbbbbbbbbbbbbbbbbbbbbbbbbbbbb".

Definition hex_b : string :=
  "bbbbbbbbbbbbbbbbbbbbbbbbbbbbbbbbbbbbbbbbbbbbbbbbbbbbbbbbbbbbbbbb".

(** * Properties *)

(** ** Lemmas on tables *)

Lemma filter_bool_decide {A} (P : A -> Prop) `{!forall x, Decision (P x)}
    (f : A -> bool) (l : list A) :
  (forall x, f x = true <-> P x) ->
  List.filter f l = filter P l.
Proof.
  intros Hf. induction l as [|x l IH]; [done|].
  simpl. rewrite filter_cons, IH.
  destruct (decide (P x)) as [HP|HP].
  - apply Hf in HP. by rewrite HP.
  - destruct (f x) eqn:E; [|done]. apply Hf in E. done.
Qed.

Lemma filter_Forall_id {A} (P : A -> Prop) `{!forall x, Decision (P x)} (l : list A) :
  Forall P l -> filter P l = l.
Proof.
  induction 1 as [|x l Hx Hl IH]; [done|].
  by rewrite filter_cons_True, IH.
Qed.

Lemma filter_none {A} (P : A -> Prop) `{!forall x, Decision (P x)} (l : list A) :
  Forall (fun x => ~ P x) l -> filter P l = [].
Proof.
  induction 1 as [|x l Hx Hl IH]; [done|].
  by rewrite filter_cons_False.
Qed.

Section tables.
Context {R : Type}.
Implicit Types (t : Table R) (pk : string) (k : option string) (r : R)
  (row : option string * R).

Lemma key_is_true pk row : key_is pk row = true <-> row.1 = Some pk.
Proof. apply bool_decide_eq_true. Qed.

Lemma key_is_false pk row : key_is pk row = false <-> row.1 <> Some pk.
Proof. apply bool_decide_eq_false. Qed.

Lemma delete_key_filter pk t :
  delete_key pk t = filter (fun row => row.1 <> Some pk) t.
Proof.
  apply filter_bool_decide. intros row.
  by rewrite negb_true_iff, key_is_false.
Qed.

Lemma has_key_elem pk t : has_key pk t = true <-> Some pk ∈ t.*1.
Proof.
  unfold has_key. rewrite existsb_exists, list_elem_of_fmap. split.
  - intros (row & Hin & Hk). apply key_is_true in Hk.
    exists row. split; [done|]. by apply list_elem_of_In.
  - intros (row & Hk & Hin). exists row. split; [by apply list_elem_of_In|].
    by apply key_is_true.
Qed.

Lemma has_key_false pk t : has_key pk t = false <-> Some pk ∉ t.*1.
Proof.
  rewrite <- has_key_elem. destruct (has_key pk t); split; done.
Qed.

Lemma has_key_keys pk t : has_key pk t = true <-> pk ∈ keys t.
Proof.
  rewrite has_key_elem. unfold keys.
  rewrite list_elem_of_fmap, list_elem_of_omap. split.
  - intros (row & Hk & Hin). exists row. by rewrite <- Hk.
  - intros (row & Hin & Hk). exists row. by rewrite Hk.
Qed.

Lemma row_with_key_elem pk t r :
  row_with_key pk t = Some r -> (Some pk, r) ∈ t.
Proof.
  induction t as [|[k r'] t IH]; simpl; [done|].
  destruct (key_is pk (k, r')) eqn:E.
  - apply key_is_true in E. simpl in E. subst k. intros [= ->]. left.
  - intros H. right. by apply IH.
Qed.

Lemma row_with_key_is_Some pk t :
  is_Some (row_with_key pk t) <-> has_key pk t = true.
Proof.
  unfold has_key. induction t as [|row t IH]; simpl.
  - split; [by intros [? ?]|done].
  - destruct (key_is pk row); simpl; [|done]. split; eauto.
Qed.

Lemma row_with_key_None pk t :
  row_with_key pk t = None <-> has_key pk t = false.
Proof.
  rewrite eq_None_not_Some, row_with_key_is_Some. by destruct (has_key pk t).
Qed.

Lemma row_with_key_app pk t1 t2 :
  row_with_key pk (t1 ++ t2)%list =
  match row_with_key pk t1 with
  | Some r => Some r
  | None => row_with_key pk t2
  end.
Proof.
  induction t1 as [|row t1 IH]; simpl; [done|].
  by destruct (key_is pk row).
Qed.

Lemma row_with_key_delete pk pk' t :
  row_with_key pk' (delete_key pk t) =
  if decide (pk' = pk) then None else row_with_key pk' t.
Proof.
  unfold delete_key. induction t as [|row t IH]; simpl.
  - by destruct (decide (pk' = pk)).
  - destruct (key_is pk row) eqn:E; simpl.
    + rewrite IH. destruct (decide (pk' = pk)) as [->|Hne]; [done|].
      apply key_is_true in E.
      rewrite (proj2 (key_is_false pk' row)); [done|]. congruence.
    + rewrite IH. destruct (decide (pk' = pk)) as [->|Hne].
      * by rewrite E.
      * done.
Qed.

Lemma delete_key_id pk t : has_key pk t = false -> delete_key pk t = t.
Proof.
  unfold has_key, delete_key. induction t as [|row t IH]; simpl; [done|].
  intros [Hrow Ht]%orb_false_elim. rewrite Hrow. simpl. by rewrite IH.
Qed.

Lemma delete_key_app pk t1 t2 :
  delete_key pk (t1 ++ t2)%list = (delete_key pk t1 ++ delete_key pk t2)%list.
Proof. unfold delete_key. apply List.filter_app. Qed.

Lemma delete_key_idemp pk t : delete_key pk (delete_key pk t) = delete_key pk t.
Proof.
  apply delete_key_id, has_key_false. rewrite delete_key_filter.
  intros (row & Hk & Hin)%list_elem_of_fmap.
  apply list_elem_of_filter in Hin as [Hne _]. done.
Qed.

Lemma has_key_delete pk pk' t :
  has_key pk' (delete_key pk t) = negb (bool_decide (pk' = pk)) && has_key pk' t.
Proof.
  destruct (has_key pk' (delete_key pk t)) eqn:E.
  - apply row_with_key_is_Some in E. rewrite row_with_key_delete in E.
    destruct (decide (pk' = pk)) as [->|Hne]; [by destruct E|].
    rewrite bool_decide_eq_false_2 by done. simpl.
    symmetry. by apply row_with_key_is_Some.
  - apply row_with_key_None in E. rewrite row_with_key_delete in E.
    destruct (decide (pk' = pk)) as [->|Hne].
    + by rewrite bool_decide_eq_true_2.
    + rewrite bool_decide_eq_false_2 by done. simpl.
      symmetry. by apply row_with_key_None.
Qed.

Lemma elem_of_delete_key pk t row :
  row ∈ delete_key pk t <-> row ∈ t /\ row.1 <> Some pk.
Proof. rewrite delete_key_filter, list_elem_of_filter. tauto. Qed.

Lemma keys_nil : keys ([] : Table R) = [].
Proof. done. Qed.

Lemma null_rows_nil : null_rows ([] : Table R) = [].
Proof. done. Qed.

Lemma keys_cons row t :
  keys (row :: t) = match row.1 with Some pk => pk :: keys t | None => keys t end.
Proof. unfold keys. simpl. by destruct row.1. Qed.

Lemma keys_app t1 t2 : keys (t1 ++ t2)%list = (keys t1 ++ keys t2)%list.
Proof. unfold keys. apply omap_app. Qed.

Lemma keys_delete pk t : keys (delete_key pk t) = filter (fun x => x <> pk) (keys t).
Proof.
  induction t as [|[k r] t IH]; [done|].
  rewrite (keys_cons (k, r) t). unfold delete_key in *. cbn [List.filter fst].
  destruct (key_is pk (k, r)) eqn:E; cbn [negb].
  - apply key_is_true in E. cbn in E. subst k.
    rewrite filter_cons, decide_False by (by intros ?). exact IH.
  - apply key_is_false in E. cbn in E. rewrite (keys_cons (k, r)). cbn [fst].
    destruct k as [x|]; [|exact IH].
    rewrite filter_cons, decide_True by congruence. by rewrite IH.
Qed.

Lemma null_rows_delete pk t : null_rows (delete_key pk t) = null_rows t.
Proof.
  unfold null_rows. rewrite delete_key_filter.
  induction t as [|[k r] t IH]; [done|].
  destruct k as [x|].
  - rewrite (filter_cons_False (fun row => row.1 = None) (Some x, r)) by done.
    destruct (decide (x = pk)) as [->|Hne].
    + by rewrite (filter_cons_False (fun row => row.1 <> Some pk) (Some pk, r))
        by (intros H; by apply H).
    + rewrite (filter_cons_True (fun row => row.1 <> Some pk) (Some x, r))
        by (simpl; congruence).
      by rewrite (filter_cons_False (fun row => row.1 = None) (Some x, r)) by done.
  - rewrite (filter_cons_True (fun row => row.1 <> Some pk) (None, r)) by done.
    rewrite !(filter_cons_True (fun row => row.1 = None) (None, r)) by done.
    by rewrite IH.
Qed.

Lemma length_keys_null_rows t :
  length t = (length (keys t) + length (null_rows t))%nat.
Proof.
  unfold null_rows. induction t as [|[k r] t IH]; [done|].
  rewrite (keys_cons (k, r) t). cbn [fst length]. destruct k as [x|].
  - rewrite (filter_cons_False (fun row => row.1 = None) (Some x, r)) by done.
    cbn [length]. lia.
  - rewrite (filter_cons_True (fun row => row.1 = None) (None, r)) by done.
    cbn [length]. lia.
Qed.

Lemma unique_keys_delete pk t : unique_keys t -> unique_keys (delete_key pk t).
Proof. unfold unique_keys. rewrite keys_delete. apply NoDup_filter. Qed.

Lemma length_delete_key pk t :
  unique_keys t ->
  length (delete_key pk t) = if has_key pk t then pred (length t) else length t.
Proof.
  unfold unique_keys. induction t as [|[k r] t IH]; [done|].
  rewrite keys_cons. simpl. intros Hnd.
  destruct (key_is pk (k, r)) eqn:E; simpl.
  - apply key_is_true in E. simpl in E. subst k.
    apply NoDup_cons in Hnd as [Hnin _].
    rewrite <- has_key_keys in Hnin.
    fold (delete_key pk t). rewrite delete_key_id; [done|].
    by destruct (has_key pk t).
  - fold (delete_key pk t). fold (has_key pk t).
    assert (Hnd' : NoDup (keys t)).
    { destruct k; [by apply NoDup_cons in Hnd as [_ ?]|done]. }
    rewrite (IH Hnd'). destruct (has_key pk t) eqn:Eh; [|done].
    destruct t; [done|]. done.
Qed.

(** *** [INSERT OR REPLACE] *)

Lemma row_with_key_insert k r t pk :
  row_with_key pk (insert_or_replace k r t) =
  if decide (k = Some pk) then Some r else row_with_key pk t.
Proof.
  unfold insert_or_replace. destruct k as [x|].
  - rewrite row_with_key_app, row_with_key_delete. simpl.
    destruct (decide (pk = x)) as [->|Hne].
    + rewrite decide_True by done. unfold key_is. simpl.
      by rewrite bool_decide_eq_true_2.
    + rewrite decide_False by congruence.
      destruct (row_with_key pk t); [done|].
      unfold key_is. simpl. rewrite bool_decide_eq_false_2; [done|congruence].
  - rewrite row_with_key_app. rewrite decide_False by done.
    by destruct (row_with_key pk t).
Qed.

Lemma has_key_insert k r t pk :
  has_key pk (insert_or_replace k r t) = bool_decide (k = Some pk) || has_key pk t.
Proof.
  destruct (has_key pk (insert_or_replace k r t)) eqn:E.
  - apply row_with_key_is_Some in E. rewrite row_with_key_insert in E.
    destruct (decide (k = Some pk)).
    + by rewrite bool_decide_eq_true_2.
    + rewrite bool_decide_eq_false_2 by done. simpl.
      symmetry. by apply row_with_key_is_Some.
  - apply row_with_key_None in E. rewrite row_with_key_insert in E.
    destruct (decide (k = Some pk)); [done|].
    rewrite bool_decide_eq_false_2 by done. simpl.
    symmetry. by apply row_with_key_None.
Qed.

Lemma elem_of_insert k r t row :
  row ∈ insert_or_replace k r t <->
  row = (k, r) \/ (row ∈ t /\ (row.1 = k -> k = None)).
Proof.
  unfold insert_or_replace. destruct k as [x|].
  - rewrite elem_of_app, elem_of_delete_key, list_elem_of_singleton. split.
    + intros [[Hin Hne]|Heq]; [right|by left]. split; [done|].
      intros Hk. by destruct Hne.
    + intros [Heq|[Hin Hne]]; [by right|left]. split; [done|].
      intros Hk. specialize (Hne Hk). discriminate.
  - rewrite elem_of_app, list_elem_of_singleton. split.
    + intros [Hin|Heq]; [right|by left]. done.
    + intros [Heq|[Hin _]]; [by right|by left].
Qed.

Lemma keys_insert k r t :
  keys (insert_or_replace k r t) =
  match k with
  | Some pk => (filter (fun x => x <> pk) (keys t) ++ [pk])%list
  | None => keys t
  end.
Proof.
  unfold insert_or_replace. destruct k as [x|]; rewrite keys_app.
  - by rewrite keys_delete.
  - apply app_nil_r.
Qed.

Lemma keys_insert_set k r t :
  (list_to_set (keys (insert_or_replace k r t)) : gset string) =
  list_to_set (keys t) ∪ list_to_set (option_list k).
Proof.
  rewrite keys_insert. destruct k as [x|]; simpl; [|set_solver].
  apply set_eq. intros y.
  rewrite elem_of_list_to_set, elem_of_app, list_elem_of_filter,
    list_elem_of_singleton.
  rewrite !elem_of_union, elem_of_list_to_set, elem_of_singleton, elem_of_empty.
  destruct (decide (y = x)); naive_solver.
Qed.

Lemma unique_keys_insert k r t :
  unique_keys t -> unique_keys (insert_or_replace k r t).
Proof.
  unfold unique_keys. rewrite keys_insert. destruct k as [x|]; [|done].
  intros Hnd. apply NoDup_app. split_and!.
  - by apply NoDup_filter.
  - intros y [Hy _]%list_elem_of_filter ->%list_elem_of_singleton. done.
  - apply NoDup_singleton.
Qed.

Lemma null_rows_insert k r t :
  null_rows (insert_or_replace k r t) =
  (null_rows t ++ match k with None => [(None, r)] | Some _ => [] end)%list.
Proof.
  unfold insert_or_replace. destruct k as [x|].
  - unfold null_rows at 1. rewrite filter_app. fold (null_rows (delete_key x t)).
    rewrite null_rows_delete. rewrite filter_cons, decide_False by done. done.
  - unfold null_rows. rewrite filter_app. by rewrite filter_cons, decide_True.
Qed.

Lemma length_insert k r t :
  unique_keys t ->
  length (insert_or_replace k r t) =
  match k with
  | Some pk => if has_key pk t then length t else S (length t)
  | None => S (length t)
  end.
Proof.
  intros Hu. unfold insert_or_replace. destruct k as [x|];
    rewrite length_app; simpl; [|lia].
  rewrite length_delete_key by done.
  destruct (has_key x t) eqn:E; [|lia].
  destruct t; [done|]. simpl. lia.
Qed.

Lemma insert_insert pk r1 r2 t :
  insert_or_replace (Some pk) r2 (insert_or_replace (Some pk) r1 t)
  = insert_or_replace (Some pk) r2 t.
Proof.
  unfold insert_or_replace. rewrite delete_key_app, delete_key_idemp.
  unfold delete_key at 2. simpl. unfold key_is. simpl.
  rewrite bool_decide_eq_true_2 by done. simpl. by rewrite app_nil_r.
Qed.

Lemma delete_insert pk r t :
  has_key pk t = false -> delete_key pk (insert_or_replace (Some pk) r t) = t.
Proof.
  intros Hno. unfold insert_or_replace.
  rewrite delete_key_app, delete_key_idemp, (delete_key_id _ _ Hno).
  unfold delete_key. simpl. unfold key_is. simpl.
  rewrite bool_decide_eq_true_2 by done. simpl. apply app_nil_r.
Qed.

Lemma has_key_unique_elem pk r t :
  unique_keys t -> (Some pk, r) ∈ t -> row_with_key pk t = Some r.
Proof.
  unfold unique_keys. induction t as [|[k r'] t IH]; [by intros _ ?%elem_of_nil|].
  rewrite keys_cons. simpl. intros Hnd [Heq|Hin]%elem_of_cons.
  - injection Heq as <- <-. unfold key_is. simpl.
    by rewrite bool_decide_eq_true_2.
  - destruct (key_is pk (k, r')) eqn:E.
    + apply key_is_true in E. simpl in E. subst k.
      apply NoDup_cons in Hnd as [Hnin _]. exfalso. apply Hnin.
      unfold keys. apply list_elem_of_omap. by exists (Some pk, r).
    + apply IH; [|done]. destruct k; [by apply NoDup_cons in Hnd as [_ ?]|done].
Qed.

(** *** [ORDER BY ... DESC] *)

Context (stamp : R -> Z).

Lemma insert_desc_Permutation row t : insert_desc stamp row t ≡ₚ row :: t.
Proof.
  induction t as [|y t IH]; simpl; [done|].
  destruct (stamp y.2 <=? stamp row.2)%Z; [done|].
  rewrite IH. apply Permutation_swap.
Qed.

Lemma order_by_desc_Permutation t : order_by_desc stamp t ≡ₚ t.
Proof.
  unfold order_by_desc. induction t as [|row t IH]; simpl; [done|].
  by rewrite insert_desc_Permutation, IH.
Qed.

Lemma insert_desc_Sorted row t :
  Sorted (fun a b => (stamp b.2 <= stamp a.2)%Z) t ->
  Sorted (fun a b => (stamp b.2 <= stamp a.2)%Z) (insert_desc stamp row t).
Proof.
  induction t as [|y t IH]; simpl; intros Hs.
  - by repeat constructor.
  - destruct (stamp y.2 <=? stamp row.2)%Z eqn:E.
    + apply Z.leb_le in E. constructor; [done|]. by constructor.
    + apply Z.leb_gt in E. apply Sorted_inv in Hs as [Hs Hhd].
      constructor; [by apply IH|].
      destruct t as [|z t]; simpl.
      * constructor. lia.
      * destruct (stamp z.2 <=? stamp row.2)%Z; constructor; [lia|].
        by apply HdRel_inv in Hhd.
Qed.

Lemma order_by_desc_Sorted t :
  Sorted (fun a b => (stamp b.2 <= stamp a.2)%Z) (order_by_desc stamp t).
Proof.
  unfold order_by_desc. induction t as [|row t IH]; simpl; [constructor|].
  by apply insert_desc_Sorted.
Qed.

(** The rows with a given stamp come in the order of the table. *)
Lemma insert_desc_stable (s : Z) row t :
  filter (fun x => stamp x.2 = s) (insert_desc stamp row t)
  = filter (fun x => stamp x.2 = s) (row :: t).
Proof.
  induction t as [|y t IH]; simpl; [done|].
  destruct (stamp y.2 <=? stamp row.2)%Z eqn:E; [done|].
  apply Z.leb_gt in E. rewrite (filter_cons _ y), IH, !filter_cons.
  destruct (decide (stamp row.2 = s)), (decide (stamp y.2 = s)); try done.
  lia.
Qed.

Lemma order_by_desc_stable (s : Z) t :
  filter (fun x => stamp x.2 = s) (order_by_desc stamp t)
  = filter (fun x => stamp x.2 = s) t.
Proof.
  unfold order_by_desc. induction t as [|row t IH]; simpl; [done|].
  by rewrite insert_desc_stable, !filter_cons, IH.
Qed.

(** A table whose rows all carry the same stamp is listed as it is. *)
Lemma order_by_desc_same_stamp (s : Z) t :
  Forall (fun x => stamp x.2 = s) t -> order_by_desc stamp t = t.
Proof.
  intros Hall.
  assert (Hall' : Forall (fun x => stamp x.2 = s) (order_by_desc stamp t)).
  { by rewrite order_by_desc_Permutation. }
  rewrite <- (filter_Forall_id _ t Hall) at 2.
  rewrite <- (order_by_desc_stable s t).
  symmetry. by apply filter_Forall_id.
Qed.

Lemma elem_of_order_by_desc row t : row ∈ order_by_desc stamp t <-> row ∈ t.
Proof. by rewrite order_by_desc_Permutation. Qed.

Lemma length_order_by_desc t : length (order_by_desc stamp t) = length t.
Proof. by rewrite order_by_desc_Permutation. Qed.

Lemma keys_order_by_desc t : keys (order_by_desc stamp t) ≡ₚ keys t.
Proof. unfold keys. by rewrite order_by_desc_Permutation. Qed.

End tables.

(** *** A run of [INSERT OR REPLACE] statements *)

Section bulk.
Context {X R : Type} (key : X -> option string) (val : X -> R).
Implicit Types (t : Table R) (xs : list X) (pk : string).

Local Abbreviation ins := (fun (t : Table R) (x : X) => insert_or_replace (key x) (val x) t).

Lemma bulk_row_with_key xs t pk :
  row_with_key pk (foldl ins t xs) =
  match last (filter (fun x => key x = Some pk) xs) with
  | Some x => Some (val x)
  | None => row_with_key pk t
  end.
Proof.
  revert t. induction xs as [|x xs IH]; intros t; [done|].
  cbn [foldl]. rewrite IH, filter_cons.
  rewrite row_with_key_insert.
  destruct (decide (key x = Some pk)) as [Hk|Hk].
  - rewrite last_cons. by destruct (last _).
  - done.
Qed.

Lemma bulk_has_key xs t pk :
  has_key pk (foldl ins t xs) = has_key pk t || bool_decide (Some pk ∈ key <$> xs).
Proof.
  revert t. induction xs as [|x xs IH]; intros t.
  - cbn [foldl]. rewrite bool_decide_eq_false_2 by apply not_elem_of_nil.
    by rewrite orb_false_r.
  - cbn [foldl]. rewrite IH. rewrite has_key_insert.
    rewrite fmap_cons.
    destruct (decide (key x = Some pk)) as [Hk|Hk].
    + rewrite (bool_decide_eq_true_2 (key x = Some pk)) by done.
      rewrite (bool_decide_eq_true_2 (Some pk ∈ key x :: (key <$> xs)))
        by (rewrite Hk; left).
      simpl. by rewrite orb_true_r.
    + rewrite (bool_decide_eq_false_2 (key x = Some pk)) by done. simpl.
      f_equal. apply bool_decide_ext. rewrite elem_of_cons. naive_solver.
Qed.

Lemma bulk_keys_set xs t :
  (list_to_set (keys (foldl ins t xs)) : gset string) =
  list_to_set (keys t) ∪ list_to_set (omap key xs).
Proof.
  revert t. induction xs as [|x xs IH]; intros t.
  - cbn. by rewrite (right_id_L ∅ (∪)).
  - cbn [foldl]. rewrite IH. rewrite keys_insert_set.
    assert (Ho : omap key (x :: xs) = (option_list (key x) ++ omap key xs)%list)
      by (simpl; by destruct (key x)).
    rewrite Ho, list_to_set_app_L. by rewrite (assoc_L (∪)).
Qed.

Lemma bulk_unique_keys xs t : unique_keys t -> unique_keys (foldl ins t xs).
Proof.
  revert t. induction xs as [|x xs IH]; intros t Hu; [done|].
  cbn [foldl]. apply IH. by apply unique_keys_insert.
Qed.

Lemma bulk_null_rows xs t :
  null_rows (foldl ins t xs) =
  (null_rows t ++ ((fun x => (None, val x)) <$> filter (fun x => key x = None) xs))%list.
Proof.
  revert t. induction xs as [|x xs IH]; intros t.
  - cbn [foldl]. by rewrite filter_nil, app_nil_r.
  - cbn [foldl]. rewrite IH. rewrite null_rows_insert, filter_cons.
    destruct (key x) as [pk|].
    + rewrite decide_False by done. by rewrite app_nil_r.
    + rewrite decide_True by done. by rewrite <- app_assoc.
Qed.

Lemma count_key_insert k (r : R) t pk :
  length (filter (fun row => row.1 = Some pk) (insert_or_replace k r t)) =
  if decide (k = Some pk) then 1%nat
  else length (filter (fun row => row.1 = Some pk) t).
Proof.
  unfold insert_or_replace. destruct k as [x|]; rewrite filter_app, length_app.
  - rewrite delete_key_filter, list_filter_filter.
    destruct (decide (Some x = Some pk)) as [[= ->]|Hne].
    + rewrite filter_none.
      * by rewrite (filter_cons_True _ (Some pk, r)), filter_nil.
      * apply Forall_forall. intros row _ [H1 H2]. done.
    + rewrite (filter_cons_False _ (Some x, r)), filter_nil by done.
      cbn [length]. rewrite Nat.add_0_r.
      f_equal. apply list_filter_iff. intros row. split; [by intros [? _]|].
      intros Hk. split; [done|]. congruence.
  - rewrite decide_False by done.
    rewrite (filter_cons_False _ (None, r)), filter_nil by done.
    cbn [length]. lia.
Qed.

Lemma bulk_count_key xs t pk :
  length (filter (fun row => row.1 = Some pk) (foldl ins t xs)) =
  if decide (Some pk ∈ key <$> xs) then 1%nat
  else length (filter (fun row => row.1 = Some pk) t).
Proof.
  revert t. induction xs as [|x xs IH]; intros t.
  - cbn [foldl]. rewrite decide_False by apply not_elem_of_nil. done.
  - cbn [foldl]. rewrite IH. rewrite count_key_insert, fmap_cons.
    destruct (decide (Some pk ∈ key <$> xs)) as [Hin|Hnin].
    + rewrite decide_True by (by right). done.
    + destruct (decide (key x = Some pk)) as [Hk|Hk].
      * rewrite decide_True by (rewrite Hk; left). done.
      * rewrite decide_False; [done|].
        intros [Heq|Hin]%elem_of_cons; [congruence|done].
Qed.

Lemma bulk_length xs t :
  unique_keys t ->
  length (foldl ins t xs) =
  (size (list_to_set (keys t) ∪ list_to_set (omap key xs) : gset string)
   + length (null_rows t) + length (filter (fun x => key x = None) xs))%nat.
Proof.
  intros Hu. rewrite length_keys_null_rows, bulk_null_rows.
  rewrite length_app, length_fmap, <- bulk_keys_set.
  rewrite size_list_to_set by (by apply bulk_unique_keys). lia.
Qed.

Lemma bulk_elem_of xs t row :
  row ∈ foldl ins t xs ->
  row ∈ t \/ exists x, x ∈ xs /\ row = (key x, val x).
Proof.
  revert t. induction xs as [|x xs IH]; intros t; [by left|].
  cbn [foldl]. intros [Hin|(y & Hy & ->)]%IH.
  - apply elem_of_insert in Hin as [->|[Hin _]].
    + right. exists x. split; [left|done].
    + by left.
  - right. exists y. split; [by right|done].
Qed.

End bulk.

(** ** Lemmas on the store *)

Lemma queryEvents_single (relays : Relays) (f : Filter) :
  queryEvents relays [f] = relays f.
Proof. simpl. destruct (relays f); [|done]. by rewrite app_nil_r. Qed.

Lemma isContact_is_contact (db : SocialDb) (pk : string) :
  isContact db pk = true <-> is_contact db pk.
Proof. apply has_key_elem. Qed.

Lemma isContact_false (db : SocialDb) (pk : string) :
  isContact db pk = false <-> ~ is_contact db pk.
Proof. apply has_key_false. Qed.

Lemma isMuted_is_muted (db : SocialDb) (pk : string) :
  isMuted db pk = true <-> is_muted db pk.
Proof. apply has_key_elem. Qed.

Lemma isMuted_false (db : SocialDb) (pk : string) :
  isMuted db pk = false <-> ~ is_muted db pk.
Proof. apply has_key_false. Qed.

Lemma isContact_row (db : SocialDb) (pk : string) :
  isContact db pk = true <-> is_Some (row_with_key pk (contacts db)).
Proof. symmetry. apply row_with_key_is_Some. Qed.

Lemma elem_of_getContacts (db : SocialDb) (pk : string) :
  Some pk ∈ map fst (getContacts db) <-> is_contact db pk.
Proof.
  unfold getContacts, is_contact.
  change (map fst (order_by_desc added_at (contacts db)))
    with ((order_by_desc added_at (contacts db)).*1).
  by rewrite order_by_desc_Permutation.
Qed.

Lemma set_contacts_id (db : SocialDb) : set_contacts db (contacts db) = db.
Proof. by destruct db. Qed.

Lemma set_mutes_id (db : SocialDb) : set_mutes db (mutes db) = db.
Proof. by destruct db. Qed.

Lemma SocialDb_eq (a b : SocialDb) :
  contacts a = contacts b -> mutes a = mutes b -> graph_cache a = graph_cache b ->
  a = b.
Proof. destruct a, b. simpl. by intros -> -> ->. Qed.

Lemma as_double_small (z : Z) : (Z.abs z <= 2 ^ 53)%Z -> as_double z = z.
Proof.
  intros Hz. unfold as_double.
  by rewrite (proj2 (Z.leb_le (Z.abs z) (2 ^ 53)) Hz).
Qed.

Lemma sql_min_None (l : list Z) : sql_min l = None <-> l = [].
Proof.
  destruct l as [|x l]; simpl; [done|].
  destruct (sql_min l); split; discriminate.
Qed.

Lemma sql_min_Some (l : list Z) (m : Z) :
  sql_min l = Some m -> m ∈ l /\ forall x, x ∈ l -> (m <= x)%Z.
Proof.
  revert m. induction l as [|x l IH]; intros m; simpl; [discriminate|].
  destruct (sql_min l) as [m'|] eqn:E.
  - intros [= <-]. destruct (IH m' eq_refl) as [Hin Hle]. split.
    + destruct (Z.min_spec x m') as [[_ ->]|[_ ->]]; [left|by right].
    + intros y [->|Hy]%elem_of_cons; [lia|]. specialize (Hle y Hy). lia.
  - intros [= <-]. apply sql_min_None in E. subst l. split; [left|].
    intros y [->|Hy]%elem_of_cons; [lia|]. by apply elem_of_nil in Hy.
Qed.

(** The distances the query of the resolver aggregates are those of the
    edges from a current Contact into the target. *)
Lemma selected_distances (db : SocialDb) (target : string) (d : Z) :
  d ∈ map (fun row => distance (snd row))
        (List.filter (selected db target) (map_to_list (graph_cache db)))
  <-> contact_edge db target d.
Proof.
  rewrite list_elem_of_fmap. unfold contact_edge. split.
  - intros [[[s t] row] [-> Hin]].
    apply list_elem_of_In, filter_In in Hin as [Hin Hsel].
    apply list_elem_of_In, elem_of_map_to_list in Hin.
    unfold selected in Hsel. simpl in Hsel.
    apply andb_prop in Hsel as [Hs Ht].
    apply has_key_elem in Hs. apply bool_decide_eq_true in Ht. subst t.
    exists s, row. done.
  - intros (s & row & Hs & Hrow & <-).
    exists ((s, target), row). split; [done|].
    apply list_elem_of_In, filter_In. split.
    + by apply list_elem_of_In, elem_of_map_to_list.
    + unfold selected. simpl.
      rewrite (proj2 (has_key_elem s (contacts db)) Hs).
      by rewrite bool_decide_eq_true_2.
Qed.

Lemma min_distance_plus_1_Some (db : SocialDb) (target : string) (r : Z) :
  min_distance_plus_1 db target = Some r <->
  exists m, r = as_double (m + 1) /\ min_contact_edge db target m.
Proof.
  unfold min_distance_plus_1, min_contact_edge.
  set (l := map _ _).
  assert (Hl : forall d, d ∈ l <-> contact_edge db target d)
    by apply selected_distances.
  split.
  - destruct (sql_min l) as [m|] eqn:E; simpl; [|discriminate].
    intros [= <-]. exists m. split; [done|].
    apply sql_min_Some in E as [Hin Hle]. split; [by apply Hl|].
    intros d Hd. by apply Hle, Hl.
  - intros (m & -> & Hm & Hmin).
    destruct (sql_min l) as [m'|] eqn:E; simpl.
    + apply sql_min_Some in E as [Hin Hle]. do 2 f_equal.
      apply Hl in Hin. apply Hl in Hm.
      specialize (Hmin m' Hin). specialize (Hle m Hm). lia.
    + apply sql_min_None in E. apply Hl in Hm. rewrite E in Hm.
      by apply elem_of_nil in Hm.
Qed.

Lemma min_distance_plus_1_None (db : SocialDb) (target : string) :
  min_distance_plus_1 db target = None <->
  forall d, ~ contact_edge db target d.
Proof.
  unfold min_distance_plus_1.
  set (l := map _ _).
  assert (Hl : forall d, d ∈ l <-> contact_edge db target d)
    by apply selected_distances.
  rewrite fmap_None, sql_min_None. split.
  - intros E d Hd. apply Hl in Hd. rewrite E in Hd. by apply elem_of_nil in Hd.
  - intros Hno. destruct l as [|x l']; [done|].
    exfalso. apply (Hno x), Hl. left.
Qed.

Lemma getTrustDistance_distance_spec (db : SocialDb) (target self : string)
    (r : option Z) :
  getTrustDistance db target self = r <-> distance_spec db target self r.
Proof.
  unfold getTrustDistance.
  destruct (decide (target = self)) as [Heq|Hne].
  { split.
    - intros <-. by constructor.
    - inversion 1; congruence. }
  destruct (bool_decide (Some target ∈ map fst (getContacts db))) eqn:Hc.
  { apply bool_decide_eq_true, elem_of_getContacts in Hc. split.
    - intros <-. by constructor.
    - inversion 1; congruence || done. }
  apply bool_decide_eq_false in Hc. rewrite elem_of_getContacts in Hc.
  split.
  - intros <-. destruct (min_distance_plus_1 db target) as [r|] eqn:E.
    + apply min_distance_plus_1_Some in E as (m & -> & Hm). by constructor.
    + constructor; [done..|]. by apply min_distance_plus_1_None.
  - inversion 1 as [|? Hsome|m ? ? Hm|? ? Hno]; subst; try congruence.
    + apply min_distance_plus_1_Some. eauto.
    + by apply min_distance_plus_1_None.
Qed.

(** The cache after [updateGraphCache]: the listed targets of [source] carry
    the new distance, every other edge is as before. *)
Lemma updateGraphCache_lookup db source follows d now (s t : string) :
  graph_cache (updateGraphCache db source follows d now) !! (s, t) =
  if bool_decide (s = source /\ t ∈ follows) then Some (mkEdgeRow d now)
  else graph_cache db !! (s, t).
Proof.
  unfold updateGraphCache. simpl.
  generalize (graph_cache db). intros g. revert g.
  induction follows as [|x follows IH]; intros g; simpl.
  - rewrite bool_decide_eq_false_2; [done|]. intros [_ H]. by apply elem_of_nil in H.
  - rewrite IH. unfold insert_edge.
    destruct (decide (s = source /\ t ∈ follows)) as [Hin|Hnin].
    + rewrite !bool_decide_eq_true_2; [done| |done].
      destruct Hin. split; [done|by right].
    + rewrite (bool_decide_eq_false_2 _ Hnin).
      destruct (decide ((source, x) = (s, t))) as [[= <- <-]|Hne].
      * rewrite lookup_insert_eq. rewrite bool_decide_eq_true_2; [done|].
        split; [done|left].
      * rewrite lookup_insert_ne by done.
        rewrite bool_decide_eq_false_2; [done|].
        intros [-> [->|Hx]%elem_of_cons]; [done|]. apply Hnin. done.
Qed.

Lemma updateGraphCache_contacts db source follows d now :
  contacts (updateGraphCache db source follows d now) = contacts db.
Proof. done. Qed.

Lemma updateGraphCache_mutes db source follows d now :
  mutes (updateGraphCache db source follows d now) = mutes db.
Proof. done. Qed.

(** ** The trust-distance resolver *)

(** The claim of C1 as stated fails beyond [2^53]: with a single edge from
    a Contact into [T], cached at distance [2^53], the resolver answers
    [2^53], which is what JavaScript reads of [2^53 + 1]. *)
Lemma getTrustDistance_not_min_plus_1 :
  "T" <> "me" /\ ~ is_contact far_edge "T" /\
  min_contact_edge far_edge "T" (2 ^ 53) /\
  getTrustDistance far_edge "T" "me" = Some (2 ^ 53)%Z /\
  getTrustDistance far_edge "T" "me" <> Some (2 ^ 53 + 1)%Z.
Proof.
  assert (Hedge : forall s row, graph_cache far_edge !! (s, "T") = Some row ->
            s = "C" /\ distance row = (2 ^ 53)%Z).
  { intros s row. unfold far_edge. rewrite updateGraphCache_lookup.
    destruct (decide (s = "C" /\ "T" ∈ ["T"])) as [[-> _]|Hn].
    - rewrite bool_decide_eq_true_2 by (split; [done|left]). by intros [= <-].
    - rewrite bool_decide_eq_false_2 by done. simpl. by rewrite lookup_empty. }
  split_and!.
  - discriminate.
  - apply isContact_false. vm_compute. reflexivity.
  - split.
    + exists "C", (mkEdgeRow (2 ^ 53) 0). split_and!.
      * apply isContact_is_contact. vm_compute. reflexivity.
      * unfold far_edge. rewrite updateGraphCache_lookup.
        by rewrite bool_decide_eq_true_2 by (split; [done|left]).
      * done.
    + intros d (s & row & _ & Hrow & <-). apply Hedge in Hrow as [_ ->]. lia.
  - vm_compute. reflexivity.
  - vm_compute. discriminate.
Qed.

(** C1 (amended).  The resolver returns 0 for self; else 1 for a direct
    Contact; else, when some cached edge leads from a current Contact into
    the target, what JavaScript reads of [min(edge.distance) + 1] over those
    edges, which is [min(edge.distance) + 1] itself as long as that is at
    most [2^53] in absolute value; else the unknown result.  The code's
    answer is the one and only answer the four cases allow. *)
Theorem getTrustDistance_spec (db : SocialDb) (target self : string) :
  (forall r, getTrustDistance db target self = r <-> distance_spec db target self r) /\
  (forall m, target <> self -> ~ is_contact db target ->
     min_contact_edge db target m -> (Z.abs (m + 1) <= 2 ^ 53)%Z ->
     getTrustDistance db target self = Some (m + 1)%Z).
Proof.
  split.
  - intros r. apply getTrustDistance_distance_spec.
  - intros m Hne Hc Hm Hsmall. apply getTrustDistance_distance_spec.
    rewrite <- (as_double_small (m + 1)) by done. by constructor.
Qed.

(** ** The trust filter *)

Lemma keep_iff_trusted (db : SocialDb) (self : string) (maxD : JsNumber) (a : string) :
  (if isMuted db a then false
   else match getTrustDistance db a self with
        | None => false
        | Some d => js_le d maxD
        end) = true <-> trusted db self maxD a.
Proof.
  unfold trusted, within.
  destruct (isMuted db a) eqn:Hm.
  - apply isMuted_is_muted in Hm. split; [done|]. by intros [? _].
  - apply isMuted_false in Hm.
    destruct (getTrustDistance db a self) as [d|]; [|split; [done|by intros [_ ?]]].
    destruct maxD as [|m]; simpl; [split; [done|by intros [_ ?]]|].
    rewrite Z.leb_le. split; [done|by intros [_ ?]].
Qed.

Lemma filterByTrustDistance_trusted db authors self maxD :
  filterByTrustDistance db authors self maxD = filter (trusted db self maxD) authors.
Proof.
  unfold filterByTrustDistance. apply filter_bool_decide.
  intros a. apply keep_iff_trusted.
Qed.

(** C2.  The trust filter returns the input with exactly the untrusted
    authors removed, in the input's order: an author is dropped when muted
    (even a direct Contact), else dropped when its distance is unknown, else
    kept exactly when its distance is at most [maxDistance]. *)
Theorem filterByTrustDistance_spec (db : SocialDb) (authors : list string)
    (self : string) (maxD : JsNumber) :
  filterByTrustDistance db authors self maxD = filter (trusted db self maxD) authors /\
  sublist (filterByTrustDistance db authors self maxD) authors /\
  (forall a, a ∈ filterByTrustDistance db authors self maxD <->
     a ∈ authors /\ ~ is_muted db a /\
     exists d, getTrustDistance db a self = Some d /\ js_le d maxD = true) /\
  (forall a, is_muted db a ->
     a ∉ filterByTrustDistance db authors self maxD).
Proof.
  rewrite filterByTrustDistance_trusted.
  split; [done|]. split; [apply sublist_filter|]. split.
  - intros a. rewrite list_elem_of_filter. unfold trusted, within. split.
    + intros [[Hm Hd] Hin]. split; [done|]. split; [done|].
      destruct (getTrustDistance db a self) as [d|]; [|done].
      destruct maxD as [|m]; [done|]. exists d. split; [done|].
      simpl. by apply Z.leb_le.
    + intros (Hin & Hm & d & -> & Hle). split; [|done]. split; [done|].
      destruct maxD as [|m]; simpl in *; [done|]. by apply Z.leb_le.
  - intros a Hmuted. rewrite list_elem_of_filter. unfold trusted.
    intros [[Hm _] _]. done.
Qed.

(** ** Clearing the graph cache *)

(** C9.  Clearing the graph cache empties [graph_cache] and nothing else:
    Contacts and Mutes are the same relations, so membership is unchanged,
    and the resolver still answers 0 for self and 1 for every direct
    Contact, as it did before. *)
Theorem clearGraphCache_frame (db : SocialDb) (self : string) :
  graph_cache (clearGraphCache db) = ∅ /\
  contacts (clearGraphCache db) = contacts db /\
  mutes (clearGraphCache db) = mutes db /\
  (forall pk, isContact (clearGraphCache db) pk = isContact db pk) /\
  (forall pk, isMuted (clearGraphCache db) pk = isMuted db pk) /\
  getTrustDistance (clearGraphCache db) self self = Some 0%Z /\
  getTrustDistance db self self = Some 0%Z /\
  (forall c, c <> self -> isContact db c = true ->
     getTrustDistance (clearGraphCache db) c self = Some 1%Z /\
     getTrustDistance db c self = Some 1%Z).
Proof.
  assert (Hself : forall d, getTrustDistance d self self = Some 0%Z).
  { intros d. unfold getTrustDistance. by rewrite decide_True. }
  assert (Hdirect : forall d c, c <> self -> isContact d c = true ->
            getTrustDistance d c self = Some 1%Z).
  { intros d c Hne Hc. unfold getTrustDistance. rewrite decide_False by done.
    rewrite bool_decide_eq_true_2; [done|].
    apply elem_of_getContacts. by apply isContact_is_contact. }
  split_and!; try done.
  intros c Hne Hc. split; by apply Hdirect.
Qed.

(** On the fixture: after the clear [A] is still at distance 1 and
    [Spammer] still muted, while [C], known only from the cache, is no
    longer resolved. *)
Lemma clearGraphCache_frame_witness :
  getTrustDistance (clearGraphCache fixture) "A" "M" = Some 1%Z /\
  isMuted (clearGraphCache fixture) "Spammer" = true /\
  getTrustDistance (clearGraphCache fixture) "C" "M" = None.
Proof.
  destruct (clearGraphCache_frame fixture "M")
    as (_ & _ & _ & _ & Hmuted & _ & _ & Hdirect).
  split_and!.
  - apply (Hdirect "A"); [discriminate|]. vm_compute. reflexivity.
  - rewrite Hmuted. vm_compute. reflexivity.
  - vm_compute. reflexivity.
Defined.

(** ** Upserting edges *)

(** The claim of C4 as stated fails when the target is self, or is itself a
    direct Contact: the earlier cases of the resolver win. *)
Lemma upsert_edge_distance_not_2 :
  let db := addContact (addContact emptyDb "C" None None 0) "B" None None 0 in
  isContact db "C" = true /\
  getTrustDistance (updateGraphCache db "C" ["me"] 1 0) "me" "me" = Some 0%Z /\
  getTrustDistance (updateGraphCache db "C" ["B"] 1 0) "B" "me" = Some 1%Z /\
  getTrustDistance (updateGraphCache db "C" ["B"] 1 0) "B" "me" <> Some 2%Z.
Proof. vm_compute. split_and!; congruence. Qed.

(** C4 (amended).  When [C] is a direct Contact and the edge [C -> T] has
    been upserted at distance 1, the resolver answers 2 for [T] provided
    [T] is not self, [T] is not a direct Contact, and no other Contact has a
    cached edge into [T] at a distance below 1. *)
Theorem upsert_edge_distance_2 (db : SocialDb) (C T self : string) (now : Z) :
  isContact db C = true ->
  T <> self ->
  isContact db T = false ->
  (forall s row, s <> C -> isContact db s = true ->
     graph_cache db !! (s, T) = Some row -> (1 <= distance row)%Z) ->
  getTrustDistance (updateGraphCache db C [T] 1 now) T self = Some 2%Z.
Proof.
  intros HC Hne HT Hothers.
  apply isContact_is_contact in HC. apply isContact_false in HT.
  apply getTrustDistance_distance_spec.
  change (Some 2%Z) with (Some (as_double (1 + 1))).
  constructor; [done|done|]. split.
  - exists C, (mkEdgeRow 1 now). split; [done|]. split; [|done].
    rewrite updateGraphCache_lookup, bool_decide_eq_true_2; [done|].
    split; [done|left].
  - intros d (s & row & Hs & Hrow & <-).
    rewrite updateGraphCache_lookup in Hrow.
    destruct (decide (s = C)) as [->|HsC].
    + rewrite bool_decide_eq_true_2 in Hrow by (split; [done|left]).
      by injection Hrow as <-.
    + rewrite bool_decide_eq_false_2 in Hrow by (by intros [? _]).
      apply (Hothers s); [done| |done]. by apply isContact_is_contact.
Qed.

Lemma upsert_edge_distance_2_witness :
  let db0 := addContact (addContact emptyDb "C" None None 0) "B" None None 0 in
  let db := updateGraphCache db0 "B" ["T"] 1 0 in
  getTrustDistance (updateGraphCache db "C" ["T"] 1 5) "T" "me" = Some 2%Z.
Proof.
  apply upsert_edge_distance_2.
  - vm_compute. reflexivity.
  - discriminate.
  - vm_compute. reflexivity.
  - intros s row _ _ Hrow. rewrite updateGraphCache_lookup in Hrow.
    destruct (bool_decide _) in Hrow.
    + injection Hrow as <-. simpl. lia.
    + simpl in Hrow. rewrite lookup_empty in Hrow. discriminate.
Defined.

(** ** Bulk upsert of Contacts *)

Lemma size_list_to_set_remove_dups (l : list string) :
  size (list_to_set l : gset string) = length (remove_dups l).
Proof.
  rewrite <- (size_list_to_set (C := gset string) (remove_dups l))
    by apply NoDup_remove_dups.
  f_equal. apply set_eq. intros x.
  by rewrite !elem_of_list_to_set, elem_of_remove_dups.
Qed.

(** The claim of C8 as stated fails on a relation that already holds a row
    whose pubkey is not in the input: the row stays, and [count()] is one
    more than the number of distinct pubkeys of the input. *)
Lemma bulkInsert_count_not_distinct_inputs :
  let db := addContact emptyDb "Z" None None 0 in
  let input := [mkContactInput (Some "A") None None] in
  getContactCount (bulkInsertContacts db input 1) = 2%nat /\
  length (remove_dups (omap ci_pubkey input)) = 1%nat /\
  isContact (bulkInsertContacts db input 1) "Z" = true.
Proof. vm_compute. done. Qed.

(** C8 (amended).  After [bulkInsertContacts], whatever the relation held
    before: every pubkey of the input has exactly one row, with the relay
    and petname of its last occurrence (an empty string stored as null); a
    pubkey that is not in the input keeps the row it had; each element
    without a pubkey adds a row with a [NULL] key and the rows with a
    [NULL] key stay; on a relation that respects its primary key,
    [count()] is the number of distinct pubkeys among the prior rows and
    the input together, plus the rows with a [NULL] key, which is the
    number of distinct pubkeys of the input when the relation was empty and
    every element has a pubkey; an empty input leaves the store unchanged.
    Mutes and the graph cache are untouched. *)
Theorem bulkInsertContacts_spec (db : SocialDb) (cs : list ContactInput) (now : Z) :
  let db' := bulkInsertContacts db cs now in
  (forall pk, row_with_key pk (contacts db') =
     match last_with_key pk cs with
     | Some c => Some (row_of now c)
     | None => row_with_key pk (contacts db)
     end) /\
  (forall pk, Some pk ∈ ci_pubkey <$> cs ->
     length (filter (fun row => row.1 = Some pk) (contacts db')) = 1%nat) /\
  (forall pk, isContact db' pk = isContact db pk || bool_decide (Some pk ∈ ci_pubkey <$> cs)) /\
  null_rows (contacts db') =
    (null_rows (contacts db) ++
     ((fun c => (None, row_of now c)) <$> filter (fun c => ci_pubkey c = None) cs))%list /\
  (unique_keys (contacts db) ->
     unique_keys (contacts db') /\
     getContactCount db' =
       (size (list_to_set (keys (contacts db)) ∪ list_to_set (omap ci_pubkey cs)
              : gset string)
        + length (null_rows (contacts db))
        + length (filter (fun c => ci_pubkey c = None) cs))%nat) /\
  (contacts db = [] ->
     getContactCount db' =
       (length (remove_dups (omap ci_pubkey cs))
        + length (filter (fun c => ci_pubkey c = None) cs))%nat) /\
  bulkInsertContacts db [] now = db /\
  mutes db' = mutes db /\ graph_cache db' = graph_cache db.
Proof.
  simpl. split_and!; try done.
  - intros pk. apply (bulk_row_with_key ci_pubkey (row_of now)).
  - intros pk Hin.
    rewrite (bulk_count_key ci_pubkey (row_of now)). by rewrite decide_True.
  - intros pk. apply (bulk_has_key ci_pubkey (row_of now)).
  - apply (bulk_null_rows ci_pubkey (row_of now)).
  - intros Hu. split.
    + by apply (bulk_unique_keys ci_pubkey (row_of now)).
    + by apply (bulk_length ci_pubkey (row_of now)).
  - intros Hempty. unfold getContactCount. simpl.
    rewrite (bulk_length ci_pubkey (row_of now)) by (rewrite Hempty; constructor).
    rewrite Hempty, keys_nil, null_rows_nil, list_to_set_nil.
    rewrite (left_id_L ∅ (∪)), size_list_to_set_remove_dups. simpl. lia.
  - apply set_contacts_id.
Qed.

(** From an empty relation, with [A] given twice: two rows, and [A] has the
    metadata of its second occurrence, the empty petname stored as null. *)
Lemma bulkInsertContacts_spec_witness :
  let input := [mkContactInput (Some "A") (Some "wss://old") None;
                mkContactInput (Some "B") None None;
                mkContactInput (Some "A") (Some "wss://new") (Some EmptyString)] in
  let db' := bulkInsertContacts emptyDb input 5 in
  getContactCount db' = 2%nat /\
  row_with_key "A" (contacts db') = Some (mkContactRow (Some "wss://new") None 5) /\
  row_with_key "Z" (contacts db') = None /\
  map fst (contacts db') = [Some "B"; Some "A"].
Proof.
  intros input db'.
  destruct (bulkInsertContacts_spec emptyDb input 5)
    as (Hrow & _ & _ & _ & _ & Hcount & _).
  fold db' in Hrow, Hcount. split_and!.
  - rewrite Hcount by reflexivity. reflexivity.
  - rewrite Hrow. reflexivity.
  - rewrite Hrow. reflexivity.
  - reflexivity.
Defined.

(** ** Reasoning about commands *)

Section command_logic.
Context (Inv : SocialDb -> Prop).

Lemma inv_ret {A} (a : A) (Q : A -> Prop) :
  Q a -> inv_cmd Inv (ret a) Q.
Proof. intros Ha db Hdb. simpl. split; [done|]. by intros ? [= <-]. Qed.

Lemma inv_raise {A} (Q : A -> Prop) :
  inv_cmd Inv (@raise A) Q.
Proof. intros db Hdb. simpl. split; [done|]. by intros ? [=]. Qed.

Lemma inv_bind {A B} (c : Cmd A) (k : A -> Cmd B)
    (Q : A -> Prop) (R : B -> Prop) :
  inv_cmd Inv c Q ->
  (forall a, Q a -> inv_cmd Inv (k a) R) ->
  inv_cmd Inv (bind c k) R.
Proof.
  intros Hc Hk db Hdb. unfold bind.
  destruct (Hc db Hdb) as [HI HQ].
  destruct (c db) as [[a|] db']; simpl in *.
  - by apply (Hk a (HQ a eq_refl)).
  - split; [done|]. by intros ? [=].
Qed.

Lemma inv_weaken {A} (c : Cmd A) (Q Q' : A -> Prop) :
  inv_cmd Inv c Q -> (forall a, Q a -> Q' a) -> inv_cmd Inv c Q'.
Proof.
  intros Hc HQ db Hdb. destruct (Hc db Hdb) as [HI Ha].
  split; [done|]. intros a E. by apply HQ, Ha.
Qed.

Lemma inv_exec (f : SocialDb -> SocialDb) :
  (forall db, Inv db -> Inv (f db)) -> inv_cmd Inv (exec f) (fun _ => True).
Proof. intros Hf db Hdb. simpl. split; [by apply Hf|done]. Qed.

Lemma inv_get {A} (f : SocialDb -> A) :
  inv_cmd Inv (get f) (fun _ => True).
Proof. intros db Hdb. simpl. done. Qed.

Lemma inv_of_option {A} (o : option A) :
  inv_cmd Inv (of_option o) (fun a => o = Some a).
Proof.
  destruct o as [a|]; simpl.
  - by apply inv_ret.
  - apply inv_raise.
Qed.

Lemma inv_for_each {A} (body : A -> Cmd unit) (l : list A) :
  (forall a, a ∈ l -> inv_cmd Inv (body a) (fun _ => True)) ->
  inv_cmd Inv (for_each body l) (fun _ => True).
Proof.
  induction l as [|a l IH]; intros Hbody; simpl.
  - by apply inv_ret.
  - eapply inv_bind.
    + apply Hbody. left.
    + intros _ _. apply IH. intros b Hb. apply Hbody. by right.
Qed.

End command_logic.

(** A store update that leaves the relation an invariant reads untouched. *)
Ltac frame_exec :=
  apply inv_exec; let Hdb := fresh "Hdb" in intros ? Hdb; exact Hdb.

(** ** The steps of the sync command *)

Lemma elem_of_p_tags (tags : list (list string)) (t : list string) :
  t ∈ p_tags tags <-> t ∈ tags /\ t !! 0%nat = Some "p".
Proof.
  unfold p_tags. rewrite list_elem_of_In, filter_In, <- list_elem_of_In.
  by rewrite bool_decide_eq_true.
Qed.

Lemma p_tags_reference_tags (ev : Event) : p_tags (ev_tags ev) = reference_tags ev.
Proof.
  unfold p_tags, reference_tags. apply filter_bool_decide.
  intros t. apply bool_decide_eq_true.
Qed.

Lemma elem_of_reference_tags (ev : Event) (t : list string) :
  t ∈ reference_tags ev <-> t ∈ ev_tags ev /\ t !! 0%nat = Some "p".
Proof. unfold reference_tags. rewrite list_elem_of_filter. tauto. Qed.

Lemma references_reference_tags (ev : Event) (pk : string) :
  references ev pk <-> Some pk ∈ (fun t => t !! 1%nat) <$> reference_tags ev.
Proof.
  unfold references. rewrite list_elem_of_fmap. split.
  - intros (t & Hin & Hp & Hk). exists t. split; [done|].
    by apply elem_of_reference_tags.
  - intros (t & Hk & [Hin Hp]%elem_of_reference_tags). by exists t.
Qed.

(** Steps 1 and 2 of the sync do not write to the cache, steps 2 and 3 do
    not write to Contacts, steps 1 and 3 do not write to Mutes. *)
Lemma syncContacts_cache_frame (P : gmap (string * string) EdgeRow -> Prop)
    relays self now :
  inv_cmd (fun db => P (graph_cache db)) (syncContacts relays self now) (fun _ => True).
Proof.
  unfold syncContacts.
  eapply inv_bind; [apply inv_of_option|]. intros [|ev evs] _; [by apply inv_ret|].
  eapply inv_bind; [frame_exec|]. intros _ _. frame_exec.
Qed.

Lemma syncMutes_cache_frame (P : gmap (string * string) EdgeRow -> Prop)
    relays self now :
  inv_cmd (fun db => P (graph_cache db)) (syncMutes relays self now) (fun _ => True).
Proof.
  unfold syncMutes.
  eapply inv_bind; [apply inv_of_option|]. intros [|ev evs] _; [by apply inv_ret|].
  eapply inv_bind; [frame_exec|]. intros _ _. frame_exec.
Qed.

Lemma syncContacts_mutes_frame (P : Table Z -> Prop) relays self now :
  inv_cmd (fun db => P (mutes db)) (syncContacts relays self now) (fun _ => True).
Proof.
  unfold syncContacts.
  eapply inv_bind; [apply inv_of_option|]. intros [|ev evs] _; [by apply inv_ret|].
  eapply inv_bind; [frame_exec|]. intros _ _. frame_exec.
Qed.

Lemma syncMutes_contacts_frame (P : Table ContactRow -> Prop) relays self now :
  inv_cmd (fun db => P (contacts db)) (syncMutes relays self now) (fun _ => True).
Proof.
  unfold syncMutes.
  eapply inv_bind; [apply inv_of_option|]. intros [|ev evs] _; [by apply inv_ret|].
  eapply inv_bind; [frame_exec|]. intros _ _. frame_exec.
Qed.

Lemma buildGraphCache_tables_frame (P : Table ContactRow -> Table Z -> Prop)
    relays depth now :
  inv_cmd (fun db => P (contacts db) (mutes db)) (buildGraphCache relays depth now)
    (fun _ => True).
Proof.
  unfold buildGraphCache.
  destruct (js_gt depth 1); [|by apply inv_ret].
  eapply inv_bind; [frame_exec|]. intros _ _.
  eapply inv_bind; [apply inv_get|]. intros cs _.
  destruct (0 <? length (map fst cs))%nat; [|by apply inv_ret].
  eapply inv_bind; [apply inv_of_option|]. intros evs _.
  apply inv_for_each. intros ev _. unfold cacheFollows.
  eapply inv_bind; [apply inv_of_option|]. intros follows _.
  frame_exec.
Qed.

(** Step 1 raises only when its query is rejected, and so does step 2. *)
Lemma syncContacts_returns relays self now db :
  (syncContacts relays self now db).1 =
  match relays (contact_list_filter self) with Some _ => Some tt | None => None end.
Proof.
  unfold syncContacts, bind. rewrite queryEvents_single.
  destruct (relays (contact_list_filter self)) as [[|ev evs]|]; done.
Qed.

Lemma syncMutes_returns relays self now db :
  (syncMutes relays self now db).1 =
  match relays (mute_list_filter self) with Some _ => Some tt | None => None end.
Proof.
  unfold syncMutes, bind. rewrite queryEvents_single.
  destruct (relays (mute_list_filter self)) as [[|ev evs]|]; done.
Qed.

(** ** The sync command and self-loops *)

(** The claim of C3 as stated fails: when the follow list of the contact
    [A] references [A] itself, the sync stores the edge from [A] to [A]. *)
Lemma graphSync_self_loop :
  let r := graphSyncCommand (Some "me") None self_follow_relays 7 emptyDb in
  r.1 = Some tt /\
  graph_cache r.2 !! ("A", "A") = Some (mkEdgeRow 1 7) /\
  ~ no_self_loop r.2.
Proof.
  assert (E : graph_cache
                (graphSyncCommand (Some "me") None self_follow_relays 7 emptyDb).2
              !! ("A", "A") = Some (mkEdgeRow 1 7)) by (vm_compute; done).
  simpl. split_and!; [by vm_compute|exact E|].
  intros Hno. by apply (Hno "A" "A" _ E).
Qed.

Lemma mapM_tag_pubkey_references (ev : Event) (follows : list string) (pk : string) :
  mapM tag_pubkey (p_tags (ev_tags ev)) = Some follows ->
  pk ∈ follows <-> references ev pk.
Proof.
  intros Hm. apply mapM_Some in Hm. split.
  - intros Hin.
    destruct (proj1 (list_elem_of_lookup follows pk) Hin) as [i Hi].
    destruct (Forall2_lookup_r _ _ _ _ _ Hm Hi) as (t & Ht & Htag).
    apply list_elem_of_lookup_2, elem_of_p_tags in Ht as [Ht Hp].
    by exists t.
  - intros (t & Ht & Hp & Hpk).
    assert (Hin : t ∈ p_tags (ev_tags ev)) by (by apply elem_of_p_tags).
    destruct (proj1 (list_elem_of_lookup _ t) Hin) as [i Hi].
    destruct (Forall2_lookup_l _ _ _ _ _ Hm Hi) as (pk' & Hpk' & Htag).
    unfold tag_pubkey in Htag. rewrite Hpk in Htag. injection Htag as <-.
    by eapply list_elem_of_lookup_2.
Qed.

Lemma updateGraphCache_no_self_loop db source follows d now :
  source ∉ follows -> no_self_loop db ->
  no_self_loop (updateGraphCache db source follows d now).
Proof.
  intros Hnin Hno s t row Hrow. rewrite updateGraphCache_lookup in Hrow.
  destruct (decide (s = source /\ t ∈ follows)) as [[-> Ht]|Hn].
  - intros ->. done.
  - rewrite bool_decide_eq_false_2 in Hrow by done. by eapply Hno.
Qed.

Lemma cacheFollows_no_self_loop now ev :
  ~ references ev (ev_pubkey ev) ->
  inv_cmd no_self_loop (cacheFollows now ev) (fun _ => True).
Proof.
  intros Hev. unfold cacheFollows.
  eapply inv_bind; [apply inv_of_option|]. intros follows Hf.
  apply inv_exec. intros db Hdb.
  apply updateGraphCache_no_self_loop; [|done].
  intros Hin. apply Hev. by apply (mapM_tag_pubkey_references _ _ _ Hf).
Qed.

Lemma buildGraphCache_no_self_loop (relays : Relays) depth now :
  (forall contactPubkeys evs ev,
     relays (follows_filter contactPubkeys) = Some evs -> ev ∈ evs ->
     ~ references ev (ev_pubkey ev)) ->
  inv_cmd no_self_loop (buildGraphCache relays depth now) (fun _ => True).
Proof.
  intros Hrel. unfold buildGraphCache.
  destruct (js_gt depth 1); [|by apply inv_ret].
  eapply inv_bind.
  { apply inv_exec. intros db _ s t row Hrow. simpl in Hrow.
    by rewrite lookup_empty in Hrow. }
  intros _ _. eapply inv_bind; [apply inv_get|]. intros cs _.
  destruct (0 <? length (map fst cs))%nat; [|by apply inv_ret].
  eapply inv_bind; [apply inv_of_option|]. intros evs Hevs.
  rewrite queryEvents_single in Hevs.
  apply inv_for_each. intros ev Hev.
  apply cacheFollows_no_self_loop. exact (Hrel _ _ _ Hevs Hev).
Qed.

(** C3 (amended).  A run of the sync command keeps the graph cache free of
    self-loops when no follow-list record returned for the contacts lists
    its own author among the pubkeys it references.  This holds for every
    identity, depth and relay answer, and also when the run raises half-way. *)
Theorem graphSync_no_self_loop (keyPair : option string) (depth : option JsNumber)
    (relays : Relays) (now : Z) (db : SocialDb) :
  no_self_loop db ->
  (forall contactPubkeys evs ev,
     relays (follows_filter contactPubkeys) = Some evs -> ev ∈ evs ->
     ~ references ev (ev_pubkey ev)) ->
  no_self_loop (graphSyncCommand keyPair depth relays now db).2.
Proof.
  intros Hdb Hrel.
  assert (H : inv_cmd no_self_loop (graphSyncCommand keyPair depth relays now)
                (fun _ => True)).
  { unfold graphSyncCommand. destruct keyPair as [self|]; [|apply inv_raise].
    eapply inv_bind.
    { apply (syncContacts_cache_frame
               (fun g => forall s t row, g !! (s, t) = Some row -> s <> t)). }
    intros _ _. eapply inv_bind.
    { apply (syncMutes_cache_frame
               (fun g => forall s t row, g !! (s, t) = Some row -> s <> t)). }
    intros _ _. by apply buildGraphCache_no_self_loop. }
  by apply H.
Qed.

Lemma graphSync_no_self_loop_witness :
  no_self_loop (graphSyncCommand (Some "me") None plain_relays 7 emptyDb).2.
Proof.
  apply graphSync_no_self_loop.
  - intros s t row Hrow. simpl in Hrow. by rewrite lookup_empty in Hrow.
  - intros cps evs ev [= <-] Hev%list_elem_of_singleton (t & Ht & Hp & Hpk).
    subst ev. simpl in Ht, Hpk.
    repeat (apply elem_of_cons in Ht as [->|Ht]; [discriminate|]).
    by apply elem_of_nil in Ht.
Defined.

(** ** The sync command and the Contacts relation *)

(** Steps 2 and 3 do not write to Contacts: what the whole command leaves
    there is what step 1 left. *)
Lemma graphSync_contacts_step1 self depth relays now db :
  contacts (graphSyncCommand (Some self) depth relays now db).2 =
  contacts (syncContacts relays self now db).2.
Proof.
  unfold graphSyncCommand. unfold bind at 1.
  destruct (syncContacts relays self now db) as [[u|] db1]; [|done]. simpl.
  assert (H : inv_cmd (fun d => contacts d = contacts db1)
                (seq! syncMutes relays self now ;;
                 buildGraphCache relays (default (Num 2) depth) now)
                (fun _ => True)).
  { eapply inv_bind.
    { apply (syncMutes_contacts_frame (fun c => c = contacts db1)). }
    intros _ _.
    apply (buildGraphCache_tables_frame (fun c _ => c = contacts db1)). }
  by apply H.
Qed.

Lemma syncContacts_none relays self now db :
  relays (contact_list_filter self) = Some [] \/
  relays (contact_list_filter self) = None ->
  (syncContacts relays self now db).2 = db.
Proof.
  unfold syncContacts, bind. rewrite queryEvents_single. by intros [-> | ->].
Qed.

(** A record found: the relation is rebuilt from the reference tags of the
    record alone. *)
Lemma syncContacts_found relays self now db ev rest :
  relays (contact_list_filter self) = Some (ev :: rest) ->
  contacts (syncContacts relays self now db).2 =
  foldl (fun t tag => insert_or_replace (tag !! 1%nat) (row_of_tag now tag) t)
    [] (reference_tags ev).
Proof.
  intros Hrel. unfold syncContacts, bind.
  rewrite queryEvents_single, Hrel. simpl.
  rewrite p_tags_reference_tags. unfold insert_contact.
  generalize (@nil (option string * ContactRow)).
  induction (reference_tags ev) as [|t ts IH]; intros acc; [done|].
  simpl. apply IH.
Qed.

(** A run of upserts that all carry the same pubkey leaves one row for it,
    that of the last. *)
Lemma foldl_same_key {X R} (key : X -> option string) (val : X -> R)
    (A : string) (xs : list X) (x : X) (t : Table R) :
  Forall (fun y => key y = Some A) (x :: xs) ->
  foldl (fun t y => insert_or_replace (key y) (val y) t) t (x :: xs) =
  (delete_key A t ++ [(Some A, val (default x (last xs)))])%list.
Proof.
  revert x t. induction xs as [|y xs IH]; intros x t Hall.
  - apply Forall_cons in Hall as [Hx _]. simpl. by rewrite Hx.
  - apply Forall_cons in Hall as [Hx Hall].
    change (foldl _ t (x :: y :: xs))
      with (foldl (fun t y => insert_or_replace (key y) (val y) t)
              (insert_or_replace (key x) (val x) t) (y :: xs)).
    rewrite (IH y _ Hall), Hx. unfold insert_or_replace at 1.
    rewrite delete_key_app, delete_key_idemp.
    unfold delete_key at 2. simpl. unfold key_is at 1. simpl.
    rewrite bool_decide_eq_true_2 by done. simpl. rewrite app_nil_r.
    do 3 f_equal. rewrite last_cons. by destruct (last xs).
Qed.

(** C5.  Step 1 of the sync, seen on the store the whole command leaves.
    No record found (or the query rejected): Contacts is what it was.  A
    record found: Contacts is rebuilt from the reference tags of the record
    and from nothing else, whatever it held before.  A pubkey is a Contact
    exactly when the record references it, with one row, which carries the
    relay and the petname of the last tag that references it; a reference
    tag without a value gives a row with a [NULL] key.  A record referencing
    only [A]: exactly one Contact, [A]. *)
Theorem graphSync_contacts_replace (self : string) (depth : option JsNumber)
    (relays : Relays) (now : Z) (db : SocialDb) :
  let db' := (graphSyncCommand (Some self) depth relays now db).2 in
  (relays (contact_list_filter self) = Some [] \/
   relays (contact_list_filter self) = None ->
   contacts db' = contacts db /\ (syncContacts relays self now db).2 = db) /\
  (forall ev rest,
     relays (contact_list_filter self) = Some (ev :: rest) ->
     (forall pk, is_contact db' pk <-> references ev pk) /\
     (forall pk, row_with_key pk (contacts db')
                 = row_of_tag now <$> last_reference ev pk) /\
     (forall pk, references ev pk ->
        length (filter (fun row => row.1 = Some pk) (contacts db')) = 1%nat) /\
     null_rows (contacts db')
       = (fun t => (None, row_of_tag now t)) <$> valueless_references ev /\
     getContactCount db' =
       (size (list_to_set (omap (fun t => t !! 1%nat) (reference_tags ev))
              : gset string)
        + length (valueless_references ev))%nat /\
     unique_keys (contacts db') /\
     (forall db0,
        contacts (graphSyncCommand (Some self) depth relays now db0).2
        = contacts db')) /\
  (forall ev rest A,
     relays (contact_list_filter self) = Some (ev :: rest) ->
     (exists t, t ∈ ev_tags ev /\ t !! 0%nat = Some "p") ->
     (forall t, t ∈ ev_tags ev -> t !! 0%nat = Some "p" -> t !! 1%nat = Some A) ->
     getContactCount db' = 1%nat /\ isContact db' A = true /\
     (forall pk, isContact db' pk = true -> pk = A) /\
     exists t, last (reference_tags ev) = Some t /\
       contacts db' = [(Some A, row_of_tag now t)]).
Proof.
  intros db'.
  assert (Hfound : forall d ev rest,
    relays (contact_list_filter self) = Some (ev :: rest) ->
    contacts (graphSyncCommand (Some self) depth relays now d).2 =
    foldl (fun t tag => insert_or_replace (tag !! 1%nat) (row_of_tag now tag) t)
      [] (reference_tags ev)).
  { intros d ev rest Hrel. rewrite graphSync_contacts_step1.
    by apply (syncContacts_found _ _ _ _ _ rest). }
  split_and!.
  - intros Hnone. pose proof (syncContacts_none relays self now db Hnone) as E.
    split; [|done]. unfold db'. by rewrite graphSync_contacts_step1, E.
  - intros ev rest Hrel.
    pose proof (Hfound db ev rest Hrel) as Hdb'. fold db' in Hdb'.
    unfold is_contact, getContactCount. rewrite Hdb'. split_and!.
    + intros pk. rewrite <- has_key_elem.
      rewrite (bulk_has_key (fun t => t !! 1%nat) (row_of_tag now)).
      simpl. rewrite bool_decide_eq_true. symmetry.
      apply references_reference_tags.
    + intros pk. rewrite (bulk_row_with_key (fun t => t !! 1%nat) (row_of_tag now)).
      unfold last_reference. by destruct (last _).
    + intros pk Href.
      rewrite (bulk_count_key (fun t => t !! 1%nat) (row_of_tag now)).
      rewrite decide_True; [done|]. by apply references_reference_tags.
    + by rewrite (bulk_null_rows (fun t => t !! 1%nat) (row_of_tag now)).
    + rewrite (bulk_length (fun t => t !! 1%nat) (row_of_tag now)) by constructor.
      rewrite keys_nil, null_rows_nil, list_to_set_nil.
      rewrite (left_id_L ∅ (∪)). unfold valueless_references. simpl. lia.
    + apply (bulk_unique_keys (fun t => t !! 1%nat) (row_of_tag now)). constructor.
    + intros db0. by apply (Hfound db0 ev rest).
  - intros ev rest A Hrel (t0 & Ht0 & Hp0) HA.
    pose proof (Hfound db ev rest Hrel) as Hdb'. fold db' in Hdb'.
    assert (Hall : Forall (fun t => t !! 1%nat = Some A) (reference_tags ev)).
    { apply Forall_forall. intros t [Ht Hp]%elem_of_reference_tags. by apply HA. }
    destruct (reference_tags ev) as [|t ts] eqn:Erefs.
    { assert (Hin : t0 ∈ reference_tags ev) by (by apply elem_of_reference_tags).
      rewrite Erefs in Hin. by apply elem_of_nil in Hin. }
    rewrite (foldl_same_key _ _ A ts t [] Hall) in Hdb'. simpl in Hdb'.
    unfold getContactCount, isContact. rewrite Hdb'. split_and!.
    + done.
    + unfold has_key, key_is. simpl. by rewrite bool_decide_eq_true_2.
    + intros pk. unfold has_key, key_is. simpl. rewrite orb_false_r.
      intros [= ->]%bool_decide_eq_true. done.
    + exists (default t (last ts)). split; [|done].
      rewrite last_cons. by destruct (last ts).
Qed.

(** The scenario of the specification.  The first record names [A] twice
    and carries tags that are no references: [A] and [B] are the Contacts,
    [A] with the relay of its last tag.  After the second sync [A] is the
    only Contact. *)
Lemma graphSync_contacts_scenario :
  let db1 := (graphSyncCommand (Some "me") None (relays_with record_AB) 1 emptyDb).2 in
  let db2 := (graphSyncCommand (Some "me") None (relays_with record_A) 2 db1).2 in
  (getContactCount db1 = 2%nat /\ isContact db1 "A" = true /\ isContact db1 "B" = true /\
   isContact db1 "X" = false /\
   row_with_key "A" (contacts db1) = Some (mkContactRow (Some "wss://a") None 1)) /\
  (getContactCount db2 = 1%nat /\ isContact db2 "A" = true /\
   (forall pk, isContact db2 pk = true -> pk = "A") /\
   contacts db2 = [(Some "A", mkContactRow None None 2)]).
Proof.
  intros db1 db2. split.
  - destruct (proj1 (proj2 (graphSync_contacts_replace "me" None
                (relays_with record_AB) 1 emptyDb)) record_AB [] eq_refl)
      as (_ & Hrow & _ & _ & Hcount & _).
    fold db1 in Hrow, Hcount. split_and!.
    + rewrite Hcount. vm_compute. reflexivity.
    + vm_compute. reflexivity.
    + vm_compute. reflexivity.
    + vm_compute. reflexivity.
    + rewrite Hrow. vm_compute. reflexivity.
  - destruct (proj2 (proj2 (graphSync_contacts_replace "me" None
                (relays_with record_A) 2 db1)) record_A [] "A" eq_refl)
      as (Hcount & HA & Honly & t & Ht & Hdb2).
    + exists ["p"; "A"]. split; [|reflexivity]. right. left.
    + intros t Ht Hp. simpl in Ht.
      repeat (apply elem_of_cons in Ht as [->|Ht]; [done || discriminate|]).
      by apply elem_of_nil in Ht.
    + fold db2 in Hcount, HA, Honly, Hdb2. split_and!; [done..|].
      rewrite Hdb2. injection Ht as <-. reflexivity.
Defined.

(** ** The stream filter *)

Lemma foldl_filter_step (judge : string -> Verdict) (lines : list string) (r : FilterRun) :
  foldl (filter_step judge) r lines =
  mkFilterRun
    (stdout r ++ filter (fun l => judge l = Passed) lines)
    (passed r + length (filter (fun l => judge l = Passed) lines))
    (filtered r + length (filter (fun l => judge l = Filtered) lines)).
Proof.
  revert r. induction lines as [|l lines IH]; intros r; simpl.
  - rewrite app_nil_r, !Nat.add_0_r. by destruct r.
  - rewrite IH, !filter_cons. unfold filter_step.
    destruct (judge l); simpl.
    + rewrite <- app_assoc. simpl. f_equal. lia.
    + f_equal. lia.
Qed.

(** *** Lines of the input *)

(** [split_lines] cuts at the line feeds and nowhere else: there is always
    a first piece, and joining the pieces with a line feed gives the string
    back. *)
Lemma split_lines_not_nil (s : string) : split_lines s <> [].
Proof.
  destruct s as [|c s]; simpl; [done|].
  destruct (decide (c = LF)); [done|]. by destruct (split_lines s).
Qed.

Lemma join_split_lines (s : string) : join_lines (split_lines s) = s.
Proof.
  induction s as [|c s IH]; [done|]. simpl.
  destruct (decide (c = LF)) as [->|Hc].
  - pose proof (split_lines_not_nil s) as Hne.
    simpl. destruct (split_lines s) as [|l ls]; [done|]. by rewrite IH.
  - pose proof (split_lines_not_nil s) as Hne.
    destruct (split_lines s) as [|l ls]; [done|].
    destruct ls as [|l' ls]; simpl in *; by rewrite <- IH.
Qed.

Lemma input_lines_nonempty (input : string) :
  EmptyString ∉ input_lines input.
Proof.
  unfold input_lines. intros Hin.
  apply list_elem_of_In, filter_In in Hin as [_ Hne]. done.
Qed.

Lemma input_lines_filter (input : string) :
  input_lines input = filter (fun l => l <> EmptyString) (split_lines (trim input)).
Proof.
  unfold input_lines. apply filter_bool_decide.
  intros l. unfold nonempty. rewrite negb_true_iff, bool_decide_eq_false. done.
Qed.











(** *** One run of the command *)

Section stream_filter.
Context (JSON_parse : string -> option JsValue) (driver : JsValue -> Verdict).
Context (db : SocialDb) (self : string).







Lemma verdict_partition (judge : string -> Verdict) (lines : list string) :
  (length (filter (fun l => judge l = Passed) lines) +
   length (filter (fun l => judge l = Filtered) lines))%nat = length lines.
Proof.
  induction lines as [|l lines IH]; [done|].
  rewrite !filter_cons. destruct (judge l); simpl; lia.
Qed.

(** What a run of the filter command leaves: the passed lines on stdout, in
    input order, and the two counters. *)
Lemma graphFilterCommand_run maxDistance input :
  graphFilterCommand JSON_parse driver (Some self) maxDistance db input =
  let judge := filter_line JSON_parse driver db self (default (Num 2%Z) maxDistance) in
  let lines := input_lines input in
  Some (mkFilterRun
          (filter (fun l => judge l = Passed) lines)
          (length (filter (fun l => judge l = Passed) lines))
          (length (filter (fun l => judge l = Filtered) lines))).
Proof. unfold graphFilterCommand. by rewrite foldl_filter_step. Qed.


(** C10.  The lines the filter processes are the pieces of the trimmed
    input between line feeds that are not empty: an empty piece is never
    printed, and the two counters add up to the number of non-empty
    pieces, so it is counted in neither. *)
Theorem graphFilterCommand_skips_empty_lines (maxDistance : option JsNumber)
    (input : string) :
  exists run,
    graphFilterCommand JSON_parse driver (Some self) maxDistance db input = Some run /\
    (EmptyString ∉ stdout run) /\
    sublist (stdout run) (filter (fun l => l <> EmptyString) (split_lines (trim input))) /\
    (passed run + filtered run)%nat =
      length (filter (fun l => l <> EmptyString) (split_lines (trim input))).
Proof.
  eexists. split; [apply graphFilterCommand_run|].
  cbn [stdout passed filtered]. rewrite <- input_lines_filter. split_and!.
  - intros Hin. apply list_elem_of_filter in Hin as [_ Hin].
    by apply input_lines_nonempty in Hin.
  - apply sublist_filter.
  - apply verdict_partition.
Qed.

End stream_filter.

(** ** Publish fan-out *)

Lemma collect_fulfilled_elem (relays : list string) (settled : list Settled)
    (i : nat) (x : option string) :
  x ∈ collect_fulfilled relays i settled <->
  exists j, settled !! j = Some Fulfilled /\ x = relays !! (i + j)%nat.
Proof.
  revert i. induction settled as [|s settled IH]; intros i; simpl.
  - split; [by intros ?%elem_of_nil|]. by intros (j & ? & _).
  - destruct s.
    + rewrite elem_of_cons, IH. split.
      * intros [-> | (j & Hj & ->)].
        -- exists 0%nat. by rewrite Nat.add_0_r.
        -- exists (S j). split; [done|]. f_equal. lia.
      * intros ([|j] & Hj & ->).
        -- left. by rewrite Nat.add_0_r.
        -- right. exists j. split; [done|]. f_equal. lia.
    + rewrite IH. split.
      * intros (j & Hj & ->). exists (S j). split; [done|]. f_equal. lia.
      * intros ([|j] & Hj & ->); [done|].
        exists j. split; [done|]. f_equal. lia.
Qed.

Lemma collect_fulfilled_zip (relays : list string) (settled : list Settled)
    (rest : list string) (i : nat) :
  (forall j, rest !! j = relays !! (i + j)%nat) ->
  length settled <= length rest ->
  collect_fulfilled relays i settled = Some <$> acknowledged rest settled.
Proof.
  unfold acknowledged.
  revert rest i. induction settled as [|s settled IH]; intros rest i Hrest Hlen.
  - by destruct rest.
  - destruct rest as [|r rest]; simpl in Hlen; [lia|].
    assert (Hi : relays !! i = Some r).
    { rewrite <- (Nat.add_0_r i), <- Hrest. done. }
    assert (Hrec : collect_fulfilled relays (S i) settled
                   = Some <$> (filter (fun p => p.2 = Fulfilled) (zip rest settled)).*1).
    { apply IH; [|lia]. intros j. specialize (Hrest (S j)). simpl in Hrest.
      rewrite Hrest. f_equal. lia. }
    simpl. rewrite filter_cons. destruct s; simpl.
    + by rewrite Hi, Hrec.
    + by rewrite Hrec.
Qed.

(** C7.  With one promise per endpoint, [publishEvent] returns exactly the
    endpoints whose send was fulfilled, in input order: a fulfilled send is
    in the result whatever the other sends did, and nothing else is.  The
    waiting itself ([Promise.allSettled]) is the list of the settled
    outcomes. *)
Theorem publishEvent_acknowledged (DEFAULT_RELAYS : list string)
    (pool_publish : list string -> Event -> list Settled)
    (event : Event) (relays : option (list string)) :
  let rs := default DEFAULT_RELAYS relays in
  let settled := pool_publish rs event in
  length settled = length rs ->
  publishEvent DEFAULT_RELAYS pool_publish event relays
    = Some <$> acknowledged rs settled /\
  sublist (acknowledged rs settled) rs /\
  (forall i r, rs !! i = Some r -> settled !! i = Some Fulfilled ->
     r ∈ acknowledged rs settled) /\
  (forall r, r ∈ acknowledged rs settled ->
     exists i, rs !! i = Some r /\ settled !! i = Some Fulfilled).
Proof.
  intros rs settled Hlen. split_and!.
  - unfold publishEvent. fold rs. fold settled.
    apply collect_fulfilled_zip; [done|lia].
  - unfold acknowledged.
    rewrite <- (fst_zip rs settled) at 2 by lia.
    apply fmap_sublist, sublist_filter.
  - intros i r Hr Hs. unfold acknowledged.
    apply list_elem_of_fmap. exists (r, Fulfilled). split; [done|].
    apply list_elem_of_filter. split; [done|].
    apply list_elem_of_lookup. exists i. apply lookup_zip_Some. done.
  - intros r Hin. unfold acknowledged in Hin.
    apply list_elem_of_fmap in Hin as [[r' s] [-> Hin]].
    apply list_elem_of_filter in Hin as [Hs Hin]. simpl in Hs. subst s.
    apply list_elem_of_lookup in Hin as [i Hi].
    apply lookup_zip_Some in Hi. by exists i.
Qed.

Lemma publishEvent_acknowledged_witness :
  publishEvent ["wss://a"; "wss://b"; "wss://c"] flaky_pool (mkEvent "me" 1 []) None
  = [Some "wss://a"; Some "wss://c"].
Proof.
  pose proof (publishEvent_acknowledged ["wss://a"; "wss://b"; "wss://c"]
                flaky_pool (mkEvent "me" 1 []) None eq_refl) as [H _].
  rewrite H. reflexivity.
Defined.

(** ** The fixture graph of the specification *)

(** The end-to-end scenario of the specification, evaluated. *)
Example fixture_distances :
  getTrustDistance fixture "M" "M" = Some 0%Z /\
  getTrustDistance fixture "A" "M" = Some 1%Z /\
  getTrustDistance fixture "C" "M" = Some 2%Z /\
  getTrustDistance fixture "E" "M" = Some 2%Z /\
  getTrustDistance fixture "Stranger" "M" = None.
Proof. vm_compute. done. Qed.

Example fixture_filter :
  filterByTrustDistance fixture everyone "M" (Num 1) = ["M"; "A"; "B"] /\
  filterByTrustDistance fixture everyone "M" (Num 2) = ["M"; "A"; "B"; "C"; "D"; "E"] /\
  filterByTrustDistance fixture everyone "M" NaN = [] /\
  filterByTrustDistance (addMute fixture "A" 9) everyone "M" (Num 1) = ["M"; "B"].
Proof. vm_compute. done. Qed.

Example fixture_stats :
  getGraphStats fixture = mkGraphStats 3 4 1 /\
  map fst (getContacts fixture) = [Some "B"; Some "A"] /\
  row_with_key "B" (contacts fixture) = Some (mkContactRow (Some "wss://b") None 2).
Proof. vm_compute. done. Qed.

(** Rows with the same stamp are listed in the order in which they were
    inserted; a reference tag without a value gives a row with a [NULL]
    key, listed with the others. *)
Example listing_order :
  map fst (getContacts synced) = [Some "Zoe"; Some "Adam"; Some "Mia"] /\
  map fst (getContacts (addContact synced "Zoe" None None 5))
    = [Some "Adam"; Some "Mia"; Some "Zoe"] /\
  map fst (getContacts (addContact synced "Bob" None None 9))
    = [Some "Bob"; Some "Zoe"; Some "Adam"; Some "Mia"] /\
  map fst (getContacts
             (graphSyncCommand (Some "me") None (relays_with record_A_valueless) 7
                synced).2)
    = [Some "A"; None].
Proof. vm_compute. done. Qed.

(** *** A run of the stream filter on the fixture *)

Example trim_split_example :
  trim toy_input =
    "@A" +:+ nl +:+ nl +:+ "oops" +:+ nl +:+ "@Spammer" +:+ nl +:+
    "null" +:+ nl +:+ "@Stranger" +:+ nl +:+ "{}" +:+ nl +:+ "@" +:+ nl +:+ "@E" /\
  split_lines ("a" +:+ nl +:+ nl +:+ "b" +:+ nl) = ["a"; EmptyString; "b"; EmptyString] /\
  split_lines EmptyString = [EmptyString] /\
  input_lines toy_input =
    ["@A"; "oops"; "@Spammer"; "null"; "@Stranger"; "{}"; "@"; "@E"].
Proof. vm_compute. done. Qed.

Example stream_filter_run :
  graphFilterCommand toy_parse refusing_driver (Some "M") None fixture toy_input
  = Some (mkFilterRun ["@A"; "oops"; "null"; "{}"; "@"; "@E"] 6 2) /\
  graphFilterCommand toy_parse refusing_driver (Some "M") (Some (Num 1)) fixture toy_input
  = Some (mkFilterRun ["@A"; "oops"; "null"; "{}"; "@"] 5 3) /\
  graphFilterCommand toy_parse refusing_driver None None fixture toy_input = None.
Proof. vm_compute. done. Qed.


(** The trimmed sample input has nine pieces, eight of them not empty. *)
Lemma graphFilterCommand_skips_empty_lines_witness :
  exists run,
    graphFilterCommand toy_parse refusing_driver (Some "M") None fixture toy_input
      = Some run /\
    (EmptyString ∉ stdout run) /\
    (passed run + filtered run)%nat = 8%nat /\
    length (split_lines (trim toy_input)) = 9%nat.
Proof.
  destruct (graphFilterCommand_skips_empty_lines toy_parse refusing_driver
              fixture "M" None toy_input)
    as (run & Hrun & Hempty & _ & Hcount).
  exists run. split_and!; [done|done| |].
  - rewrite Hcount. vm_compute. reflexivity.
  - vm_compute. reflexivity.
Defined.

(** The resolver on the fixture, case by case, and on an edge cached at
    distance 41. *)
Lemma getTrustDistance_spec_witness :
  distance_spec fixture "M" "M" (Some 0%Z) /\
  distance_spec fixture "B" "M" (Some 1%Z) /\
  distance_spec fixture "D" "M" (Some 2%Z) /\
  distance_spec fixture "Stranger" "M" None /\
  getTrustDistance
    (updateGraphCache (addContact emptyDb "B" None None 1) "B" ["Z"] 41 9) "Z" "M"
    = Some 42%Z.
Proof.
  split_and!;
    try (apply (proj1 (getTrustDistance_spec fixture _ "M")); vm_compute; reflexivity).
  apply (proj2 (getTrustDistance_spec
                  (updateGraphCache (addContact emptyDb "B" None None 1) "B" ["Z"] 41 9)
                  "Z" "M") 41%Z).
  - discriminate.
  - apply isContact_false. vm_compute. reflexivity.
  - split.
    + exists "B", (mkEdgeRow 41 9). split_and!; [|vm_compute; reflexivity|done].
      apply isContact_is_contact. vm_compute. reflexivity.
    + intros d (s & row & _ & Hrow & <-).
      rewrite updateGraphCache_lookup in Hrow.
      destruct (bool_decide (s = "B" /\ "Z" ∈ ["Z"])).
      * injection Hrow as <-. simpl. lia.
      * simpl in Hrow. by rewrite lookup_empty in Hrow.
  - simpl. lia.
Defined.

(** The filter on the fixture: the authors it keeps at distance 1 are the
    trusted ones, and a muted contact is not among them. *)
Lemma filterByTrustDistance_spec_witness :
  filter (trusted fixture "M" (Num 1)) everyone = ["M"; "A"; "B"] /\
  "A" ∉ filterByTrustDistance (addMute fixture "A" 9) everyone "M" (Num 1).
Proof.
  split.
  - destruct (filterByTrustDistance_spec fixture everyone "M" (Num 1)) as [<- _].
    vm_compute. reflexivity.
  - destruct (filterByTrustDistance_spec (addMute fixture "A" 9) everyone "M" (Num 1))
      as (_ & _ & _ & Hmuted).
    apply Hmuted. apply isMuted_is_muted. vm_compute. reflexivity.
Defined.

(** * Further properties of the code *)

(** ** The Contacts relation *)

(** X1.  [addContact] is an upsert: the pubkey is a Contact afterwards,
    with one row, which carries exactly the given relay and petname (an
    empty one stored as null) and the new stamp, whatever row it had, and
    which is the last of the table; every other row is untouched; the
    count grows by one for a new pubkey and, on a relation that respects
    its primary key, only then; adding twice is adding the second time; the
    Mutes and the cache are untouched. *)
Theorem addContact_upsert (db : SocialDb) (pk : string)
    (r p : option string) (now : Z) :
  let db' := addContact db pk r p now in
  row_with_key pk (contacts db') = Some (mkContactRow (or_null r) (or_null p) now) /\
  length (filter (fun row => row.1 = Some pk) (contacts db')) = 1%nat /\
  last (contacts db') = Some (Some pk, mkContactRow (or_null r) (or_null p) now) /\
  isContact db' pk = true /\
  (forall pk', pk' <> pk ->
     row_with_key pk' (contacts db') = row_with_key pk' (contacts db)) /\
  (forall row, row.1 <> Some pk -> row ∈ contacts db' <-> row ∈ contacts db) /\
  (isContact db pk = false -> getContactCount db' = S (getContactCount db)) /\
  (unique_keys (contacts db) ->
     unique_keys (contacts db') /\
     getContactCount db' =
       (if isContact db pk then getContactCount db else S (getContactCount db))) /\
  (forall r0 p0 t0, addContact (addContact db pk r0 p0 t0) pk r p now = db') /\
  mutes db' = mutes db /\ graph_cache db' = graph_cache db.
Proof.
  intros db'. subst db'. unfold addContact.
  cbn [contacts mutes graph_cache set_contacts]. split_and!; try done.
  - rewrite row_with_key_insert. by rewrite decide_True.
  - rewrite count_key_insert. by rewrite decide_True.
  - unfold insert_or_replace. apply last_snoc.
  - unfold isContact. cbn [contacts set_contacts]. rewrite has_key_insert.
    by rewrite bool_decide_eq_true_2.
  - intros pk' Hne. rewrite row_with_key_insert.
    rewrite decide_False; [done|congruence].
  - intros row Hne. rewrite elem_of_insert. split.
    + intros [->|[Hin _]]; [done|done].
    + intros Hin. right. split; [done|]. intros Hk. done.
  - intros Hno. unfold getContactCount. cbn [contacts set_contacts]. unfold insert_or_replace.
    rewrite (delete_key_id _ _ Hno), length_app. simpl. lia.
  - intros Hu. split; [by apply unique_keys_insert|].
    unfold getContactCount, isContact. cbn [contacts set_contacts].
    by rewrite length_insert.
  - intros r0 p0 t0. unfold set_contacts. cbn [contacts mutes graph_cache].
    by rewrite insert_insert.
Qed.

Lemma addContact_upsert_witness :
  let db := addContact fixture "A" (Some "wss://a") (Some "alice") 7 in
  row_with_key "A" (contacts db) = Some (mkContactRow (Some "wss://a") (Some "alice") 7) /\
  getContactCount db = 2%nat /\
  getContactCount (addContact fixture "Z" None None 7) = 3%nat /\
  map fst (contacts db) = [Some "B"; Some "A"].
Proof.
  split_and!.
  - apply (addContact_upsert fixture "A").
  - destruct (addContact_upsert fixture "A" (Some "wss://a") (Some "alice") 7)
      as (_ & _ & _ & _ & _ & _ & _ & Hc & _).
    destruct Hc as [_ ->]; [|reflexivity].
    vm_compute. repeat constructor; set_solver.
  - destruct (addContact_upsert fixture "Z" None None 7)
      as (_ & _ & _ & _ & _ & _ & -> & _); reflexivity.
  - reflexivity.
Defined.

(** X2.  [removeContact] answers whether the pubkey was a Contact, and it
    is none afterwards; the other rows stay, in their order; on a relation
    that respects its primary key the count drops by one when the pubkey
    was a Contact; removing a pubkey that is no Contact leaves the store as
    it is. *)
Theorem removeContact_spec (db : SocialDb) (pk : string) :
  let r := removeContact db pk in
  r.1 = isContact db pk /\
  isContact r.2 pk = false /\
  (forall pk', pk' <> pk ->
     row_with_key pk' (contacts r.2) = row_with_key pk' (contacts db)) /\
  (forall row, row ∈ contacts r.2 <-> row ∈ contacts db /\ row.1 <> Some pk) /\
  sublist (contacts r.2) (contacts db) /\
  (unique_keys (contacts db) ->
     unique_keys (contacts r.2) /\
     getContactCount r.2 =
       (if isContact db pk then pred (getContactCount db) else getContactCount db)) /\
  (isContact db pk = false -> r.2 = db) /\
  mutes r.2 = mutes db /\ graph_cache r.2 = graph_cache db.
Proof.
  intros r. subst r. unfold removeContact.
  cbn [fst snd contacts mutes graph_cache set_contacts]. split_and!; try done.
  - unfold isContact. cbn [contacts set_contacts]. rewrite has_key_delete.
    by rewrite bool_decide_eq_true_2.
  - intros pk' Hne. rewrite row_with_key_delete. by rewrite decide_False.
  - intros row. apply elem_of_delete_key.
  - rewrite delete_key_filter. apply sublist_filter.
  - intros Hu. split; [by apply unique_keys_delete|].
    unfold getContactCount, isContact. cbn [contacts set_contacts]. by apply length_delete_key.
  - intros E. rewrite (delete_key_id _ _ E). apply set_contacts_id.
Qed.

Lemma removeContact_spec_witness :
  (removeContact fixture "Stranger").2 = fixture /\
  (removeContact fixture "A").1 = true /\
  getContactCount (removeContact fixture "A").2 = 1%nat.
Proof.
  destruct (removeContact_spec fixture "Stranger") as (_ & _ & _ & _ & _ & _ & Hid & _).
  destruct (removeContact_spec fixture "A") as (Hr & _ & _ & _ & _ & Hc & _).
  split_and!.
  - apply Hid. reflexivity.
  - rewrite Hr. reflexivity.
  - destruct Hc as [_ ->]; [|reflexivity].
    vm_compute. repeat constructor; set_solver.
Defined.

(** ** The listings *)

Lemma listing_rows {R} (stamp : R -> Z) (t : Table R) (pk : string) (r : R) :
  unique_keys t ->
  (Some pk, r) ∈ order_by_desc stamp t <-> row_with_key pk t = Some r.
Proof.
  intros Hu. rewrite elem_of_order_by_desc. split.
  - by apply has_key_unique_elem.
  - apply row_with_key_elem.
Qed.

(** X3.  [getContacts] and [getMutes] list the rows of their relation,
    each once, most recently added first, the rows with the same stamp in
    the order of the table; their length is the count; on a relation that
    respects its primary key no pubkey is listed twice. *)
Theorem listings_sorted (db : SocialDb) :
  (Sorted added_desc (getContacts db) /\
   getContacts db ≡ₚ contacts db /\
   (forall s, filter (fun c => added_at c.2 = s) (getContacts db)
              = filter (fun c => added_at c.2 = s) (contacts db)) /\
   (unique_keys (contacts db) ->
      NoDup (keys (getContacts db)) /\
      forall pk row, (Some pk, row) ∈ getContacts db <->
                     row_with_key pk (contacts db) = Some row) /\
   length (getContacts db) = getContactCount db) /\
  (Sorted mute_added_desc (getMutes db) /\
   getMutes db ≡ₚ mutes db /\
   (forall s, filter (fun m => m.2 = s) (getMutes db)
              = filter (fun m => m.2 = s) (mutes db)) /\
   (unique_keys (mutes db) ->
      NoDup (keys (getMutes db)) /\
      forall pk t, (Some pk, t) ∈ getMutes db <-> row_with_key pk (mutes db) = Some t) /\
   length (getMutes db) = getMuteCount db).
Proof.
  split.
  - unfold getContacts, getContactCount. split_and!.
    + apply (order_by_desc_Sorted added_at).
    + apply order_by_desc_Permutation.
    + intros s. apply (order_by_desc_stable added_at).
    + intros Hu. split.
      * by rewrite keys_order_by_desc.
      * intros pk row. by apply listing_rows.
    + apply length_order_by_desc.
  - unfold getMutes, getMuteCount. split_and!.
    + apply (order_by_desc_Sorted (fun added_at : Z => added_at)).
    + apply order_by_desc_Permutation.
    + intros s. apply (order_by_desc_stable (fun added_at : Z => added_at)).
    + intros Hu. split.
      * by rewrite keys_order_by_desc.
      * intros pk row. by apply listing_rows.
    + apply length_order_by_desc.
Qed.

Lemma listings_sorted_witness :
  getContacts fixture =
    [(Some "B", mkContactRow (Some "wss://b") None 2);
     (Some "A", mkContactRow None None 1)] /\
  Sorted added_desc (getContacts fixture) /\
  getMutes (addMute fixture "Troll" 9) = [(Some "Troll", 9%Z); (Some "Spammer", 4%Z)] /\
  filter (fun c => added_at c.2 = 5%Z) (getContacts (addContact synced "New" None None 6))
    = contacts synced.
Proof.
  split_and!.
  - vm_compute. reflexivity.
  - apply (listings_sorted fixture).
  - vm_compute. reflexivity.
  - destruct (listings_sorted (addContact synced "New" None None 6))
      as ((_ & _ & -> & _) & _).
    vm_compute. reflexivity.
Defined.

(** X4.  After [clearContacts] there is no Contact and the listing is
    empty, Mutes and cache are as before, and the resolver knows nobody but
    self: the cached edges stay, but none has a Contact as source. *)
Theorem clearContacts_resolver (db : SocialDb) (target self : string) :
  getContactCount (clearContacts db) = 0%nat /\
  getContacts (clearContacts db) = [] /\
  mutes (clearContacts db) = mutes db /\
  graph_cache (clearContacts db) = graph_cache db /\
  getTrustDistance (clearContacts db) target self =
    if decide (target = self) then Some 0%Z else None.
Proof.
  split_and!; try done.
  unfold getTrustDistance. destruct (decide (target = self)); [done|].
  rewrite bool_decide_eq_false_2.
  - apply min_distance_plus_1_None. intros d (s & row & Hs & _).
    unfold is_contact in Hs. simpl in Hs. by apply elem_of_nil in Hs.
  - simpl. apply not_elem_of_nil.
Qed.

Lemma clearContacts_resolver_witness :
  getTrustDistance (clearContacts fixture) "A" "M" = None /\
  getTrustDistance (clearContacts fixture) "C" "M" = None /\
  getTrustDistance (clearContacts fixture) "M" "M" = Some 0%Z /\
  size (graph_cache (clearContacts fixture)) = 4%nat.
Proof.
  split_and!.
  - apply (clearContacts_resolver fixture "A" "M").
  - apply (clearContacts_resolver fixture "C" "M").
  - apply (clearContacts_resolver fixture "M" "M").
  - vm_compute. reflexivity.
Defined.

(** ** The Mutes relation *)

Lemma foldl_insert_mute_row (now : Z) (pks : list (option string))
    (t : Table Z) (pk : string) :
  row_with_key pk (foldl (fun t x => insert_or_replace x now t) t pks) =
  if bool_decide (Some pk ∈ pks) then Some now else row_with_key pk t.
Proof.
  revert t. induction pks as [|x pks IH]; intros t; cbn [foldl].
  - rewrite bool_decide_eq_false_2; [done|]. apply not_elem_of_nil.
  - rewrite IH, row_with_key_insert.
    destruct (decide (Some pk ∈ pks)) as [Hin|Hnin].
    + rewrite !bool_decide_eq_true_2; [done| |done]. by right.
    + rewrite (bool_decide_eq_false_2 _ Hnin).
      destruct (decide (x = Some pk)) as [->|Hne].
      * rewrite bool_decide_eq_true_2; [done|left].
      * rewrite bool_decide_eq_false_2; [done|].
        intros [Heq|?]%elem_of_cons; done.
Qed.

(** X5.  [bulkInsertMutes] mutes exactly the listed pubkeys on top of those
    muted before, stamping the listed ones anew; an element without a
    pubkey adds a row with a [NULL] key; on a relation that respects its
    primary key repeated pubkeys count once; an empty list changes nothing;
    Contacts and cache are untouched. *)
Theorem bulkInsertMutes_spec (db : SocialDb) (pks : list (option string)) (now : Z) :
  let db' := bulkInsertMutes db pks now in
  (forall pk, row_with_key pk (mutes db') =
     if bool_decide (Some pk ∈ pks) then Some now else row_with_key pk (mutes db)) /\
  (forall pk, isMuted db' pk = isMuted db pk || bool_decide (Some pk ∈ pks)) /\
  (forall pk, Some pk ∈ pks ->
     length (filter (fun row => row.1 = Some pk) (mutes db')) = 1%nat) /\
  null_rows (mutes db') =
    (null_rows (mutes db) ++
     ((fun _ => (None, now)) <$> filter (fun x => x = None) pks))%list /\
  (unique_keys (mutes db) ->
     unique_keys (mutes db') /\
     getMuteCount db' =
       (size (list_to_set (keys (mutes db)) ∪ list_to_set (omap id pks) : gset string)
        + length (null_rows (mutes db))
        + length (filter (fun x => x = None) pks))%nat) /\
  bulkInsertMutes db [] now = db /\
  contacts db' = contacts db /\ graph_cache db' = graph_cache db.
Proof.
  simpl. split_and!; try done.
  - intros pk. apply foldl_insert_mute_row.
  - intros pk. unfold isMuted. simpl.
    rewrite (bulk_has_key (fun x : option string => x) (fun _ => now)).
    by rewrite list_fmap_id.
  - intros pk Hin.
    rewrite (bulk_count_key (fun x : option string => x) (fun _ => now)).
    rewrite decide_True; [done|]. by rewrite list_fmap_id.
  - apply (bulk_null_rows (fun x : option string => x) (fun _ => now)).
  - intros Hu. split.
    + by apply (bulk_unique_keys (fun x : option string => x) (fun _ => now)).
    + by apply (bulk_length (fun x : option string => x) (fun _ => now)).
  - apply set_mutes_id.
Qed.

Lemma bulkInsertMutes_spec_witness :
  let db' := bulkInsertMutes fixture [Some "Troll"; None; Some "Troll"; Some "A"] 9 in
  getMuteCount db' = 4%nat /\ isMuted db' "Spammer" = true /\
  isMuted db' "A" = true /\ isMuted db' "B" = false /\
  mutes db' = [(Some "Spammer", 4%Z); (None, 9%Z); (Some "Troll", 9%Z); (Some "A", 9%Z)].
Proof.
  destruct (bulkInsertMutes_spec fixture [Some "Troll"; None; Some "Troll"; Some "A"] 9)
    as (_ & Hm & _ & _ & Hc & _).
  simpl. split_and!.
  - destruct Hc as [_ ->]; [|vm_compute; reflexivity].
    vm_compute. repeat constructor; set_solver.
  - rewrite Hm. reflexivity.
  - rewrite Hm. reflexivity.
  - rewrite Hm. reflexivity.
  - reflexivity.
Defined.

(** ** The graph cache *)

(** X6.  [updateGraphCache] overwrites: a listed edge carries the distance
    of the last call, also when a smaller one was cached (no minimum is
    taken); the edges that are not listed, the Contacts and the Mutes stay;
    an empty list of follows changes nothing. *)
Theorem updateGraphCache_overwrites (db : SocialDb) (source : string)
    (follows : list string) (d1 d2 t1 t2 : Z) :
  updateGraphCache (updateGraphCache db source follows d1 t1) source follows d2 t2
    = updateGraphCache db source follows d2 t2 /\
  (forall t, t ∈ follows ->
     graph_cache (updateGraphCache db source follows d2 t2) !! (source, t)
       = Some (mkEdgeRow d2 t2)) /\
  (forall s t, ~ (s = source /\ t ∈ follows) ->
     graph_cache (updateGraphCache db source follows d2 t2) !! (s, t)
       = graph_cache db !! (s, t)) /\
  updateGraphCache db source [] d2 t2 = db.
Proof.
  split_and!.
  - apply SocialDb_eq; [done..|]. apply map_eq. intros [s t].
    rewrite !updateGraphCache_lookup. by destruct (bool_decide _).
  - intros t Ht. rewrite updateGraphCache_lookup, bool_decide_eq_true_2; done.
  - intros s t Hn. rewrite updateGraphCache_lookup, bool_decide_eq_false_2; done.
  - by destruct db.
Qed.

Lemma updateGraphCache_overwrites_witness :
  let db := updateGraphCache fixture "A" ["C"] 5 8 in
  graph_cache db !! ("A", "C") = Some (mkEdgeRow 5 8) /\
  graph_cache db !! ("A", "D") = Some (mkEdgeRow 1 3) /\
  getTrustDistance db "C" "M" = Some 6%Z.
Proof.
  destruct (updateGraphCache_overwrites fixture "A" ["C"] 1 5 3 8)
    as (_ & Hin & Hout & _).
  split_and!.
  - apply Hin. left.
  - rewrite Hout; [vm_compute; reflexivity|].
    intros [_ Hd]. apply list_elem_of_singleton in Hd. discriminate.
  - vm_compute. reflexivity.
Defined.

Lemma sql_max_None (l : list Z) : sql_max l = None <-> l = [].
Proof.
  destruct l as [|x l]; simpl; [done|].
  destruct (sql_max l); split; discriminate.
Qed.

Lemma sql_max_Some (l : list Z) (m : Z) :
  sql_max l = Some m -> m ∈ l /\ forall x, x ∈ l -> (x <= m)%Z.
Proof.
  revert m. induction l as [|x l IH]; intros m; simpl; [discriminate|].
  destruct (sql_max l) as [m'|] eqn:E.
  - intros [= <-]. destruct (IH m' eq_refl) as [Hin Hle]. split.
    + destruct (Z.max_spec x m') as [[_ ->]|[_ ->]]; [by right|left].
    + intros y [->|Hy]%elem_of_cons; [lia|]. specialize (Hle y Hy). lia.
  - intros [= <-]. apply sql_max_None in E. subst l. split; [left|].
    intros y [->|Hy]%elem_of_cons; [lia|]. by apply elem_of_nil in Hy.
Qed.

Lemma length_remove_dups_le (l : list string) :
  length (remove_dups l) <= length l.
Proof.
  induction l as [|x l IH]; simpl; [done|].
  destruct (decide_rel elem_of x l); simpl; lia.
Qed.

(** X7.  [getGraphStats]: [totalEdges] is the number of cached edges,
    [totalNodes] the number of distinct targets and never more than
    [totalEdges]; on an empty cache all three figures are 0; otherwise
    [maxDistance] is the distance of some cached edge and no cached edge
    has a larger one. *)
Theorem getGraphStats_spec (db : SocialDb) :
  let st := getGraphStats db in
  totalEdges st = size (graph_cache db) /\
  totalNodes st = size (cached_targets db) /\
  (forall t, t ∈ cached_targets db <->
     exists s row, graph_cache db !! (s, t) = Some row) /\
  totalNodes st <= totalEdges st /\
  (graph_cache db = ∅ -> st = mkGraphStats 0 0 0) /\
  (graph_cache db <> ∅ ->
     (exists k row, graph_cache db !! k = Some row /\ distance row = maxDistance st) /\
     (forall k row, graph_cache db !! k = Some row ->
        (distance row <= maxDistance st)%Z)).
Proof.
  intros st. subst st. unfold getGraphStats.
  cbn [totalEdges totalNodes maxDistance]. split_and!; try done.
  - intros t. unfold cached_targets.
    rewrite elem_of_list_to_set, list_elem_of_fmap. split.
    + intros [[[s t'] row] [-> Hin]]. apply elem_of_map_to_list in Hin. eauto.
    + intros (s & row & Hrow). exists ((s, t), row). split; [done|].
      by apply elem_of_map_to_list.
  - rewrite size_list_to_set_remove_dups.
    etrans; [apply length_remove_dups_le|].
    by rewrite length_map, length_map_to_list.
  - intros E. rewrite E, map_to_list_empty. done.
  - intros Hne.
    destruct (sql_max (map (fun row => distance row.2) (map_to_list (graph_cache db))))
      as [m|] eqn:E; simpl.
    + apply sql_max_Some in E as [Hin Hle]. split.
      * apply list_elem_of_fmap in Hin as [[k row] [-> Hin]].
        apply elem_of_map_to_list in Hin. eauto.
      * intros k row Hrow. apply Hle, list_elem_of_fmap.
        exists (k, row). split; [done|]. by apply elem_of_map_to_list.
    + apply sql_max_None, fmap_nil_inv, map_to_list_empty_iff in E. done.
Qed.

Lemma getGraphStats_spec_witness :
  getGraphStats fixture = mkGraphStats 3 4 1 /\
  getGraphStats (clearGraphCache fixture) = mkGraphStats 0 0 0 /\
  maxDistance (getGraphStats (updateGraphCache emptyDb "A" ["C"] (-3) 0)) = (-3)%Z.
Proof.
  split_and!.
  - vm_compute. reflexivity.
  - apply (getGraphStats_spec (clearGraphCache fixture)). reflexivity.
  - vm_compute. reflexivity.
Defined.

(** ** Edges and the resolver *)

Lemma min_distance_plus_1_ext (db1 db2 : SocialDb) (t : string) :
  (forall d, contact_edge db1 t d <-> contact_edge db2 t d) ->
  min_distance_plus_1 db1 t = min_distance_plus_1 db2 t.
Proof.
  intros Hiff.
  destruct (min_distance_plus_1 db1 t) as [r|] eqn:E1.
  - apply min_distance_plus_1_Some in E1 as (m & -> & Hm & Hmin).
    symmetry. apply min_distance_plus_1_Some. exists m. split; [done|]. split.
    + by apply Hiff.
    + intros d Hd. by apply Hmin, Hiff.
  - symmetry. apply min_distance_plus_1_None. intros d Hd%Hiff.
    by apply (proj1 (min_distance_plus_1_None db1 t) E1 d).
Qed.

(** X8.  Cached edges whose source is not a Contact are dead weight: after
    [updateGraphCache] for a source that is no Contact the resolver answers
    as before for every target, and so does the filter. *)
Theorem non_contact_source_ignored (db : SocialDb) (source : string)
    (follows : list string) (d now : Z) :
  isContact db source = false ->
  (forall t self,
     getTrustDistance (updateGraphCache db source follows d now) t self
       = getTrustDistance db t self) /\
  (forall authors self maxD,
     filterByTrustDistance (updateGraphCache db source follows d now) authors self maxD
       = filterByTrustDistance db authors self maxD).
Proof.
  intros Hsrc. apply isContact_false in Hsrc.
  assert (Hdist : forall t self,
     getTrustDistance (updateGraphCache db source follows d now) t self
       = getTrustDistance db t self).
  { intros t self. unfold getTrustDistance.
    destruct (decide (t = self)); [done|].
    change (getContacts (updateGraphCache db source follows d now))
      with (getContacts db).
    destruct (bool_decide (Some t ∈ map fst (getContacts db))); [done|].
    apply min_distance_plus_1_ext. intros d'. unfold contact_edge, is_contact.
    rewrite updateGraphCache_contacts.
    split; intros (s & row & Hs & Hrow & Hd); exists s, row;
      (split; [done|]); (split; [|done]).
    - rewrite updateGraphCache_lookup in Hrow.
      destruct (decide (s = source /\ t ∈ follows)) as [[-> _]|Hn]; [done|].
      by rewrite bool_decide_eq_false_2 in Hrow.
    - rewrite updateGraphCache_lookup, bool_decide_eq_false_2; [done|].
      intros [-> _]. done. }
  split; [done|].
  intros authors self maxD. unfold filterByTrustDistance.
  apply List.filter_ext. intros a.
  change (isMuted (updateGraphCache db source follows d now) a) with (isMuted db a).
  by rewrite Hdist.
Qed.

Lemma non_contact_source_ignored_witness :
  getTrustDistance (updateGraphCache fixture "Stranger" ["Z"] 1 9) "Z" "M" = None /\
  filterByTrustDistance (updateGraphCache fixture "Stranger" ["Z"] 1 9)
    ("Z" :: everyone) "M" (Num 2) = ["M"; "A"; "B"; "C"; "D"; "E"].
Proof.
  destruct (non_contact_source_ignored fixture "Stranger" ["Z"] 1 9) as [Hd Hf].
  { reflexivity. }
  split.
  - rewrite Hd. vm_compute. reflexivity.
  - rewrite Hf. vm_compute. reflexivity.
Defined.

Lemma unit_edges_distance (db : SocialDb) (t self : string) (d : Z) :
  unit_edges db -> getTrustDistance db t self = Some d ->
  d = 0%Z \/ d = 1%Z \/ d = 2%Z.
Proof.
  intros Hunit. unfold getTrustDistance.
  destruct (decide (t = self)); [intros [= <-]; auto|].
  destruct (bool_decide _); [intros [= <-]; auto|].
  intros (m & -> & (s & row & _ & Hrow & Hm) & _)%min_distance_plus_1_Some.
  apply Hunit in Hrow. right. right. rewrite <- Hm, Hrow. reflexivity.
Qed.

Lemma updateGraphCache_unit_edges db source follows now :
  unit_edges db -> unit_edges (updateGraphCache db source follows 1 now).
Proof.
  intros Hunit [s t] row Hrow. rewrite updateGraphCache_lookup in Hrow.
  destruct (bool_decide _).
  - by injection Hrow as <-.
  - by eapply Hunit.
Qed.

Lemma buildGraphCache_unit_edges relays depth now :
  inv_cmd unit_edges (buildGraphCache relays depth now) (fun _ => True).
Proof.
  unfold buildGraphCache.
  destruct (js_gt _ 1); [|by apply inv_ret].
  eapply inv_bind.
  { apply inv_exec. intros db _ k row Hrow. simpl in Hrow.
    by rewrite lookup_empty in Hrow. }
  intros _ _. eapply inv_bind; [apply inv_get|]. intros cs _.
  destruct (0 <? length (map fst cs))%nat; [|by apply inv_ret].
  eapply inv_bind; [apply inv_of_option|]. intros evs _.
  apply inv_for_each. intros ev _. unfold cacheFollows.
  eapply inv_bind; [apply inv_of_option|]. intros follows _.
  apply inv_exec. intros db Hdb. by apply updateGraphCache_unit_edges.
Qed.

Lemma graphSync_unit_edges keyPair depth relays now :
  inv_cmd unit_edges (graphSyncCommand keyPair depth relays now) (fun _ => True).
Proof.
  unfold graphSyncCommand. destruct keyPair as [self|]; [|apply inv_raise].
  eapply inv_bind.
  { apply (syncContacts_cache_frame
             (fun g => forall k row, g !! k = Some row -> distance row = 1%Z)). }
  intros _ _. eapply inv_bind.
  { apply (syncMutes_cache_frame
             (fun g => forall k row, g !! k = Some row -> distance row = 1%Z)). }
  intros _ _. apply buildGraphCache_unit_edges.
Qed.

(** X9.  The sync writes edges at distance 1 only.  So when every cached
    edge has distance 1, it still has after a run of the sync command,
    however the run ends, and the resolver then never answers anything but
    0, 1, 2 or unknown. *)
Theorem graphSync_distance_at_most_2 (keyPair : option string)
    (depth : option JsNumber) (relays : Relays) (now : Z) (db : SocialDb) :
  unit_edges db ->
  let db' := (graphSyncCommand keyPair depth relays now db).2 in
  unit_edges db' /\
  forall t self d, getTrustDistance db' t self = Some d ->
    d = 0%Z \/ d = 1%Z \/ d = 2%Z.
Proof.
  intros Hdb db'.
  assert (Hdb' : unit_edges db') by (by apply graphSync_unit_edges).
  split; [done|]. intros t self d. by apply unit_edges_distance.
Qed.

Lemma graphSync_distance_at_most_2_witness :
  let db' := (graphSyncCommand (Some "me") None plain_relays 7 emptyDb).2 in
  unit_edges db' /\ getTrustDistance db' "X" "me" = Some 2%Z.
Proof.
  split.
  - apply graphSync_distance_at_most_2.
    intros k row Hrow. simpl in Hrow. by rewrite lookup_empty in Hrow.
  - vm_compute. reflexivity.
Defined.

(** ** Composing the filter *)

Lemma list_filter_narrow {A} (f g : A -> bool) (l : list A) :
  (forall x, f x = true -> g x = true) ->
  List.filter f (List.filter g l) = List.filter f l.
Proof.
  intros Hfg. induction l as [|x l IH]; [done|]. simpl.
  destruct (g x) eqn:Eg; simpl.
  - by rewrite IH.
  - destruct (f x) eqn:Ef; [|done]. apply Hfg in Ef. congruence.
Qed.

Lemma list_filter_none {A} (f : A -> bool) (l : list A) :
  (forall x, f x = false) -> List.filter f l = [].
Proof.
  intros Hf. induction l as [|x l IH]; [done|]. simpl. by rewrite Hf.
Qed.

(** X10.  Filtering is narrowing: filtering at a distance the result of a
    filter at a larger distance is filtering at the smaller one, so the
    filter is idempotent and its result shrinks with [maxDistance]; with
    [NaN] nothing is kept. *)
Theorem filterByTrustDistance_narrow (db : SocialDb) (authors : list string)
    (self : string) (m1 m2 : Z) :
  (m1 <= m2)%Z ->
  filterByTrustDistance db (filterByTrustDistance db authors self (Num m2)) self (Num m1)
    = filterByTrustDistance db authors self (Num m1) /\
  sublist (filterByTrustDistance db authors self (Num m1))
          (filterByTrustDistance db authors self (Num m2)) /\
  filterByTrustDistance db authors self NaN = [].
Proof.
  intros Hle.
  assert (Hnarrow :
    filterByTrustDistance db (filterByTrustDistance db authors self (Num m2)) self (Num m1)
    = filterByTrustDistance db authors self (Num m1)).
  { unfold filterByTrustDistance. apply list_filter_narrow. intros a.
    destruct (isMuted db a); [done|].
    destruct (getTrustDistance db a self); [|done]. simpl.
    rewrite !Z.leb_le. lia. }
  split_and!; [done| |].
  - rewrite <- Hnarrow.
    rewrite (filterByTrustDistance_trusted db (filterByTrustDistance _ _ _ _)).
    apply sublist_filter.
  - unfold filterByTrustDistance. apply list_filter_none. intros a.
    destruct (isMuted db a); [done|].
    by destruct (getTrustDistance db a self).
Qed.

Lemma filterByTrustDistance_narrow_witness :
  filterByTrustDistance fixture
    (filterByTrustDistance fixture everyone "M" (Num 2)) "M" (Num 1)
  = ["M"; "A"; "B"].
Proof.
  destruct (filterByTrustDistance_narrow fixture everyone "M" 1 2) as [-> _];
    [lia|]. vm_compute. reflexivity.
Defined.

Lemma addMute_isMuted db a now x :
  isMuted (addMute db a now) x = bool_decide (x = a) || isMuted db x.
Proof.
  unfold isMuted, addMute. cbn [mutes set_mutes]. rewrite has_key_insert. f_equal.
  apply bool_decide_ext. split; [by intros [= ->]|by intros ->].
Qed.

Lemma removeMute_addMute db a now :
  isMuted db a = false -> removeMute (addMute db a now) a = (true, db).
Proof.
  intros Hm. unfold removeMute, addMute, isMuted in *.
  cbn [mutes contacts graph_cache set_mutes].
  rewrite has_key_insert, bool_decide_eq_true_2 by done.
  rewrite (delete_insert _ _ _ Hm). cbn [orb]. f_equal. by destruct db.
Qed.

(** X11.  Muting composes with the filter: after [addMute] of a pubkey the
    filter keeps what it kept before, less that pubkey; and [removeMute]
    of a pubkey that was not muted before brings the store, hence the
    filter, back. *)
Theorem addMute_filter (db : SocialDb) (a : string) (now : Z)
    (authors : list string) (self : string) (maxD : JsNumber) :
  filterByTrustDistance (addMute db a now) authors self maxD
    = filter (fun x => x <> a) (filterByTrustDistance db authors self maxD) /\
  (a ∉ filterByTrustDistance (addMute db a now) authors self maxD) /\
  (isMuted db a = false -> removeMute (addMute db a now) a = (true, db)).
Proof.
  assert (Heq : filterByTrustDistance (addMute db a now) authors self maxD
    = filter (fun x => x <> a) (filterByTrustDistance db authors self maxD)).
  { unfold filterByTrustDistance.
    induction authors as [|x l IH]; [done|]. simpl.
    rewrite addMute_isMuted.
    change (getTrustDistance (addMute db a now) x self)
      with (getTrustDistance db x self).
    destruct (decide (x = a)) as [->|Hne].
    - rewrite bool_decide_eq_true_2 by done. simpl. rewrite IH.
      destruct (if isMuted db a then false else _); [|done].
      by rewrite filter_cons, decide_False by (by intros ?).
    - rewrite bool_decide_eq_false_2 by done. simpl. rewrite IH.
      destruct (if isMuted db x then false else _); [|done].
      by rewrite filter_cons, decide_True. }
  split_and!; [done| |].
  - rewrite Heq, list_elem_of_filter. by intros [? _].
  - apply removeMute_addMute.
Qed.

Lemma addMute_filter_witness :
  filterByTrustDistance (addMute fixture "D" 9) everyone "M" (Num 2)
    = ["M"; "A"; "B"; "C"; "E"] /\
  removeMute (addMute fixture "D" 9) "D" = (true, fixture).
Proof.
  destruct (addMute_filter fixture "D" 9 everyone "M" (Num 2)) as (-> & _ & Hback).
  split; [vm_compute; reflexivity|]. apply Hback. reflexivity.
Defined.

(** ** Queries and publication *)

(** X12.  [queryEvents] asks the relays once per filter, in order, and
    returns the answers one after the other with nothing removed: a filter
    given twice has its answer twice.  It rejects exactly when the query for
    one of the filters does. *)
Theorem queryEvents_concat (relays : Relays) (filters : list Filter) :
  queryEvents relays filters = @concat Event <$> mapM relays filters /\
  (queryEvents relays filters = None <->
     exists f, f ∈ filters /\ relays f = None) /\
  (forall fs1 fs2 evs1 evs2,
     queryEvents relays fs1 = Some evs1 -> queryEvents relays fs2 = Some evs2 ->
     queryEvents relays (fs1 ++ fs2)%list = Some (evs1 ++ evs2)%list).
Proof.
  assert (Heq : forall fs, queryEvents relays fs = @concat Event <$> mapM relays fs).
  { induction fs as [|f fs IH]; [done|]. simpl. rewrite IH.
    destruct (relays f) as [evs|]; [|done]. simpl.
    by destruct (mapM relays fs). }
  split_and!; [done| |].
  - rewrite Heq, fmap_None. split.
    + intros Hnone.
      destruct (decide (Forall (fun f => is_Some (relays f)) filters)) as [Hall|Hex].
      * apply (mapM_is_Some_2 relays) in Hall. rewrite Hnone in Hall.
        by destruct Hall.
      * apply not_Forall_Exists in Hex; [|apply _].
        apply Exists_exists in Hex as (f & Hf & Hn). exists f. split; [done|].
        simpl in Hn. destruct (relays f); [exfalso; eauto|done].
    + intros (f & Hf & Hn). destruct (mapM relays filters) eqn:E; [|done].
      assert (Hs : is_Some (mapM relays filters)) by eauto.
      apply mapM_is_Some_1 in Hs. rewrite Forall_forall in Hs.
      specialize (Hs f Hf). simpl in Hs. rewrite Hn in Hs. by destruct Hs.
  - intros fs1. induction fs1 as [|f fs1 IH]; intros fs2 evs1 evs2 H1 H2.
    + injection H1 as <-. done.
    + simpl in *. destruct (relays f) as [evs|]; [|done].
      destruct (queryEvents relays fs1) as [r1|] eqn:E1; [|done].
      injection H1 as <-. rewrite (IH fs2 r1 evs2 eq_refl H2).
      by rewrite app_assoc.
Qed.

Lemma queryEvents_concat_witness :
  queryEvents plain_relays [contact_list_filter "me"; contact_list_filter "me"]
  = Some [mkEvent "me" 3 [["p"; "A"]]; mkEvent "me" 3 [["p"; "A"]]].
Proof.
  destruct (queryEvents_concat plain_relays []) as (_ & _ & Happ).
  exact (Happ [contact_list_filter "me"] [contact_list_filter "me"]
           [mkEvent "me" 3 [["p"; "A"]]] [mkEvent "me" 3 [["p"; "A"]]]
           eq_refl eq_refl).
Defined.

Lemma collect_fulfilled_length (relays : list string) (i : nat) (settled : list Settled) :
  length (collect_fulfilled relays i settled)
  = length (filter (fun s => s = Fulfilled) settled).
Proof.
  revert i. induction settled as [|s settled IH]; intros i; [done|].
  rewrite filter_cons. destruct s; simpl; by rewrite IH.
Qed.

(** X13.  Whatever the pool returns, [publishEvent] has one entry per
    fulfilled send and none for a rejected one: its result is empty exactly
    when no send was acknowledged, which is how the callers count the
    relays that took the event. *)
Theorem publishEvent_counts (DEFAULT_RELAYS : list string)
    (pool_publish : list string -> Event -> list Settled)
    (event : Event) (relays : option (list string)) :
  let settled := pool_publish (default DEFAULT_RELAYS relays) event in
  length (publishEvent DEFAULT_RELAYS pool_publish event relays)
    = length (filter (fun s => s = Fulfilled) settled) /\
  (publishEvent DEFAULT_RELAYS pool_publish event relays = [] <->
     Fulfilled ∉ settled) /\
  publishEvent DEFAULT_RELAYS pool_publish event None
    = publishEvent DEFAULT_RELAYS pool_publish event (Some DEFAULT_RELAYS).
Proof.
  intros settled.
  assert (Hlen : length (publishEvent DEFAULT_RELAYS pool_publish event relays)
                 = length (filter (fun s => s = Fulfilled) settled))
    by apply collect_fulfilled_length.
  split_and!; [done| |done].
  rewrite <- length_zero_iff_nil, Hlen, length_zero_iff_nil. split.
  - intros Hnil Hin.
    assert (Hf : Fulfilled ∈ filter (fun s => s = Fulfilled) settled)
      by (by apply list_elem_of_filter).
    rewrite Hnil in Hf. by apply elem_of_nil in Hf.
  - intros Hnin. destruct (filter _ settled) as [|s l] eqn:E; [done|].
    assert (Hs : s ∈ filter (fun s => s = Fulfilled) settled) by (rewrite E; left).
    apply list_elem_of_filter in Hs as [-> Hs]. done.
Qed.

Lemma publishEvent_counts_witness :
  length (publishEvent ["wss://a"; "wss://b"; "wss://c"] flaky_pool
            (mkEvent "me" 1 []) None) = 2%nat /\
  publishEvent ["wss://b"] flaky_pool (mkEvent "me" 1 []) None = [].
Proof.
  split.
  - destruct (publishEvent_counts ["wss://a"; "wss://b"; "wss://c"] flaky_pool
                (mkEvent "me" 1 []) None) as (-> & _). reflexivity.
  - destruct (publishEvent_counts ["wss://b"] flaky_pool (mkEvent "me" 1 []) None)
      as (_ & [_ Hnone] & _).
    apply Hnone. intros [=]%list_elem_of_singleton.
Defined.

(** ** White space around the input of the stream filter *)

Lemma trim_start_all_ws (w : string) :
  all_chars is_ws w = true -> trim_start w = EmptyString.
Proof.
  induction w as [|c w IH]; [done|]. simpl.
  intros [Hc Hw]%andb_prop. rewrite Hc. by apply IH.
Qed.

Lemma trim_start_app_ws (w s : string) :
  all_chars is_ws w = true -> trim_start (w +:+ s) = trim_start s.
Proof.
  induction w as [|c w IH]; [done|]. simpl.
  intros [Hc Hw]%andb_prop. rewrite Hc. by apply IH.
Qed.

Lemma trim_end_all_ws (w : string) :
  all_chars is_ws w = true -> trim_end w = EmptyString.
Proof.
  induction w as [|c w IH]; [done|]. simpl.
  intros [Hc Hw]%andb_prop. by rewrite (IH Hw), Hc.
Qed.

Lemma trim_end_app_ws (s w : string) :
  all_chars is_ws w = true -> trim_end (s +:+ w) = trim_end s.
Proof.
  intros Hw. induction s as [|c s IH]; simpl.
  - by apply trim_end_all_ws.
  - by rewrite IH.
Qed.

Lemma trim_app_ws (w1 s w2 : string) :
  all_chars is_ws w1 = true -> all_chars is_ws w2 = true ->
  trim (w1 +:+ s +:+ w2) = trim s.
Proof.
  intros H1 H2. unfold trim. rewrite trim_start_app_ws by done.
  induction s as [|c s IH]; simpl.
  - by rewrite trim_start_all_ws.
  - destruct (is_ws c); [done|].
    change (String c (s +:+ w2)) with (String c s +:+ w2).
    by apply trim_end_app_ws.
Qed.

(** X14.  White space and line ends before and after the input do not
    count: the filter command does on the padded input what it does on the
    input, and on an input of nothing but white space it prints nothing and
    reports 0 passed, 0 filtered. *)
Theorem graphFilterCommand_padding (JSON_parse : string -> option JsValue)
    (driver : JsValue -> Verdict) (keyPair : option string)
    (maxDistance : option JsNumber) (db : SocialDb) (w1 input w2 : string) :
  all_chars is_ws w1 = true -> all_chars is_ws w2 = true ->
  graphFilterCommand JSON_parse driver keyPair maxDistance db (w1 +:+ input +:+ w2)
    = graphFilterCommand JSON_parse driver keyPair maxDistance db input /\
  forall self,
    graphFilterCommand JSON_parse driver (Some self) maxDistance db (w1 +:+ w2)
      = Some (mkFilterRun [] 0 0).
Proof.
  intros H1 H2. split.
  - unfold graphFilterCommand, input_lines. by rewrite trim_app_ws.
  - intros self. unfold graphFilterCommand, input_lines.
    change (w1 +:+ w2) with (w1 +:+ EmptyString +:+ w2).
    by rewrite trim_app_ws.
Qed.

Lemma graphFilterCommand_padding_witness :
  graphFilterCommand toy_parse (fun _ => Passed) (Some "M") None fixture
    (nl +:+ " " +:+ ("@E" +:+ nl +:+ "@Spammer") +:+ (" " +:+ nl))
  = Some (mkFilterRun ["@E"] 1 1).
Proof.
  destruct (graphFilterCommand_padding toy_parse (fun _ => Passed) (Some "M") None
              fixture (nl +:+ " ") ("@E" +:+ nl +:+ "@Spammer") (" " +:+ nl))
    as [H _]; [reflexivity..|].
  etrans; [exact H|]. vm_compute. reflexivity.
Defined.

(** ** The sync command: Mutes and the cache *)

(** The three steps of the command, when the first two queries are
    answered: the store after step 2 has the Contacts of step 1, the Mutes
    of step 2 and the cache of the start. *)
Lemma graphSync_steps self depth relays now db :
  is_Some (relays (contact_list_filter self)) ->
  is_Some (relays (mute_list_filter self)) ->
  exists db2,
    graphSyncCommand (Some self) depth relays now db
      = buildGraphCache relays (default (Num 2) depth) now db2 /\
    contacts db2 = contacts (syncContacts relays self now db).2 /\
    mutes db2 = mutes (syncMutes relays self now (syncContacts relays self now db).2).2 /\
    graph_cache db2 = graph_cache db.
Proof.
  intros H1 H2. unfold graphSyncCommand, bind.
  pose proof (syncContacts_returns relays self now db) as R1.
  pose proof (syncContacts_cache_frame (fun g => g = graph_cache db)
                relays self now db eq_refl) as [G1 _].
  destruct (syncContacts relays self now db) as [[u1|] db1]; simpl in *.
  2: { destruct H1 as [? H1]. by rewrite H1 in R1. }
  pose proof (syncMutes_returns relays self now db1) as R2.
  pose proof (syncMutes_cache_frame (fun g => g = graph_cache db)
                relays self now db1 G1) as [G2 _].
  pose proof (syncMutes_contacts_frame (fun c => c = contacts db1)
                relays self now db1 eq_refl) as [C2 _].
  destruct (syncMutes relays self now db1) as [[u2|] db2]; simpl in *.
  2: { destruct H2 as [? H2]. by rewrite H2 in R2. }
  by exists db2.
Qed.

Lemma graphSync_mutes_step2 self depth relays now db :
  is_Some (relays (contact_list_filter self)) ->
  mutes (graphSyncCommand (Some self) depth relays now db).2 =
  mutes (syncMutes relays self now (syncContacts relays self now db).2).2.
Proof.
  intros H1. unfold graphSyncCommand, bind.
  pose proof (syncContacts_returns relays self now db) as R1.
  destruct (syncContacts relays self now db) as [[u1|] db1]; simpl in *.
  2: { destruct H1 as [? H1]. by rewrite H1 in R1. }
  pose proof (buildGraphCache_tables_frame
                (fun _ m => m = mutes (syncMutes relays self now db1).2)
                relays (default (Num 2) depth) now) as Hb.
  destruct (syncMutes relays self now db1) as [[u2|] db2]; simpl in *; [|done].
  by apply Hb.
Qed.

Lemma syncMutes_none relays self now db :
  relays (mute_list_filter self) = Some [] \/
  relays (mute_list_filter self) = None ->
  (syncMutes relays self now db).2 = db.
Proof.
  unfold syncMutes, bind. rewrite queryEvents_single. by intros [-> | ->].
Qed.

Lemma syncMutes_found relays self now db ev rest :
  relays (mute_list_filter self) = Some (ev :: rest) ->
  mutes (syncMutes relays self now db).2 =
  foldl (fun t tag => insert_or_replace (tag !! 1%nat) now t) [] (reference_tags ev).
Proof.
  intros Hrel. unfold syncMutes, bind.
  rewrite queryEvents_single, Hrel. cbn [of_option ret exec fst snd].
  rewrite p_tags_reference_tags. unfold bulkInsertMutes, clearMutes.
  cbn [mutes set_mutes snd]. unfold tag_pubkey.
  generalize (@nil (option string * Z)). generalize (reference_tags ev).
  induction l as [|t l IH]; intros acc; [done|]. cbn [map foldl]. apply IH.
Qed.

(** X15.  Step 2 of the sync, when the query of step 1 is answered.  With
    no mute-list record, or with the query for it rejected, the Mutes are
    what they were.  With a record, the Mutes are replaced: a pubkey is
    muted afterwards exactly when the record references it, whatever was
    muted before, with one row, stamped with the time of the sync; a
    reference tag without a value leaves a row with a [NULL] key, which
    mutes nobody. *)
Theorem graphSync_mutes_replace (self : string) (depth : option JsNumber)
    (relays : Relays) (now : Z) (db : SocialDb) :
  let db' := (graphSyncCommand (Some self) depth relays now db).2 in
  is_Some (relays (contact_list_filter self)) ->
  (relays (mute_list_filter self) = Some [] \/
   relays (mute_list_filter self) = None -> mutes db' = mutes db) /\
  (forall ev rest,
     relays (mute_list_filter self) = Some (ev :: rest) ->
     (forall pk, isMuted db' pk = true <-> references ev pk) /\
     (forall pk, references ev pk -> row_with_key pk (mutes db') = Some now) /\
     (forall pk, references ev pk ->
        length (filter (fun row => row.1 = Some pk) (mutes db')) = 1%nat) /\
     (forall row, row ∈ mutes db' -> row.2 = now) /\
     null_rows (mutes db') = ((fun _ => (None, now)) <$> valueless_references ev) /\
     getMuteCount db' =
       (size (list_to_set (omap (fun t => t !! 1%nat) (reference_tags ev)) : gset string)
        + length (valueless_references ev))%nat /\
     unique_keys (mutes db') /\
     (forall db0, mutes (graphSyncCommand (Some self) depth relays now db0).2
                  = mutes db')).
Proof.
  intros db' H1.
  assert (Hstep : forall d,
    mutes (graphSyncCommand (Some self) depth relays now d).2 =
    mutes (syncMutes relays self now (syncContacts relays self now d).2).2)
    by (intros d; by apply graphSync_mutes_step2).
  split.
  - intros Hnone. unfold db'. rewrite Hstep, (syncMutes_none _ _ _ _ Hnone).
    pose proof (syncContacts_mutes_frame (fun m => m = mutes db)
                  relays self now db eq_refl) as [Hm _]. done.
  - intros ev rest Hrel.
    assert (Hfound : forall d,
      mutes (graphSyncCommand (Some self) depth relays now d).2 =
      foldl (fun t tag => insert_or_replace (tag !! 1%nat) now t) []
        (reference_tags ev)).
    { intros d. rewrite Hstep. by apply syncMutes_found with rest. }
    unfold db'. rewrite Hfound.
    assert (Hmem : forall pk,
      Some pk ∈ (fun t : list string => t !! 1%nat) <$> reference_tags ev
      <-> references ev pk).
    { intros pk. rewrite references_reference_tags, list_elem_of_fmap.
      split; intros (t & Ht1 & Ht2); exists t; done. }
    split_and!.
    + intros pk. unfold isMuted. rewrite Hfound.
      rewrite (bulk_has_key (fun t : list string => t !! 1%nat) (fun _ => now)).
      cbn [has_key existsb orb]. rewrite bool_decide_eq_true. apply Hmem.
    + intros pk Href.
      rewrite (bulk_row_with_key (fun t : list string => t !! 1%nat) (fun _ => now)).
      destruct (last (filter _ (reference_tags ev))) eqn:El; [done|].
      apply last_None in El. apply Hmem in Href.
      apply list_elem_of_fmap in Href as (t & Ht1 & Ht2).
      assert (Hin : t ∈ filter (fun x : list string => x !! 1%nat = Some pk)
                               (reference_tags ev))
        by (by apply list_elem_of_filter).
      rewrite El in Hin. by apply elem_of_nil in Hin.
    + intros pk Href.
      rewrite (bulk_count_key (fun t : list string => t !! 1%nat) (fun _ => now)).
      rewrite decide_True; [done|]. by apply Hmem.
    + intros row Hin.
      apply (bulk_elem_of (fun t : list string => t !! 1%nat) (fun _ => now)) in Hin
        as [Hin|(t & _ & ->)]; [by apply elem_of_nil in Hin|done].
    + rewrite (bulk_null_rows (fun t : list string => t !! 1%nat) (fun _ => now)).
      by rewrite null_rows_nil.
    + unfold getMuteCount. rewrite Hfound.
      rewrite (bulk_length (fun t : list string => t !! 1%nat) (fun _ => now));
        [|apply NoDup_nil_2].
      rewrite keys_nil, null_rows_nil, list_to_set_nil, (left_id_L ∅ (∪)).
      cbn [length]. unfold valueless_references. lia.
    + apply (bulk_unique_keys (fun t : list string => t !! 1%nat) (fun _ => now)).
      apply NoDup_nil_2.
    + intros db0. apply Hfound.
Qed.

Lemma graphSync_mutes_replace_witness :
  let db' := (graphSyncCommand (Some "M") None mute_relays 9 fixture).2 in
  isMuted db' "Troll" = true /\ isMuted db' "Spammer" = false /\
  getMuteCount db' = 2%nat /\
  mutes db' = [(None, 9%Z); (Some "Troll", 9%Z)].
Proof.
  intros db'.
  destruct (graphSync_mutes_replace "M" None mute_relays 9 fixture) as [_ Hfound].
  { vm_compute. eauto. }
  specialize (Hfound record_mutes [] eq_refl).
  split_and!.
  - apply Hfound. exists ["p"; "Troll"]. split; [vm_compute; left|split; reflexivity].
  - vm_compute. reflexivity.
  - vm_compute. reflexivity.
  - vm_compute. reflexivity.
Defined.

Lemma cacheFollows_cached_from (relays : Relays) now cps evs ev :
  relays (follows_filter cps) = Some evs -> ev ∈ evs ->
  inv_cmd (cached_from relays) (cacheFollows now ev) (fun _ => True).
Proof.
  intros Hrel Hev. unfold cacheFollows.
  eapply inv_bind; [apply inv_of_option|]. intros follows Hf.
  apply inv_exec. intros db Hdb s t row Hrow.
  rewrite updateGraphCache_lookup in Hrow.
  destruct (decide (s = ev_pubkey ev /\ t ∈ follows)) as [[-> Ht]|Hn].
  - rewrite bool_decide_eq_true_2 in Hrow by done. injection Hrow as <-.
    split; [done|]. exists cps, evs, ev. split_and!; try done.
    by apply (mapM_tag_pubkey_references _ _ _ Hf).
  - rewrite bool_decide_eq_false_2 in Hrow by done. by apply Hdb.
Qed.

Lemma buildGraphCache_cached_from (relays : Relays) depth now db :
  js_gt depth 1 = true ->
  cached_from relays (buildGraphCache relays depth now db).2.
Proof.
  intros Hgt. unfold buildGraphCache. rewrite Hgt. unfold bind at 1.
  change (exec clearGraphCache db) with (Some tt, clearGraphCache db).
  cbv beta iota.
  match goal with
  | |- cached_from _ (?c ?d).2 =>
      assert (Hc : inv_cmd (cached_from relays) c (fun _ => True))
  end.
  { eapply inv_bind; [apply inv_get|]. intros cs _.
    destruct (0 <? length (map fst cs))%nat; [|by apply inv_ret].
    eapply inv_bind; [apply inv_of_option|]. intros evs Hevs.
    rewrite queryEvents_single in Hevs.
    apply inv_for_each. intros ev Hev.
    by eapply cacheFollows_cached_from. }
  apply Hc. intros s t row Hrow. simpl in Hrow. by rewrite lookup_empty in Hrow.
Qed.

Lemma follow_edge_dec (evs : list Event) (s t : string) :
  (exists ev, ev ∈ evs /\ ev_pubkey ev = s /\ references ev t) \/
  ~ (exists ev, ev ∈ evs /\ ev_pubkey ev = s /\ references ev t).
Proof.
  destruct (decide (Exists (fun ev => ev_pubkey ev = s /\
              Exists (fun tg => tg !! 0%nat = Some "p" /\ tg !! 1%nat = Some t)
                (ev_tags ev)) evs)) as [H|H].
  - left. apply Exists_exists in H as (ev & Hev & Hs & Ht).
    apply Exists_exists in Ht as (tg & ? & ? & ?).
    exists ev. split_and!; try done. by exists tg.
  - right. intros (ev & Hev & Hs & tg & ? & ? & ?). apply H.
    apply Exists_exists. exists ev. split_and!; try done.
    apply Exists_exists. by exists tg.
Qed.

(** The loop over the follow lists, when every reference tag of every
    record has a value: it returns, and the cache holds an edge exactly for
    what the records reference, on top of what it held. *)
Lemma for_each_cacheFollows now (evs : list Event) (db : SocialDb) :
  (forall ev t, ev ∈ evs -> t ∈ ev_tags ev -> t !! 0%nat = Some "p" ->
     is_Some (t !! 1%nat)) ->
  exists db',
    for_each (cacheFollows now) evs db = (Some tt, db') /\
    contacts db' = contacts db /\ mutes db' = mutes db /\
    forall s t,
      ((exists ev, ev ∈ evs /\ ev_pubkey ev = s /\ references ev t) ->
         graph_cache db' !! (s, t) = Some (mkEdgeRow 1 now)) /\
      (~ (exists ev, ev ∈ evs /\ ev_pubkey ev = s /\ references ev t) ->
         graph_cache db' !! (s, t) = graph_cache db !! (s, t)).
Proof.
  revert db. induction evs as [|ev evs IH]; intros db Hval.
  - exists db. split_and!; try done. intros s t. split; [|done].
    intros (ev & Hev & _). by apply elem_of_nil in Hev.
  - assert (Hf : is_Some (mapM tag_pubkey (p_tags (ev_tags ev)))).
    { apply mapM_is_Some_2, Forall_forall. intros t [Ht0 Ht]%elem_of_p_tags.
      apply (Hval ev t); [left|done..]. }
    destruct Hf as [follows Hf].
    destruct (IH (updateGraphCache db (ev_pubkey ev) follows 1 now)) as
      (db' & Hrun & Hc & Hm & Hg).
    { intros ev' t Hev'. apply Hval. by right. }
    exists db'. split_and!; try done.
    + cbn [for_each]. unfold bind at 1. unfold cacheFollows at 1.
      unfold bind at 1. rewrite Hf. exact Hrun.
    + intros s t. destruct (Hg s t) as [Hin Hout]. split.
      * intros (ev' & Hev' & Hs & Hr).
        destruct (follow_edge_dec evs s t) as [Hex|Hnex]; [by apply Hin|].
        rewrite (Hout Hnex). apply elem_of_cons in Hev' as [->|Hev'].
        -- rewrite updateGraphCache_lookup, bool_decide_eq_true_2; [done|].
           split; [done|]. by apply (mapM_tag_pubkey_references _ _ _ Hf).
        -- exfalso. apply Hnex. eauto.
      * intros Hnex. rewrite Hout.
        -- rewrite updateGraphCache_lookup, bool_decide_eq_false_2; [done|].
           intros [-> Ht]. apply Hnex. exists ev. split_and!; [left|done|].
           by apply (mapM_tag_pubkey_references _ _ _ Hf).
        -- intros (ev' & Hev' & Hrest). apply Hnex. exists ev'. split; [by right|done].
Qed.

Lemma buildGraphCache_no_contacts relays depth now db :
  js_gt depth 1 = true -> contacts db = [] ->
  buildGraphCache relays depth now db = (Some tt, clearGraphCache db).
Proof.
  intros Hgt Hnil. unfold buildGraphCache. rewrite Hgt.
  unfold bind, exec, get, getContacts.
  change (contacts (clearGraphCache db)) with (contacts db).
  by rewrite Hnil.
Qed.

Lemma buildGraphCache_run relays depth now db evs :
  js_gt depth 1 = true -> contacts db <> [] ->
  relays (follows_filter (map fst (getContacts db))) = Some evs ->
  buildGraphCache relays depth now db
    = for_each (cacheFollows now) evs (clearGraphCache db).
Proof.
  intros Hgt Hne Hrel. unfold buildGraphCache. rewrite Hgt.
  unfold bind, exec, get.
  change (getContacts (clearGraphCache db)) with (getContacts db).
  assert (Hlen : (0 <? length (map fst (getContacts db)))%nat = true).
  { apply Nat.ltb_lt. unfold getContacts.
    rewrite length_map, length_order_by_desc.
    destruct (contacts db); [done|simpl; lia]. }
  rewrite Hlen, queryEvents_single, Hrel. done.
Qed.

(** X16.  What a run of the sync leaves in the cache.  With a depth that is
    not above 1 (or [NaN]) the cache is what it was.  With a depth above 1,
    when the queries of steps 1 and 2 are answered, nothing of the prior
    cache is left: every edge has distance 1 and comes from a follow-list
    record the relays returned, from its author to a pubkey it references;
    nothing checks that the author is a Contact.  With no Contact the cache
    is empty; when every reference tag of the follow lists has a value the
    command returns and the cache is exactly the references of the
    records.  Without an identity nothing is done. *)
Theorem graphSync_cache_rebuilt (keyPair : option string) (depth : option JsNumber)
    (relays : Relays) (now : Z) (db : SocialDb) :
  let r := graphSyncCommand keyPair depth relays now db in
  (js_gt (default (Num 2%Z) depth) 1 = false -> graph_cache r.2 = graph_cache db) /\
  (js_gt (default (Num 2%Z) depth) 1 = true ->
   forall self, keyPair = Some self ->
     is_Some (relays (contact_list_filter self)) ->
     is_Some (relays (mute_list_filter self)) ->
     cached_from relays r.2 /\
     (contacts r.2 = [] -> r.1 = Some tt /\ graph_cache r.2 = ∅) /\
     (forall evs,
        contacts r.2 <> [] ->
        relays (follows_filter (map fst (getContacts r.2))) = Some evs ->
        (forall ev t, ev ∈ evs -> t ∈ ev_tags ev -> t !! 0%nat = Some "p" ->
           is_Some (t !! 1%nat)) ->
        r.1 = Some tt /\
        forall s t row,
          graph_cache r.2 !! (s, t) = Some row <->
          row = mkEdgeRow 1 now /\
          exists ev, ev ∈ evs /\ ev_pubkey ev = s /\ references ev t)) /\
  (keyPair = None -> r = (None, db)).
Proof.
  intros r. split_and!.
  - intros Hgt. unfold r, graphSyncCommand.
    destruct keyPair as [self|]; [|done].
    assert (H : inv_cmd (fun d => graph_cache d = graph_cache db)
                  (seq! syncContacts relays self now ;;
                   seq! syncMutes relays self now ;;
                   buildGraphCache relays (default (Num 2) depth) now)
                  (fun _ => True)).
    { eapply inv_bind.
      { apply (syncContacts_cache_frame (fun g => g = graph_cache db)). }
      intros _ _. eapply inv_bind.
      { apply (syncMutes_cache_frame (fun g => g = graph_cache db)). }
      intros _ _. unfold buildGraphCache. rewrite Hgt. by apply inv_ret. }
    by apply H.
  - intros Hgt self -> H1 H2.
    destruct (graphSync_steps self depth relays now db H1 H2)
      as (db2 & Hr & Hc2 & _ & _).
    unfold r. rewrite Hr. clear r Hr.
    pose proof (buildGraphCache_tables_frame (fun c _ => c = contacts db2)
                  relays (default (Num 2) depth) now db2 eq_refl) as [Hc _].
    cbv beta in Hc.
    split_and!.
    + by apply buildGraphCache_cached_from.
    + rewrite Hc. intros Hnil.
      by rewrite (buildGraphCache_no_contacts _ _ _ _ Hgt Hnil).
    + intros evs. unfold getContacts at 1. rewrite Hc. intros Hne Hrel Hval.
      rewrite (buildGraphCache_run _ _ _ _ evs Hgt Hne Hrel).
      destruct (for_each_cacheFollows now evs (clearGraphCache db2) Hval)
        as (db' & -> & _ & _ & Hg).
      cbn [fst snd]. split; [done|]. intros s t row.
      destruct (Hg s t) as [Hin Hout]. split.
      * intros Hrow.
        destruct (follow_edge_dec evs s t) as [Hex|Hnex].
        -- rewrite (Hin Hex) in Hrow. by injection Hrow as <-.
        -- rewrite (Hout Hnex) in Hrow. simpl in Hrow.
           by rewrite lookup_empty in Hrow.
      * intros [-> Hex]. by apply Hin.
  - by intros ->.
Qed.

Lemma graphSync_cache_rebuilt_witness :
  let db := updateGraphCache emptyDb "old" ["edge"] 7 0 in
  graph_cache (graphSyncCommand (Some "me") (Some (Num 1)) plain_relays 7 db).2
    = graph_cache db /\
  graph_cache (graphSyncCommand (Some "me") (Some NaN) plain_relays 7 db).2
    = graph_cache db /\
  cached_from plain_relays (graphSyncCommand (Some "me") None plain_relays 7 db).2 /\
  graph_cache (graphSyncCommand (Some "me") None plain_relays 7 db).2 !! ("old", "edge")
    = None /\
  graph_cache (graphSyncCommand (Some "me") None plain_relays 7 db).2 !! ("A", "Y")
    = Some (mkEdgeRow 1 7).
Proof.
  intros db. split_and!.
  - by apply (graphSync_cache_rebuilt (Some "me") (Some (Num 1)) plain_relays 7 db).
  - by apply (graphSync_cache_rebuilt (Some "me") (Some NaN) plain_relays 7 db).
  - apply (proj1 (proj2 (graphSync_cache_rebuilt (Some "me") None plain_relays 7 db))
             eq_refl "me" eq_refl).
    + vm_compute. eauto.
    + vm_compute. eauto.
  - vm_compute. reflexivity.
  - vm_compute. reflexivity.
Defined.

(** ** Resolving a pubkey reference *)

Lemma lower_char_hex (c : ascii) :
  is_hex_digit c = true ->
  is_lower_hex (lower_char c) = true /\ is_hex_digit (lower_char c) = true.
Proof.
  destruct c as [b0 b1 b2 b3 b4 b5 b6 b7].
  destruct b0, b1, b2, b3, b4, b5, b6, b7;
    first [discriminate | intros _; split; reflexivity].
Qed.

Lemma lower_char_fixed (c : ascii) :
  is_lower_hex c = true -> lower_char c = c.
Proof.
  destruct c as [b0 b1 b2 b3 b4 b5 b6 b7].
  destruct b0, b1, b2, b3, b4, b5, b6, b7;
    first [discriminate | intros _; reflexivity].
Qed.

Lemma toLowerCase_length (s : string) :
  String.length (toLowerCase s) = String.length s.
Proof. induction s as [|c s IH]; [done|]. simpl. by rewrite IH. Qed.

Lemma toLowerCase_hex (s : string) :
  all_chars is_hex_digit s = true ->
  all_chars is_lower_hex (toLowerCase s) = true /\
  all_chars is_hex_digit (toLowerCase s) = true.
Proof.
  induction s as [|c s IH]; [done|]. simpl.
  intros [Hc Hs]%andb_prop. destruct (lower_char_hex c Hc) as [-> ->].
  destruct (IH Hs) as [-> ->]. done.
Qed.

Lemma toLowerCase_fixed (s : string) :
  all_chars is_lower_hex s = true -> toLowerCase s = s.
Proof.
  induction s as [|c s IH]; [done|]. simpl.
  intros [Hc Hs]%andb_prop. by rewrite (lower_char_fixed c Hc), (IH Hs).
Qed.

(** X17.  [resolvePubkey] on a reference the decoder does not know: it
    resolves exactly the strings of 64 hexadecimal digits of either case,
    to their lower-case form, which is 64 digits of [0-9a-f] and resolves
    to itself.  On a reference the decoder knows it returns the key of an
    npub or an nprofile as decoded and fails on every other type, also when
    the reference is 64 hexadecimal digits. *)
Theorem resolvePubkey_spec (nip19_decode : string -> option DecodeResult)
    (ref : string) :
  (nip19_decode ref = None -> is_hex64 ref = true ->
     let pk := toLowerCase ref in
     resolvePubkey nip19_decode ref = Some pk /\
     String.length pk = 64%nat /\ all_chars is_lower_hex pk = true /\
     (nip19_decode pk = None -> resolvePubkey nip19_decode pk = Some pk)) /\
  (nip19_decode ref = None -> is_hex64 ref = false ->
     resolvePubkey nip19_decode ref = None) /\
  (forall d, nip19_decode ref = Some d ->
     resolvePubkey nip19_decode ref =
     match d with
     | D_npub data => Some data
     | D_nprofile pubkey => Some pubkey
     | _ => None
     end).
Proof.
  unfold resolvePubkey, isNip19, extractPubkey. split_and!.
  - intros Hd Hhex. rewrite Hd, Hhex. simpl.
    apply andb_prop in Hhex as [Hlen Hall]. apply Nat.eqb_eq in Hlen.
    destruct (toLowerCase_hex ref Hall) as [Hlow Hh].
    split_and!; [done|by rewrite toLowerCase_length|done|].
    intros ->. unfold is_hex64.
    rewrite toLowerCase_length, Hlen, Hh. simpl.
    by rewrite toLowerCase_fixed.
  - intros Hd Hhex. by rewrite Hd, Hhex.
  - intros d ->. done.
Qed.

Lemma resolvePubkey_spec_witness :
  resolvePubkey toy_decode hex_B = Some hex_b /\
  resolvePubkey toy_decode "npub1alice" = Some "A" /\
  resolvePubkey toy_decode "note1x" = None /\
  resolvePubkey toy_decode "abc" = None.
Proof.
  destruct (resolvePubkey_spec toy_decode hex_B) as (Hhex & _ & _).
  destruct (Hhex eq_refl eq_refl) as (Hres & _).
  split_and!.
  - rewrite Hres. reflexivity.
  - exact (proj2 (proj2 (resolvePubkey_spec toy_decode "npub1alice"))
             (D_npub "A") eq_refl).
  - exact (proj2 (proj2 (resolvePubkey_spec toy_decode "note1x"))
             (D_note "x") eq_refl).
  - exact (proj1 (proj2 (resolvePubkey_spec toy_decode "abc")) eq_refl eq_refl).
Defined.

(** ** Publishing the contact list and reading it back *)

Lemma or_null_Some (x : option string) (s : string) :
  or_null x = Some s -> s <> EmptyString.
Proof.
  unfold or_null. destruct x as [y|]; [|done].
  destruct (decide (y = EmptyString)); [done|]. by intros [= <-].
Qed.

Lemma or_null_fixed (x : option string) (s : string) :
  or_null x = Some s -> or_null (Some s) = Some s.
Proof. intros Hs%or_null_Some. simpl. by rewrite decide_False. Qed.

Lemma contact_tag_published (pk : string) (row : ContactRow) :
  contact_tag (Some pk, row) = map Some (published_tag pk row).
Proof.
  unfold contact_tag, published_tag. cbn [fst snd].
  by destruct (or_null (relay row)), (or_null (petname row)).
Qed.

Lemma row_of_tag_published (pk : string) (row : ContactRow) (now : Z) :
  row_of_tag now (published_tag pk row) = read_back row now.
Proof.
  unfold row_of_tag, published_tag, read_back.
  destruct (or_null (relay row)) as [r|] eqn:Er;
    destruct (or_null (petname row)) as [n|] eqn:En; cbn [app lookup list_lookup].
  - by rewrite (or_null_fixed _ _ Er), (or_null_fixed _ _ En).
  - by rewrite (or_null_fixed _ _ Er).
  - by rewrite (or_null_fixed _ _ En).
  - done.
Qed.

Lemma published_tag_reference (pk : string) (row : ContactRow) :
  published_tag pk row !! 0%nat = Some "p" /\
  published_tag pk row !! 1%nat = Some pk.
Proof. done. Qed.

(** X18.  The tag the follow command publishes for a Contact is a ['p'] tag
    with the pubkey, which the sync reads back as that pubkey.  The relay
    and the petname come back as stored when the Contact has a relay or has
    no petname; a petname without a relay comes back as the relay, and the
    petname is lost. *)
Theorem contact_tag_read_back (pk : string) (row : ContactRow) (now : Z) :
  let t := published_tag pk row in
  let c := contact_of_tag t in
  contact_tag (Some pk, row) = map Some t /\
  p_tags [t] = [t] /\
  ci_pubkey c = Some pk /\
  row_of now c = read_back row now /\
  (is_Some (or_null (relay row)) \/ or_null (petname row) = None ->
     row_of now c = mkContactRow (or_null (relay row)) (or_null (petname row)) now) /\
  (forall n, or_null (relay row) = None -> or_null (petname row) = Some n ->
     row_of now c = mkContactRow (Some n) None now).
Proof.
  intros t c.
  assert (Hrow : row_of now c = read_back row now)
    by apply (row_of_tag_published pk row now).
  split_and!; try done.
  - apply contact_tag_published.
  - rewrite Hrow. unfold read_back. intros [[r Hr]|Hn].
    + by rewrite Hr.
    + rewrite Hn. by destruct (or_null (relay row)).
  - intros n Hr Hn. rewrite Hrow. unfold read_back. by rewrite Hr, Hn.
Qed.

Lemma contact_tag_read_back_witness :
  contact_tag (Some "A", mkContactRow None (Some "alice") 1)
    = [Some "p"; Some "A"; Some "alice"] /\
  contact_tag (Some "B", mkContactRow (Some "wss://b") (Some "bob") 1)
    = [Some "p"; Some "B"; Some "wss://b"; Some "bob"] /\
  row_of 5 (contact_of_tag ["p"; "A"; "alice"]) = mkContactRow (Some "alice") None 5.
Proof.
  destruct (contact_tag_read_back "A" (mkContactRow None (Some "alice") 1) 5)
    as (_ & _ & _ & _ & _ & Hswap).
  split_and!; [reflexivity..|].
  by apply Hswap.
Defined.

Lemma signed_tag_inv (t : list string) (c : option string * ContactRow) :
  map Some t = contact_tag c ->
  exists pk, c.1 = Some pk /\ t = published_tag pk c.2.
Proof.
  destruct c as [k row]. intros H.
  assert (Hk : exists pk, k = Some pk).
  { apply (f_equal (fun l => l !! 1%nat)) in H.
    change (map Some t) with (Some <$> t) in H. rewrite list_lookup_fmap in H.
    change (contact_tag (k, row) !! 1%nat) with (Some k) in H.
    destruct (t !! 1%nat) as [pk|]; [|done]. injection H as <-. eauto. }
  destruct Hk as [pk ->]. exists pk. split; [done|].
  rewrite contact_tag_published in H.
  change (map Some t) with (Some <$> t) in H.
  change (map Some (published_tag pk row)) with (Some <$> published_tag pk row) in H.
  by apply (inj (fmap Some)) in H.
Qed.

Lemma signed_tags_inv (tags : list (list string)) (l : Table ContactRow) :
  as_signed tags = map contact_tag l ->
  Forall2 (fun t c => exists pk, c.1 = Some pk /\ t = published_tag pk c.2) tags l.
Proof.
  unfold as_signed. revert l.
  induction tags as [|t tags IH]; intros [|c l] H; try discriminate.
  - constructor.
  - cbn [map] in H. injection H as Ht Hrest. constructor; [|by apply IH].
    by apply signed_tag_inv.
Qed.

(** Inserting rows whose keys are new and pairwise distinct appends
    them. *)
Lemma foldl_fresh_keys {X R} (key : X -> option string) (val : X -> R)
    (xs : list X) (t : Table R) :
  NoDup (omap key xs) ->
  (forall pk, Some pk ∈ key <$> xs -> has_key pk t = false) ->
  foldl (fun t x => insert_or_replace (key x) (val x) t) t xs
    = (t ++ ((fun x => (key x, val x)) <$> xs))%list.
Proof.
  revert t. induction xs as [|x xs IH]; intros t Hnd Hfresh.
  - by rewrite app_nil_r.
  - cbn [foldl]. rewrite fmap_cons.
    change (omap key (x :: xs))
      with (match key x with Some y => y :: omap key xs | None => omap key xs end)
      in Hnd.
    assert (Hins : insert_or_replace (key x) (val x) t = (t ++ [(key x, val x)])%list).
    { unfold insert_or_replace. destruct (key x) as [pk|] eqn:Ek; [|done].
      rewrite delete_key_id; [done|]. apply Hfresh. rewrite fmap_cons, Ek. left. }
    rewrite IH.
    + rewrite Hins, <- app_assoc. done.
    + destruct (key x); [|done]. by apply NoDup_cons in Hnd as [_ ?].
    + intros pk Hpk. rewrite has_key_insert.
      rewrite (Hfresh pk) by (rewrite fmap_cons; by right).
      rewrite orb_false_r. apply bool_decide_eq_false_2. intros Ek.
      rewrite Ek in Hnd. apply NoDup_cons in Hnd as [Hnin _].
      apply Hnin. apply list_elem_of_omap.
      apply list_elem_of_fmap in Hpk as (y & Hy & Hin). eauto.
Qed.

Lemma row_with_key_fmap {R S} (f : R -> S) (pk : string) (t : Table R) :
  row_with_key pk ((fun c => (c.1, f c.2)) <$> t) = f <$> row_with_key pk t.
Proof.
  induction t as [|[k r] t IH]; [done|]. rewrite fmap_cons. cbn [row_with_key].
  rewrite IH. unfold key_is. cbn [fst snd].
  by destruct (bool_decide (k = Some pk)).
Qed.

Lemma row_with_key_order_by_desc {R} (stamp : R -> Z) (pk : string) (t : Table R) :
  unique_keys t -> row_with_key pk (order_by_desc stamp t) = row_with_key pk t.
Proof.
  intros Hu. destruct (row_with_key pk (order_by_desc stamp t)) as [r|] eqn:E.
  - symmetry. apply has_key_unique_elem; [done|].
    by apply row_with_key_elem, elem_of_order_by_desc in E.
  - symmetry. apply row_with_key_None, has_key_false.
    apply row_with_key_None, has_key_false in E.
    intros Hin. apply E. apply list_elem_of_fmap in Hin as (c & Hc & Hin).
    apply list_elem_of_fmap. exists c. split; [done|]. by apply elem_of_order_by_desc.
Qed.

(** What the sync reads from a record that carries the published list of a
    store. *)
Lemma published_reference_tags (ev : Event) (l : Table ContactRow) :
  Forall2 (fun t c => exists pk, c.1 = Some pk /\ t = published_tag pk c.2)
    (ev_tags ev) l ->
  reference_tags ev = ev_tags ev /\
  (fun t : list string => t !! 1%nat) <$> ev_tags ev = l.*1 /\
  omap (fun t : list string => t !! 1%nat) (ev_tags ev) = keys l /\
  Forall (fun t : list string => t !! 1%nat <> None) (ev_tags ev) /\
  forall now,
    (fun t : list string => (t !! 1%nat, row_of_tag now t)) <$> ev_tags ev
    = (fun c => (c.1, read_back c.2 now)) <$> l.
Proof.
  unfold reference_tags. generalize (ev_tags ev). intros tags H.
  induction H as [|t c tags l (pk & Hk & ->) H IH].
  - done.
  - destruct IH as (IH1 & IH2 & IH3 & IH5 & IH4). split_and!.
    + rewrite filter_cons_True by done. by rewrite IH1.
    + rewrite !fmap_cons, IH2. f_equal. by rewrite Hk.
    + rewrite keys_cons, Hk, <- IH3. reflexivity.
    + by constructor.
    + intros now. rewrite !fmap_cons, IH4, row_of_tag_published, Hk. done.
Qed.

(** X19.  Syncing from the list that was published from a store gives a
    store with the same Contacts, whatever it held before: a pubkey is a
    Contact after the sync exactly when it was one in the publishing store.
    When the publishing store respects its primary key, the Contacts after
    the sync are the published listing in its order, each row as its tag
    reads back, so there are as many. *)
Theorem publish_sync_round_trip (self : string) (depth : option JsNumber)
    (relays : Relays) (now : Z) (published db : SocialDb)
    (ev : Event) (rest : list Event) :
  relays (contact_list_filter self) = Some (ev :: rest) ->
  as_signed (ev_tags ev) = sr_tags (contact_list_request published) ->
  let db' := (graphSyncCommand (Some self) depth relays now db).2 in
  (forall pk, isContact db' pk = isContact published pk) /\
  null_rows (contacts db') = [] /\
  (unique_keys (contacts published) ->
     contacts db' = (fun c => (c.1, read_back c.2 now)) <$> getContacts published /\
     (forall pk, row_with_key pk (contacts db')
        = (fun row => read_back row now) <$> row_with_key pk (contacts published)) /\
     getContactCount db' = getContactCount published).
Proof.
  intros Hrel Htags db'.
  apply signed_tags_inv, published_reference_tags in Htags
    as (Hrefs & Hfst & Hkeys & Hval & Hrows).
  assert (Hdb' : contacts db' =
    foldl (fun t tag => insert_or_replace (tag !! 1%nat) (row_of_tag now tag) t)
      [] (ev_tags ev)).
  { unfold db'. rewrite graphSync_contacts_step1.
    rewrite (syncContacts_found _ _ _ _ _ _ Hrel). by rewrite Hrefs. }
  split_and!.
  - intros pk. unfold isContact. rewrite Hdb'.
    rewrite (bulk_has_key (fun t : list string => t !! 1%nat) (row_of_tag now)).
    cbn [has_key existsb orb]. rewrite Hfst.
    destruct (has_key pk (contacts published)) eqn:E.
    + apply bool_decide_eq_true_2. apply has_key_elem in E.
      apply list_elem_of_fmap in E as (c & Hc & Hin).
      apply list_elem_of_fmap. exists c. split; [done|].
      by apply elem_of_order_by_desc.
    + apply bool_decide_eq_false_2. apply has_key_false in E.
      intros Hin. apply E. apply list_elem_of_fmap in Hin as (c & Hc & Hin).
      apply list_elem_of_fmap. exists c. split; [done|].
      by apply elem_of_order_by_desc in Hin.
  - rewrite Hdb'.
    rewrite (bulk_null_rows (fun t : list string => t !! 1%nat) (row_of_tag now)).
    rewrite null_rows_nil, filter_none; [done|].
    exact Hval.
  - intros Hu.
    assert (Htable : contacts db' =
      (fun c => (c.1, read_back c.2 now)) <$> getContacts published).
    { rewrite Hdb', <- Hrows.
      rewrite (foldl_fresh_keys (fun t : list string => t !! 1%nat) (row_of_tag now)).
      - done.
      - rewrite Hkeys. unfold getContacts. by rewrite keys_order_by_desc.
      - done. }
    split_and!; [done| |].
    + intros pk. rewrite Htable.
      rewrite (row_with_key_fmap (fun row => read_back row now)). f_equal.
      by apply row_with_key_order_by_desc.
    + unfold getContactCount. rewrite Htable, length_fmap.
      apply length_order_by_desc.
Qed.

Lemma publish_sync_round_trip_witness :
  let published := addContact fixture "C" None (Some "carol") 5 in
  let ev := mkEvent "M" 3 [["p"; "C"; "carol"]; ["p"; "B"; "wss://b"]; ["p"; "A"]] in
  let db' := (graphSyncCommand (Some "M") None (relays_with ev) 9
                (addContact emptyDb "Z" None None 0)).2 in
  getContactCount db' = 3%nat /\ isContact db' "Z" = false /\
  row_with_key "C" (contacts db') = Some (mkContactRow (Some "carol") None 9) /\
  row_with_key "B" (contacts db') = Some (mkContactRow (Some "wss://b") None 9).
Proof.
  intros published ev db'.
  destruct (publish_sync_round_trip "M" None (relays_with ev) 9 published
              (addContact emptyDb "Z" None None 0) ev [] eq_refl eq_refl)
    as (Hmem & _ & Hu).
  destruct Hu as (_ & Hrow & Hcount).
  { vm_compute. repeat constructor; set_solver. }
  split_and!.
  - etrans; [exact Hcount|]. vm_compute. reflexivity.
  - etrans; [exact (Hmem "Z")|]. vm_compute. reflexivity.
  - etrans; [exact (Hrow "C")|]. vm_compute. reflexivity.
  - etrans; [exact (Hrow "B")|]. vm_compute. reflexivity.
Defined.

(** ** The follow, unfollow, mute and unmute commands *)

Section commands.
Context (nip19_decode : string -> option DecodeResult).
Context (keyPair : option string) (pubkeyRef : string) (publish : option bool).

(** X20.  The guards of the four commands.  Each exits with an error, the
    store untouched, exactly when the reference is empty, no identity is
    stored or the reference does not resolve; [follow] also when the
    reference resolves to the agent's own key.  [unfollow], [mute] and
    [unmute] have no such check: the agent can mute itself. *)
Theorem commands_guards (relay petname : option string) (now : Z) (db : SocialDb) :
  let follow := followCommand nip19_decode keyPair pubkeyRef relay petname publish now db in
  let unfollow := unfollowCommand nip19_decode keyPair pubkeyRef publish db in
  let mute := muteCommand nip19_decode keyPair pubkeyRef publish now db in
  let unmute := unmuteCommand nip19_decode keyPair pubkeyRef publish db in
  (follow.1 = Exit1 <->
     refused nip19_decode keyPair pubkeyRef \/
     exists me, keyPair = Some me /\
       resolvePubkey nip19_decode pubkeyRef = Some me) /\
  (unfollow.1 = Exit1 <-> refused nip19_decode keyPair pubkeyRef) /\
  (mute.1 = Exit1 <-> refused nip19_decode keyPair pubkeyRef) /\
  (unmute.1 = Exit1 <-> refused nip19_decode keyPair pubkeyRef) /\
  (follow.1 = Exit1 -> follow.2 = db) /\
  (unfollow.1 = Exit1 -> unfollow.2 = db) /\
  (mute.1 = Exit1 -> mute.2 = db) /\
  (unmute.1 = Exit1 -> unmute.2 = db).
Proof.
  unfold refused, followCommand, unfollowCommand, muteCommand, unmuteCommand,
    removeContact, removeMute.
  destruct (decide (pubkeyRef = EmptyString)) as [Hr|Hr];
    [simpl; naive_solver|].
  destruct keyPair as [me|]; [|simpl; naive_solver].
  destruct (resolvePubkey nip19_decode pubkeyRef) as [target|];
    [|simpl; naive_solver].
  destruct (decide (target = me)) as [->|Hne];
    destruct (publish_wanted publish);
    destruct (has_key _ (contacts db));
    destruct (has_key _ (mutes db));
    simpl; naive_solver.
Qed.

End commands.

Lemma commands_guards_witness :
  (followCommand toy_decode (Some "A") "npub1alice" None None None 5 fixture).1 = Exit1 /\
  (muteCommand toy_decode (Some "A") "npub1alice" None 5 fixture).1
    = Finished (Some (mkSignRequest 10000
        [[Some "p"; Some "A"]; [Some "p"; Some "Spammer"]])) /\
  (followCommand toy_decode (Some "M") "note1x" None None None 5 fixture).2 = fixture.
Proof.
  destruct (commands_guards toy_decode (Some "A") "npub1alice" None None None 5 fixture)
    as ([_ Hself] & _).
  destruct (commands_guards toy_decode (Some "M") "note1x" None None None 5 fixture)
    as ([_ Hexit] & _ & _ & _ & Hdb & _).
  split_and!.
  - apply Hself. right. exists "A". split; reflexivity.
  - vm_compute. reflexivity.
  - apply Hdb, Hexit. left. right. right. reflexivity.
Defined.

Lemma contact_list_request_tags (db : SocialDb) (t : list (option string)) :
  t ∈ sr_tags (contact_list_request db) <->
  exists c, c ∈ contacts db /\ t = contact_tag c.
Proof.
  cbn [sr_tags contact_list_request].
  change (map contact_tag (getContacts db)) with (contact_tag <$> getContacts db).
  rewrite list_elem_of_fmap. unfold getContacts.
  split; intros (c & H1 & H2).
  - exists c. by rewrite <- (elem_of_order_by_desc added_at).
  - exists c. by rewrite (elem_of_order_by_desc added_at).
Qed.

Lemma contact_tag_head (c : option string * ContactRow) :
  contact_tag c !! 0%nat = Some (Some "p") /\ contact_tag c !! 1%nat = Some c.1.
Proof. done. Qed.

Lemma followCommand_run (nip19_decode : string -> option DecodeResult)
    (me pubkeyRef : string) (relay petname : option string)
    (publish : option bool) (now : Z) (db : SocialDb) (target : string) :
  pubkeyRef <> EmptyString ->
  resolvePubkey nip19_decode pubkeyRef = Some target ->
  target <> me ->
  followCommand nip19_decode (Some me) pubkeyRef relay petname publish now db
  = (Finished (if publish_wanted publish
               then Some (contact_list_request (addContact db target relay petname now))
               else None),
     addContact db target relay petname now).
Proof.
  intros Hne Hres Hme. unfold followCommand. rewrite decide_False by done.
  rewrite Hres. rewrite decide_False by done. by destruct (publish_wanted publish).
Qed.

(** X21.  A follow that passes the guards upserts the target into Contacts
    and nothing else, so that the resolver answers 1 for it; unless
    [--no-publish] is given it hands the signer a kind-3 list with one tag
    per row of Contacts, the target's among them; each tag is a ['p'] tag
    with the key of its row, the pubkey of a Contact when no row has a
    [NULL] key. *)
Theorem followCommand_follows (nip19_decode : string -> option DecodeResult)
    (me pubkeyRef : string) (relay petname : option string)
    (publish : option bool) (now : Z) (db : SocialDb) (target : string) :
  pubkeyRef <> EmptyString ->
  resolvePubkey nip19_decode pubkeyRef = Some target ->
  target <> me ->
  let r := followCommand nip19_decode (Some me) pubkeyRef relay petname publish now db in
  r.2 = addContact db target relay petname now /\
  getTrustDistance r.2 target me = Some 1%Z /\
  r.1 = Finished (if publish_wanted publish
                  then Some (contact_list_request r.2) else None) /\
  sr_kind (contact_list_request r.2) = 3%Z /\
  length (sr_tags (contact_list_request r.2)) = getContactCount r.2 /\
  contact_tag (Some target, mkContactRow (or_null relay) (or_null petname) now)
    ∈ sr_tags (contact_list_request r.2) /\
  (forall t, t ∈ sr_tags (contact_list_request r.2) ->
     t !! 0%nat = Some (Some "p") /\
     exists c, c ∈ contacts r.2 /\ t = contact_tag c /\ t !! 1%nat = Some c.1 /\
       forall pk, c.1 = Some pk -> isContact r.2 pk = true) /\
  (null_rows (contacts db) = [] ->
   forall t, t ∈ sr_tags (contact_list_request r.2) ->
     exists pk, t !! 0%nat = Some (Some "p") /\ t !! 1%nat = Some (Some pk) /\
                isContact r.2 pk = true).
Proof.
  intros Hne Hres Hme r. unfold r.
  rewrite (followCommand_run _ _ _ _ _ _ _ _ _ Hne Hres Hme). cbn [fst snd].
  assert (Htags : forall t,
    t ∈ sr_tags (contact_list_request (addContact db target relay petname now)) ->
     t !! 0%nat = Some (Some "p") /\
     exists c, c ∈ contacts (addContact db target relay petname now) /\
       t = contact_tag c /\ t !! 1%nat = Some c.1 /\
       forall pk, c.1 = Some pk ->
         isContact (addContact db target relay petname now) pk = true).
  { intros t (c & Hc & ->)%contact_list_request_tags. split; [done|].
    exists c. split_and!; try done. intros pk Hk.
    apply isContact_is_contact. unfold is_contact.
    apply list_elem_of_fmap. exists c. by split. }
  split_and!; try done.
  - unfold getTrustDistance. rewrite decide_False by done.
    rewrite bool_decide_eq_true_2; [done|].
    apply elem_of_getContacts, isContact_is_contact.
    unfold isContact, addContact. cbn [contacts set_contacts].
    rewrite has_key_insert. by rewrite bool_decide_eq_true_2.
  - cbn [sr_tags contact_list_request]. rewrite length_map.
    unfold getContacts, getContactCount. apply length_order_by_desc.
  - apply contact_list_request_tags. eexists. split; [|done].
    unfold addContact. cbn [contacts set_contacts]. apply elem_of_insert. by left.
  - intros Hnull t Ht. destruct (Htags t Ht) as (Hp & c & Hc & -> & Hk & Hcontact).
    destruct c as [[pk|] row].
    + exists pk. split_and!; [done..|]. by apply Hcontact.
    + exfalso.
      assert (Hin : (None, row) ∈ null_rows (contacts (addContact db target relay petname now))).
      { unfold null_rows. by apply list_elem_of_filter. }
      unfold addContact in Hin. cbn [contacts set_contacts] in Hin.
      rewrite null_rows_insert, Hnull in Hin. by apply elem_of_nil in Hin.
Qed.

Lemma followCommand_follows_witness :
  let r := followCommand toy_decode (Some "M") hex_B None (Some "bee") None 9 fixture in
  isContact r.2 hex_b = true /\
  r.1 = Finished (Some (mkSignRequest 3
          [[Some "p"; Some hex_b; Some "bee"];
           [Some "p"; Some "B"; Some "wss://b"];
           [Some "p"; Some "A"]])).
Proof.
  intros r.
  destruct (followCommand_follows toy_decode "M" hex_B None (Some "bee") None 9
              fixture hex_b) as (Hdb & _ & Hend & _); [done..|].
  split.
  - fold r in Hdb. rewrite Hdb. vm_compute. reflexivity.
  - fold r in Hend. rewrite Hend. vm_compute. reflexivity.
Defined.

(** X22.  An unfollow that passes the guards: of a pubkey that is no
    Contact it changes nothing and publishes nothing, whatever the publish
    option; of a Contact it removes the row, and the list it publishes has
    no tag for it.  Unfollowing right after a follow of a pubkey that was
    no Contact gives the store back. *)
Theorem unfollowCommand_spec (nip19_decode : string -> option DecodeResult)
    (me pubkeyRef : string) (publish : option bool) (db : SocialDb)
    (target : string) :
  pubkeyRef <> EmptyString ->
  resolvePubkey nip19_decode pubkeyRef = Some target ->
  let r := unfollowCommand nip19_decode (Some me) pubkeyRef publish db in
  (isContact db target = false -> r = (Finished None, db)) /\
  (isContact db target = true ->
     r.2 = (removeContact db target).2 /\
     isContact r.2 target = false /\
     r.1 = Finished (if publish_wanted publish
                     then Some (contact_list_request r.2) else None) /\
     forall t, t ∈ sr_tags (contact_list_request r.2) ->
       t !! 1%nat <> Some (Some target)) /\
  (isContact db target = false -> target <> me ->
   forall relay petname publish' now,
     (unfollowCommand nip19_decode (Some me) pubkeyRef publish
        (followCommand nip19_decode (Some me) pubkeyRef relay petname publish' now db).2).2
     = db).
Proof.
  intros Hne Hres r.
  assert (Hun : forall d, unfollowCommand nip19_decode (Some me) pubkeyRef publish d
    = if isContact d target
      then (Finished (if publish_wanted publish
                      then Some (contact_list_request (removeContact d target).2)
                      else None), (removeContact d target).2)
      else (Finished None, (removeContact d target).2)).
  { intros d. unfold unfollowCommand. rewrite decide_False by done. rewrite Hres.
    unfold removeContact, isContact.
    destruct (has_key target (contacts d)); cbn [negb fst snd]; [|done].
    by destruct (publish_wanted publish). }
  assert (Hgone : forall d, isContact (removeContact d target).2 target = false).
  { intros d. unfold isContact, removeContact. cbn [snd contacts set_contacts].
    rewrite has_key_delete. by rewrite bool_decide_eq_true_2. }
  split_and!.
  - intros Hc. unfold r. rewrite Hun, Hc. f_equal.
    unfold removeContact, isContact in *. cbn [snd].
    rewrite (delete_key_id _ _ Hc). apply set_contacts_id.
  - intros Hc. unfold r. rewrite Hun, Hc. cbn [fst snd]. split_and!; try done.
    intros t (c & Hin & ->)%contact_list_request_tags.
    rewrite (proj2 (contact_tag_head c)). intros [= Hk].
    unfold removeContact in Hin. cbn [snd contacts set_contacts] in Hin.
    apply elem_of_delete_key in Hin as [_ Hn]. done.
  - intros Hc Hme relay petname publish' now.
    rewrite (followCommand_run _ _ _ _ _ _ _ _ _ Hne Hres Hme). cbn [snd].
    rewrite Hun.
    assert (Hback : (removeContact (addContact db target relay petname now) target).2
                    = db).
    { unfold removeContact, addContact, isContact in *.
      cbn [snd contacts mutes graph_cache set_contacts].
      rewrite (delete_insert _ _ _ Hc). unfold set_contacts.
      cbn [contacts mutes graph_cache]. by destruct db. }
    destruct (isContact (addContact db target relay petname now) target);
      cbn [snd]; exact Hback.
Qed.

Lemma unfollowCommand_spec_witness :
  unfollowCommand toy_decode (Some "M") hex_B None fixture = (Finished None, fixture) /\
  (unfollowCommand toy_decode (Some "M") hex_B None
     (followCommand toy_decode (Some "M") hex_B None None None 9 fixture).2).2 = fixture /\
  (unfollowCommand toy_decode (Some "M") "npub1alice" None fixture).1
    = Finished (Some (mkSignRequest 3 [[Some "p"; Some "B"; Some "wss://b"]])).
Proof.
  destruct (unfollowCommand_spec toy_decode "M" hex_B None fixture hex_b)
    as (Hnot & _ & Hround); [done..|].
  destruct (unfollowCommand_spec toy_decode "M" "npub1alice" None fixture "A")
    as (_ & Hrem & _); [done..|].
  split_and!.
  - apply Hnot. reflexivity.
  - apply Hround; [reflexivity|done].
  - destruct (Hrem eq_refl) as (_ & _ & -> & _). vm_compute. reflexivity.
Defined.

(** X23.  A mute that passes the guards adds the target to Mutes and
    touches nothing else: the filter then drops the target from every list
    at every distance, while the resolver answers as before for everybody,
    so a muted Contact stays a Contact and the pubkeys it follows keep
    their distance.  The published kind-10000 list has the target's tag.
    Unmuting a pubkey that is not muted changes and publishes nothing, and
    unmuting right after muting one that was not muted gives the store
    back. *)
Theorem muteCommand_spec (nip19_decode : string -> option DecodeResult)
    (me pubkeyRef : string) (publish : option bool) (now : Z) (db : SocialDb)
    (target : string) :
  pubkeyRef <> EmptyString ->
  resolvePubkey nip19_decode pubkeyRef = Some target ->
  let r := muteCommand nip19_decode (Some me) pubkeyRef publish now db in
  r.2 = addMute db target now /\
  (forall authors self maxD, target ∉ filterByTrustDistance r.2 authors self maxD) /\
  (forall t self, getTrustDistance r.2 t self = getTrustDistance db t self) /\
  r.1 = Finished (if publish_wanted publish
                  then Some (mute_list_request r.2) else None) /\
  ([Some "p"; Some target] ∈ sr_tags (mute_list_request r.2)) /\
  (isMuted db target = false ->
     unmuteCommand nip19_decode (Some me) pubkeyRef publish db = (Finished None, db) /\
     (unmuteCommand nip19_decode (Some me) pubkeyRef publish r.2).2 = db).
Proof.
  intros Hne Hres r.
  assert (Hr : r = (Finished (if publish_wanted publish
                      then Some (mute_list_request (addMute db target now))
                      else None), addMute db target now)).
  { unfold r, muteCommand. rewrite decide_False by done. rewrite Hres.
    by destruct (publish_wanted publish). }
  assert (Hun : forall d, unmuteCommand nip19_decode (Some me) pubkeyRef publish d
    = if isMuted d target
      then (Finished (if publish_wanted publish
                      then Some (mute_list_request (removeMute d target).2)
                      else None), (removeMute d target).2)
      else (Finished None, (removeMute d target).2)).
  { intros d. unfold unmuteCommand. rewrite decide_False by done. rewrite Hres.
    unfold removeMute, isMuted.
    destruct (has_key target (mutes d)); cbn [negb fst snd]; [|done].
    by destruct (publish_wanted publish). }
  rewrite Hr. cbn [fst snd]. split_and!; try done.
  - intros authors self maxD Hin.
    unfold filterByTrustDistance in Hin.
    apply list_elem_of_In, filter_In in Hin as [_ Hkeep].
    rewrite addMute_isMuted, bool_decide_eq_true_2 in Hkeep by done. done.
  - cbn [sr_tags mute_list_request].
    change (map mute_tag (getMutes (addMute db target now)))
      with (mute_tag <$> getMutes (addMute db target now)).
    apply list_elem_of_fmap. exists (Some target, now). split; [done|].
    unfold getMutes. apply elem_of_order_by_desc.
    unfold addMute. cbn [mutes set_mutes]. apply elem_of_insert. by left.
  - intros Hm. split.
    + rewrite Hun, Hm. f_equal. unfold isMuted, removeMute in *. cbn [snd].
      rewrite (delete_key_id _ _ Hm). apply set_mutes_id.
    + rewrite Hun.
      assert (Hback : (removeMute (addMute db target now) target).2 = db)
        by (by rewrite removeMute_addMute).
      destruct (isMuted (addMute db target now) target); cbn [snd]; exact Hback.
Qed.

Lemma muteCommand_spec_witness :
  let r := muteCommand toy_decode (Some "M") "npub1alice" (Some false) 9 fixture in
  r.1 = Finished None /\
  filterByTrustDistance r.2 everyone "M" (Num 2) = ["M"; "B"; "C"; "D"; "E"] /\
  getTrustDistance r.2 "C" "M" = Some 2%Z /\
  (unmuteCommand toy_decode (Some "M") "npub1alice" None r.2).2 = fixture.
Proof.
  intros r.
  destruct (muteCommand_spec toy_decode "M" "npub1alice" (Some false) 9 fixture "A")
    as (Hdb & _ & Hdist & Hend & _ & Hun); [done..|].
  fold r in Hdb, Hdist, Hend, Hun. split_and!.
  - rewrite Hend. reflexivity.
  - rewrite Hdb. vm_compute. reflexivity.
  - rewrite Hdist. vm_compute. reflexivity.
  - destruct (Hun eq_refl) as [_ Hback].
    etrans; [|exact Hback]. reflexivity.
Defined.
